(** * we-engine: entity registry, component pools, tile world, light map
      and tile physics of [wineng.hpp], embedded in Rocq.

    Layout: Part I holds the embedding (data and operations, translated
    from the C++ source function by function); Part II the lemmas and the
    theorems about it. *)

From Stdlib Require Import ZArith List Bool Lia.
From Corelib Require Import SpecFloat.
From stdpp Require Import base option list gmap.

Local Open Scope Z_scope.

(* ===================================================================== *)
(** * Part I: the embedding                                               *)
(* ===================================================================== *)

(** ** Fixed-width integers

    [u8], [u16], [u32], [i32] and [size_t] values are kept in [Z]; a cast
    or an operation that can leave the type's range applies the matching
    wrap. *)

Definition to_u8 (z : Z) : Z := z mod 256.
Definition to_u16 (z : Z) : Z := z mod 65536.
Definition to_u32 (z : Z) : Z := z mod 4294967296.
Definition to_i32 (z : Z) : Z := (z + 2147483648) mod 4294967296 - 2147483648.
Definition to_usize (z : Z) : Z := z mod 18446744073709551616.

Definition is_u8 (z : Z) : Prop := 0 <= z < 256.
Definition is_u16 (z : Z) : Prop := 0 <= z < 65536.
Definition is_i32 (z : Z) : Prop := -2147483648 <= z < 2147483648.

(** ** std::vector as a list, indexed by a [size_t]

    [vlen] is [size()]; [vget] reads [v[i]] and is [None] where the C++
    read would be out of bounds; [vset] writes [v[i]] and leaves the vector
    alone out of bounds. *)

Definition vlen {A} (l : list A) : Z := Z.of_nat (length l).

Definition vget {A} (l : list A) (i : Z) : option A :=
  if i <? 0 then None else l !! Z.to_nat i.

Definition vset {A} (l : list A) (i : Z) (x : A) : list A :=
  if i <? 0 then l else <[Z.to_nat i := x]> l.

(** [v[i]] for a vector of integers, 0 where the read is out of bounds. *)
Definition vgetz (l : list Z) (i : Z) : Z := default 0 (vget l i).

(** A loop whose body can fail: the state is threaded through the
    iterations from left to right, and a failing body stops the loop. *)
Fixpoint foldlM_opt {A B} (f : A -> B -> option A) (l : list B) (a : A)
  : option A :=
  match l with
  | [] => Some a
  | x :: l' => a' ← f a x; foldlM_opt f l' a'
  end.

Definition is_Some_b {A} (o : option A) : bool :=
  match o with Some _ => true | None => false end.

(** ** Entity handles: [gen:16][idx:16] packed in a [u32] *)

Definition Entity := Z.

Definition ent_idx (e : Entity) : Z := to_u16 (Z.land e 65535).
Definition ent_gen (e : Entity) : Z := to_u16 (Z.shiftr e 16).
Definition make_ent (idx gen : Z) : Entity :=
  to_u32 (Z.lor (to_u32 (Z.shiftl (to_u32 gen) 16)) (to_u32 idx)).

(** ** Registry *)

Module Registry.

Record t := mk {
  gen : list Z;        (* generation per slot, u16 *)
  free_list : list Z;  (* free indices, u16 *)
}.

Definition empty : t := mk [] [].

Definition create (r : t) : Entity * t :=
  match last (free_list r) with
  | Some idx =>
      let r' := mk (gen r) (removelast (free_list r)) in
      (make_ent idx (vgetz (gen r') idx), r')
  | None =>
      let idx := to_u16 (vlen (gen r)) in
      let r' := mk (gen r ++ [1]) (free_list r) in
      (make_ent idx (vgetz (gen r') idx), r')
  end.

Definition alive (r : t) (e : Entity) : bool :=
  let idx := ent_idx e in
  if vlen (gen r) <=? idx then false
  else vgetz (gen r) idx =? ent_gen e.

Definition destroy (r : t) (e : Entity) : t :=
  let idx := ent_idx e in
  if vlen (gen r) <=? idx then r
  else if negb (vgetz (gen r) idx =? ent_gen e) then r
  else mk (vset (gen r) idx (to_u16 (vgetz (gen r) idx + 1)))
          (free_list r ++ [idx]).

End Registry.

(** A client of the registry: a sequence of [create] and [destroy] calls. *)
Inductive reg_op :=
  | OpCreate
  | OpDestroy (e : Entity).

Definition reg_step (r : Registry.t) (o : reg_op) : Registry.t :=
  match o with
  | OpCreate => snd (Registry.create r)
  | OpDestroy e => Registry.destroy r e
  end.

Definition reg_run (ops : list reg_op) (r : Registry.t) : Registry.t :=
  fold_left reg_step ops r.

(** The [destroy] calls of a sequence that name slot [idx]. *)
Definition destroys_slot (idx : Z) (o : reg_op) : bool :=
  match o with OpDestroy e => ent_idx e =? idx | OpCreate => false end.

Definition slot_destroys (idx : Z) (ops : list reg_op) : nat :=
  length (List.filter (destroys_slot idx) ops).

(** A client that creates an entity and destroys it again, [n] times over,
    starting when slot 0 carries generation [g]: the handle each [create]
    returns is the one the next [destroy] is given. *)
Fixpoint churn_ops (n : nat) (g : Z) : list reg_op :=
  match n with
  | O => []
  | S n' => OpCreate :: OpDestroy (make_ent 0 (to_u16 g)) :: churn_ops n' (g + 1)
  end.

(** ** Pool<T>: sparse component storage *)

Module Pool.

Record t (T : Type) := mk {
  dense_idx : list Z;  (* dense -> entity idx, u16 *)
  dense_val : list T;
  sparse : list Z;     (* entity idx -> dense index, -1 if none; i32 *)
}.
Arguments mk {T} _ _ _.
Arguments dense_idx {T} _.
Arguments dense_val {T} _.
Arguments sparse {T} _.

Section Ops.
Context {T : Type}.

Definition empty : t T := mk [] [] [].

Definition ensure_sparse (n : Z) (p : t T) : t T :=
  if vlen (sparse p) <? n
  then mk (dense_idx p) (dense_val p)
          (sparse p ++ replicate (Z.to_nat (n - vlen (sparse p))) (-1))
  else p.

Definition has (p : t T) (e : Entity) : bool :=
  let idx := ent_idx e in
  if vlen (sparse p) <=? idx then false
  else
    let di := vgetz (sparse p) idx in
    (0 <=? di) && (di <? to_i32 (vlen (dense_idx p)))
    && bool_decide (vget (dense_idx p) di = Some idx).

(** [get] returns a pointer into [dense_val]: [slot] is the position it
    points at, [get] the value read through it. *)
Definition slot (p : t T) (e : Entity) : option Z :=
  let idx := ent_idx e in
  if vlen (sparse p) <=? idx then None
  else
    let di := vgetz (sparse p) idx in
    if di <? 0 then None
    else if to_i32 (vlen (dense_idx p)) <=? di then None
    else if negb (bool_decide (vget (dense_idx p) di = Some idx)) then None
    else Some di.

Definition get (p : t T) (e : Entity) : option T :=
  di ← slot p e; vget (dense_val p) di.

(** A write through the pointer [get] returned. *)
Definition put (p : t T) (di : Z) (v : T) : t T :=
  mk (dense_idx p) (vset (dense_val p) di v) (sparse p).

Definition add (p : t T) (e : Entity) (v : T) : t T :=
  let p := ensure_sparse (ent_idx e + 1) p in
  let idx := ent_idx e in
  let di := vgetz (sparse p) idx in
  if (0 <=? di) && (to_usize di <? vlen (dense_idx p))
     && bool_decide (vget (dense_idx p) di = Some idx)
  then put p di v
  else mk (dense_idx p ++ [idx]) (dense_val p ++ [v])
          (vset (sparse p) idx (to_i32 (vlen (dense_idx p)))).

Definition remove (p : t T) (e : Entity) : t T :=
  let idx := ent_idx e in
  if vlen (sparse p) <=? idx then p
  else
    let di := vgetz (sparse p) idx in
    if di <? 0 then p
    else
      let last_ := to_usize (vlen (dense_idx p) - 1) in
      let p1 :=
        if negb (to_usize di =? last_) then
          let didx := vset (dense_idx p) di (vgetz (dense_idx p) last_) in
          let dval :=
            match vget (dense_val p) last_ with
            | Some x => vset (dense_val p) di x
            | None => dense_val p
            end in
          mk didx dval (vset (sparse p) (vgetz didx di) di)
        else p in
      mk (removelast (dense_idx p1)) (removelast (dense_val p1))
         (vset (sparse p1) idx (-1)).

Definition size (p : t T) : Z := vlen (dense_idx p).

(** [entity_at] reads [dense_idx[i]] and [r.gen[idx]] unchecked: [None]
    where either read is out of bounds. *)
Definition entity_at (p : t T) (i : Z) (r : Registry.t) : option Entity :=
  idx ← vget (dense_idx p) i;
  g ← vget (Registry.gen r) idx;
  Some (make_ent idx g).

End Ops.
Arguments empty {T}.

End Pool.

(** A client of one pool: a sequence of [add] and [remove] calls. *)
Inductive pool_op (T : Type) :=
  | PAdd (e : Entity) (v : T)
  | PRemove (e : Entity).
Arguments PAdd {T} _ _.
Arguments PRemove {T} _.

Definition pool_step {T} (p : Pool.t T) (o : pool_op T) : Pool.t T :=
  match o with
  | PAdd e v => Pool.add p e v
  | PRemove e => Pool.remove p e
  end.

Definition pool_run {T} (ops : list (pool_op T)) (p : Pool.t T) : Pool.t T :=
  fold_left pool_step ops p.

(** The number of slot indices a pool answers [has] for ([has] reads the
    slot index of the handle only; the handles asked carry generation 0). *)
Definition has_count {T} (p : Pool.t T) : nat :=
  length (filter (fun idx => Pool.has p (make_ent idx 0) = true) (seqZ 0 65536)).

(** Sparse/dense consistency of a pool. *)
Record pool_wf {T} (p : Pool.t T) : Prop := mk_pool_wf {
  wf_vals : vlen (Pool.dense_val p) = vlen (Pool.dense_idx p);
  wf_sparse_len : vlen (Pool.sparse p) <= 65536;
  wf_dense : forall d idx,
    vget (Pool.dense_idx p) d = Some idx -> vget (Pool.sparse p) idx = Some d;
  wf_sparse : forall i d,
    vget (Pool.sparse p) i = Some d -> d = -1 \/ vget (Pool.dense_idx p) d = Some i;
}.

(** ** f32: IEEE-754 binary32, round to nearest even

    The Standard Library's [spec_float] operations at precision 24 and
    maximal exponent 128.  NaN payloads are not distinguished. *)

Definition f32 := spec_float.

Definition fadd : f32 -> f32 -> f32 := SFadd 24 128.
Definition fsub : f32 -> f32 -> f32 := SFsub 24 128.
Definition fmul : f32 -> f32 -> f32 := SFmul 24 128.
Definition fdiv : f32 -> f32 -> f32 := SFdiv 24 128.
Definition flt : f32 -> f32 -> bool := SFltb.
Definition fle : f32 -> f32 -> bool := SFleb.
Definition feq : f32 -> f32 -> bool := SFeqb.

(** [(f32)z] for an integer [z]. *)
Definition f32_of_int (z : Z) : f32 := binary_normalize 24 128 z 0 false.

Definition F0 : f32 := S754_zero false.
Definition F1 : f32 := f32_of_int 1.
(** [0.5f], [0.08f] and [0.02f]: the binary32 values nearest to the
    decimal literals. *)
Definition F0_5 : f32 := S754_finite false 8388608 (-24).
Definition F0_08 : f32 := S754_finite false 10737418 (-27).
Definition F0_02 : f32 := S754_finite false 10737418 (-29).

(** [(int)] of a value outside the range of [int] is undefined in C++; the
    model gives [INT_MIN] there, as the x86 conversion instructions do. *)
Definition int_of_Z_indef (z : Z) : Z :=
  if (-2147483648 <=? z) && (z <? 2147483648) then z else -2147483648.

(** [(int)std::floor(x)]. *)
Definition floor_to_int (x : f32) : Z :=
  match x with
  | S754_zero _ => 0
  | S754_finite s m e => int_of_Z_indef (Z.shiftl (cond_Zopp s (Zpos m)) e)
  | _ => -2147483648
  end.

(** [(int)x]: truncation towards zero. *)
Definition trunc_to_int (x : f32) : Z :=
  match x with
  | S754_zero _ => 0
  | S754_finite s m e => int_of_Z_indef (cond_Zopp s (Z.shiftl (Zpos m) e))
  | _ => -2147483648
  end.

(** [std::min(a, b)] is [(b < a) ? b : a]. *)
Definition std_min (a b : f32) : f32 := if flt b a then b else a.

(** The constant-zero function, put in the place of [std::sin] in closed
    examples. *)
Definition sin_zero : f32 -> f32 := fun _ => F0.

Record v2 := V2 { vx : f32; vy : f32 }.

(** ** World: chunked tiles *)

Definition CHUNK : Z := 32.

Record Chunk := mkChunk {
  chunk_cx : Z;
  chunk_cy : Z;
  tiles : list Z;  (* u16 tile codes, layer 0 *)
  used : bool;
}.

Module World.

(** The tile set and the [bilinear], [blend] flags only concern drawing and
    are left out. *)
Record t := mk {
  tile_px : Z;          (* world pixels per tile *)
  seed : Z;
  map : gmap Z Chunk;   (* key -> chunk *)
}.

Definition solid (t : Z) : bool := negb (t =? 0).

Definition to_i64 (z : Z) : Z :=
  (z + 9223372036854775808) mod 18446744073709551616 - 9223372036854775808.

Definition key (cx cy : Z) : Z :=
  to_i64 (Z.lxor (to_i64 (Z.shiftl (to_u32 cx) 32)) (to_u32 cy)).

(** Floor division of a world tile coordinate by [CHUNK], as [get] and
    [set] write it; [Z.quot] is the truncating division of C++. *)
Definition chunk_coord (wc : Z) : Z :=
  if 0 <=? wc then Z.quot wc CHUNK
  else to_i32 (- Z.quot (to_i32 (to_i32 (to_i32 (- wc) + CHUNK) - 1)) CHUNK).

Definition local_coord (wc : Z) : Z :=
  to_i32 (wc - to_i32 (chunk_coord wc * CHUNK)).

(** [(size_t)ly*(size_t)CHUNK + (size_t)lx]. *)
Definition tile_index (lx ly : Z) : Z :=
  to_usize (to_usize (to_usize ly * to_usize CHUNK) + to_usize lx).

Section Ops.
(** [std::sin] on [float]: a library function, not part of the source. *)
Context (fsin : f32 -> f32).

(** The body of the two generation loops of [get_chunk] for one tile. *)
Definition ground (wx : Z) : Z :=
  let fx := f32_of_int wx in
  let h := fadd (fmul (fsin (fmul fx F0_08)) (f32_of_int 4))
                (fmul (fsin (fmul fx F0_02)) (f32_of_int 10)) in
  trunc_to_int (fadd (f32_of_int 18) h).

Definition classify (wy g : Z) : Z :=
  if g <? wy then (if to_i32 (g + 10) <? wy then 2 else 1)
  else if wy =? g then 4
  else 0.

Definition gen_tile (cx cy tx ty : Z) : Z :=
  let wx := to_i32 (to_i32 (cx * CHUNK) + tx) in
  let wy := to_i32 (to_i32 (cy * CHUNK) + ty) in
  classify wy (ground wx).

Definition gen_row (cx cy ty : Z) (ts : list Z) : list Z :=
  fold_left (fun ts tx => vset ts (tile_index tx ty) (gen_tile cx cy tx ty))
            (seqZ 0 CHUNK) ts.

Definition gen_tiles (cx cy : Z) : list Z :=
  fold_left (fun ts ty => gen_row cx cy ty ts) (seqZ 0 CHUNK)
            (replicate (Z.to_nat (CHUNK * CHUNK)) 0).

(** [get_chunk] returns a reference to the chunk stored under [key cx cy];
    the model returns the chunk and the world that holds it. *)
Definition get_chunk (w : t) (cx cy : Z) : Chunk * t :=
  let k := key cx cy in
  match map w !! k with
  | Some c => (c, w)
  | None =>
      let c := mkChunk cx cy (gen_tiles cx cy) true in
      (c, mk (tile_px w) (seed w) (<[k := c]> (map w)))
  end.

(** [get]: the tile read, and the world that holds the chunk read from.
    For coordinates from [INT_MIN + 33] up the offset [ly*CHUNK + lx] lies
    inside the [CHUNK*CHUNK] tiles of the chunk.  For the 33 lowest [int]
    values [-wx + CHUNK - 1] overflows in the source and the offset leaves
    the vector, a read the source does not define and [vgetz] answers with
    0: what is stated about tiles read is stated from [INT_MIN + 33] up. *)
Definition get (w : t) (wx wy : Z) : Z * t :=
  let cx := chunk_coord wx in
  let cy := chunk_coord wy in
  let lx := local_coord wx in
  let ly := local_coord wy in
  let '(c, w') := get_chunk w cx cy in
  (vgetz (tiles c) (tile_index lx ly), w').

Definition set (w : t) (wx wy v : Z) : t :=
  let cx := chunk_coord wx in
  let cy := chunk_coord wy in
  let lx := local_coord wx in
  let ly := local_coord wy in
  let '(c, w') := get_chunk w cx cy in
  let c' := mkChunk (chunk_cx c) (chunk_cy c)
                    (vset (tiles c) (tile_index lx ly) v) (used c) in
  mk (tile_px w') (seed w') (<[key cx cy := c']> (map w')).

End Ops.

(** The pairs [(tx, ty)] the two generation loops of [get_chunk] visit, in
    loop order. *)
Definition chunk_cells : list (Z * Z) :=
  ty ← seqZ 0 CHUNK; tx ← seqZ 0 CHUNK; [(tx, ty)].

(** A default-constructed world. *)
Definition init : t := mk 32 12648430 ∅.

(** Every chunk of the map holds [CHUNK*CHUNK] tiles, as [get_chunk]
    creates them. *)
Definition wf (w : t) : Prop :=
  forall k c, map w !! k = Some c -> vlen (tiles c) = CHUNK * CHUNK.

End World.

(** ** Camera2D: the fields the visible-region computation reads *)

Record Camera2D := mkCamera {
  cam_pos : v2;
  cam_zoom : f32;
  cam_viewport : v2;
}.

(** ** Lighting: tile light map over the visible region *)

Module LightSource.
Record t := mk {
  pos_px : v2;         (* in world pixels *)
  radius_tiles : Z;
  intensity : Z;       (* u8 *)
}.
End LightSource.

Module LightMap.

Record t := mk {
  w : Z; h : Z;        (* in tiles (visible region) *)
  ox : Z; oy : Z;      (* world tile origin of [0,0] *)
  L : list Z;          (* light 0..255, u8 *)
  ambient : Z;         (* u8 *)
}.

Record Node := mkNode { node_x : Z; node_y : Z; node_v : Z }.

(** [(size_t)y*(size_t)w+(size_t)x]. *)
Definition cell_index (w x y : Z) : Z :=
  to_usize (to_usize (to_usize y * to_usize w) + to_usize x).

(** The [push] lambda of [build]; its state is the grid [L] and the queue
    [q].  The parameter [v] is a [u8]. *)
Definition push (w h : Z) (st : list Z * list Node) (x y v : Z)
  : list Z * list Node :=
  let '(L, q) := st in
  let v := to_u8 v in
  if (x <? 0) || (y <? 0) || (w <=? x) || (h <=? y) then st
  else
    let idx := cell_index w x y in
    if v <=? vgetz L idx then st
    else (vset L idx v, q ++ [mkNode x y v]).

(** The visible tile bounds [(tx0, tx1, ty0, ty1)] of [build]. *)
Definition visible_bounds (tsz : Z) (cam : Camera2D) : Z * Z * Z * Z :=
  let invz := if negb (feq (cam_zoom cam) F0) then fdiv F1 (cam_zoom cam)
              else F1 in
  let hw := fmul (fmul (vx (cam_viewport cam)) F0_5) invz in
  let hh := fmul (fmul (vy (cam_viewport cam)) F0_5) invz in
  let left := fsub (vx (cam_pos cam)) hw in
  let right := fadd (vx (cam_pos cam)) hw in
  let top := fsub (vy (cam_pos cam)) hh in
  let bottom := fadd (vy (cam_pos cam)) hh in
  let ft := f32_of_int tsz in
  (to_i32 (floor_to_int (fdiv left ft) - 4),
   to_i32 (floor_to_int (fdiv right ft) + 4),
   to_i32 (floor_to_int (fdiv top ft) - 4),
   to_i32 (floor_to_int (fdiv bottom ft) + 4)).

Definition seed_lights (tsz w h ox oy : Z) (lights : list LightSource.t)
  (st : list Z * list Node) : list Z * list Node :=
  fold_left (fun st ls =>
    let tx := floor_to_int (fdiv (vx (LightSource.pos_px ls)) (f32_of_int tsz)) in
    let ty := floor_to_int (fdiv (vy (LightSource.pos_px ls)) (f32_of_int tsz)) in
    let lx := to_i32 (tx - ox) in
    let ly := to_i32 (ty - oy) in
    push w h st lx ly (LightSource.intensity ls)) lights st.

Section Build.
Context (fsin : f32 -> f32).

(** One iteration of the propagation loop on node [n = q[qi]]; [q] is the
    part of the queue behind [qi]. *)
Definition expand (w h ox oy : Z) (world : World.t) (n : Node)
  (st : list Z * list Node) : list Z * list Node * World.t :=
  let wx := to_i32 (ox + node_x n) in
  let wy := to_i32 (oy + node_y n) in
  let '(tile, world) := World.get fsin world wx wy in
  let block := World.solid tile in
  let decay := if block then 18 else 12 in
  let step st dx dy :=
    let nx := to_i32 (node_x n + dx) in
    let ny := to_i32 (node_y n + dy) in
    let nv := if decay <? node_v n then to_u8 (node_v n - decay) else 0 in
    push w h st nx ny nv in
  let st := step st 1 0 in
  let st := step st (-1) 0 in
  let st := step st 0 1 in
  let st := step st 0 (-1) in
  (st, world).

(** The propagation loop [for (qi = 0; qi < q.size(); qi++)].  The vector
    [q] is only read at [qi] and only grows at its back, so the model keeps
    [q[qi..]], the nodes still to visit.  [fuel] bounds the number of
    iterations; [None] when it runs out. *)
Fixpoint propagate (fuel : nat) (w h ox oy : Z) (world : World.t)
  (L : list Z) (q : list Node) : option (list Z * World.t) :=
  match q with
  | [] => Some (L, world)
  | n :: q' =>
      match fuel with
      | O => None
      | S fuel' =>
          if node_v n <=? 1 then propagate fuel' w h ox oy world L q'
          else
            let '(L', q'', world') := expand w h ox oy world n (L, q') in
            propagate fuel' w h ox oy world' L' q''
      end
  end.

(** Room left for raises in a grid: every successful [push] lowers it. *)
Definition headroom (L : list Z) : Z :=
  fold_right (fun v acc => (255 - v) + acc) 0 L.

(** [build]: the new light map and the world (chunks may be created by the
    solidity reads). *)
Definition build (lm : t) (world : World.t) (cam : Camera2D)
  (lights : list LightSource.t) : option (t * World.t) :=
  let tsz := World.tile_px world in
  let '(tx0, tx1, ty0, ty1) := visible_bounds tsz cam in
  let w := to_i32 (to_i32 (tx1 - tx0) + 1) in
  let h := to_i32 (to_i32 (ty1 - ty0) + 1) in
  if (w <=? 0) || (h <=? 0) then Some (mk 0 0 tx0 ty0 [] (ambient lm), world)
  else
    let L0 := replicate (Z.to_nat (to_usize (to_usize w * to_usize h)))
                        (ambient lm) in
    let '(L1, q) := seed_lights tsz w h tx0 ty0 lights (L0, []) in
    let fuel := S (length q + Z.to_nat (headroom L1)) in
    '(L2, world') ← propagate fuel w h tx0 ty0 world L1 q;
    Some (mk w h tx0 ty0 L2 (ambient lm), world').

End Build.

(** A default-constructed light map. *)
Definition init : t := mk 0 0 0 0 [] 40.

(** The grid holds one cell per tile of the [w] by [h] region. *)
Definition wf (lm : t) : Prop :=
  0 <= w lm < 2147483648 /\ 0 <= h lm < 2147483648 /\
  vlen (L lm) = w lm * h lm.

(** The grid while [build] runs: one cell per tile of the region, every
    cell a [u8] value. *)
Definition grid_ok (w h : Z) (L : list Z) : Prop :=
  0 <= w < 2147483648 /\ 0 <= h < 2147483648 /\
  vlen L = w * h /\ Forall (fun v => v <= 255) L.

(** [sample_tile]: [None] would be a read outside [L]. *)
Definition sample_tile (lm : t) (world_tx world_ty : Z) : option Z :=
  let x := to_i32 (world_tx - ox lm) in
  let y := to_i32 (world_ty - oy lm) in
  if (x <? 0) || (y <? 0) || (w lm <=? x) || (h lm <=? y)
  then Some (ambient lm)
  else vget (L lm) (cell_index (w lm) x y).

End LightMap.

(** ** The lighting scenario

    A world whose chunks around the origin are empty except for a floor of
    stone, one tile thick, at [y = 10] for [x] in [[-15, 15]]; a camera
    whose margined visible rectangle is [x] in [[-17, 16]], [y] in
    [[-2, 21]]; one light of intensity 255 in the middle of tile [(0, 9)];
    ambient 35. *)

Definition floor_tile (wx wy : Z) : Z :=
  if (wy =? 10) && (-15 <=? wx) && (wx <=? 15) then 2 else 0.

Definition floor_chunk (cx cy : Z) : Chunk :=
  mkChunk cx cy
    ((fun '(tx, ty) => floor_tile (cx * CHUNK + tx) (cy * CHUNK + ty))
       <$> World.chunk_cells)
    true.

Definition floor_world : World.t :=
  World.mk 32 12648430
    (<[World.key 0 0 := floor_chunk 0 0]>
       (<[World.key (-1) 0 := floor_chunk (-1) 0]>
          (<[World.key 0 (-1) := floor_chunk 0 (-1)]>
             (<[World.key (-1) (-1) := floor_chunk (-1) (-1)]> ∅)))).

Definition scenario_cam : Camera2D :=
  mkCamera (V2 F0 (f32_of_int 320)) F1 (V2 (f32_of_int 800) (f32_of_int 480)).

Definition scenario_lights : list LightSource.t :=
  [LightSource.mk (V2 (f32_of_int 16) (f32_of_int 304)) 10 255].

Definition scenario_map : LightMap.t := LightMap.mk 0 0 0 0 [] 35.

(** ** Components and the ECS *)

Module CTransform.
Record t := mk { pos : v2; rot : f32; scale : v2 }.
End CTransform.

Module CVel.
Record t := mk { v : v2 }.
End CVel.

Module CCollider.
Record t := mk { half : v2; on_ground : bool }.
End CCollider.

Module CPlayer.
Record t := mk { move_speed : f32; jump_speed : f32 }.
End CPlayer.

(** [img] is a pointer to an image: kept as an opaque address. *)
Module CSprite.
Record t := mk {
  img : Z; sx : Z; sy : Z; sw : Z; sh : Z;
  bilinear : bool; blend : bool; tint : Z;
}.
End CSprite.

Module CLight.
Record t := mk { radius_tiles : Z; intensity : Z }.
End CLight.

Module ECS.
Record t := mk {
  reg : Registry.t;
  tr : Pool.t CTransform.t;
  vel : Pool.t CVel.t;
  col : Pool.t CCollider.t;
  player : Pool.t CPlayer.t;
  spr : Pool.t CSprite.t;
  light : Pool.t CLight.t;
}.
End ECS.

(** Every owner of a row of [p] is a slot of the registry, so
    [entity_at] reads inside [gen]. *)
Definition owners_in {T} (p : Pool.t T) (r : Registry.t) : Prop :=
  forall i idx, vget (Pool.dense_idx p) i = Some idx ->
                0 <= idx < vlen (Registry.gen r).

(** What [sys_physics] relies on: the generations are [u16] values, the
    velocity pool is consistent, and the rows of the pools it iterates
    belong to slots of the registry. *)
Record physics_ready (ecs : ECS.t) : Prop := mk_physics_ready {
  ready_gen : Forall is_u16 (Registry.gen (ECS.reg ecs));
  ready_vel : pool_wf (ECS.vel ecs);
  ready_vel_owners : owners_in (ECS.vel ecs) (ECS.reg ecs);
  ready_col_owners : owners_in (ECS.col ecs) (ECS.reg ecs);
}.

(** Entity [e] misses one of Transform, Velocity, Collider. *)
Definition incomplete (ecs : ECS.t) (e : Entity) : Prop :=
  Pool.get (ECS.tr ecs) e = None \/ Pool.get (ECS.vel ecs) e = None \/
  Pool.get (ECS.col ecs) e = None.

(** The ECS with its velocity pool replaced. *)
Definition with_vel (ecs : ECS.t) (vel' : Pool.t CVel.t) : ECS.t :=
  ECS.mk (ECS.reg ecs) (ECS.tr ecs) vel' (ECS.col ecs)
         (ECS.player ecs) (ECS.spr ecs) (ECS.light ecs).

(** What a system run must leave alone for entity [e]. *)
Record frame (e : Entity) (ecs ecs' : ECS.t) : Prop := mk_frame {
  frame_reg : ECS.reg ecs' = ECS.reg ecs;
  frame_tr : Pool.get (ECS.tr ecs') e = Pool.get (ECS.tr ecs) e;
  frame_vel : Pool.get (ECS.vel ecs') e = Pool.get (ECS.vel ecs) e;
  frame_col : Pool.get (ECS.col ecs') e = Pool.get (ECS.col ecs) e;
  frame_col_rows : Pool.dense_idx (ECS.col ecs') = Pool.dense_idx (ECS.col ecs);
  frame_player : ECS.player ecs' = ECS.player ecs;
  frame_spr : ECS.spr ecs' = ECS.spr ecs;
  frame_light : ECS.light ecs' = ECS.light ecs;
}.

(** ** Tile physics (AABB vs solid tiles) *)

Definition floor_div_tile (x : f32) (tile_px : Z) : Z :=
  floor_to_int (fdiv x (f32_of_int tile_px)).

Definition aabb_overlaps_tile (pos half : v2) (tile_px tx ty : Z) : bool :=
  let x0 := fsub (vx pos) (vx half) in
  let x1 := fadd (vx pos) (vx half) in
  let y0 := fsub (vy pos) (vy half) in
  let y1 := fadd (vy pos) (vy half) in
  let t0 := f32_of_int (to_i32 (tx * tile_px)) in
  let t1 := fadd t0 (f32_of_int tile_px) in
  let s0 := f32_of_int (to_i32 (ty * tile_px)) in
  let s1 := fadd s0 (f32_of_int tile_px) in
  negb (fle x1 t0 || fle t1 x0 || fle y1 s0 || fle s1 y0).

(** The three components [resolve_axis_x] and [resolve_axis_y] hold
    pointers to while they scan.  The writes through the pointers are kept
    in this record during the scan and stored in the pools when it ends:
    nothing reads the pools in between. *)
Record Body := mkBody {
  body_t : CTransform.t;
  body_v : CVel.t;
  body_c : CCollider.t;
}.

Definition set_pos_x (t : CTransform.t) (x : f32) : CTransform.t :=
  CTransform.mk (V2 x (vy (CTransform.pos t))) (CTransform.rot t)
                (CTransform.scale t).
Definition set_pos_y (t : CTransform.t) (y : f32) : CTransform.t :=
  CTransform.mk (V2 (vx (CTransform.pos t)) y) (CTransform.rot t)
                (CTransform.scale t).
Definition set_vel_x (v : CVel.t) (x : f32) : CVel.t :=
  CVel.mk (V2 x (vy (CVel.v v))).
Definition set_vel_y (v : CVel.t) (y : f32) : CVel.t :=
  CVel.mk (V2 (vx (CVel.v v)) y).
Definition set_on_ground (c : CCollider.t) (g : bool) : CCollider.t :=
  CCollider.mk (CCollider.half c) g.

(** The tiles of the two nested scan loops, in scan order ([ty] outer,
    [tx] inner), as pairs [(tx, ty)]. *)
Definition scan_tiles (min_tx max_tx min_ty max_ty : Z) : list (Z * Z) :=
  ty ← seqZ min_ty (max_ty - min_ty + 1);
  tx ← seqZ min_tx (max_tx - min_tx + 1);
  [(tx, ty)].

(** The scan bounds, computed once before the loops. *)
Definition scan_bounds (tp : Z) (b : Body) : Z * Z * Z * Z :=
  let p := CTransform.pos (body_t b) in
  let hf := CCollider.half (body_c b) in
  (to_i32 (floor_div_tile (fsub (vx p) (vx hf)) tp - 1),
   to_i32 (floor_div_tile (fadd (vx p) (vx hf)) tp + 1),
   to_i32 (floor_div_tile (fsub (vy p) (vy hf)) tp - 1),
   to_i32 (floor_div_tile (fadd (vy p) (vy hf)) tp + 1)).

(** A tile stops the scan body early unless it is solid and overlaps. *)
Definition overlapping (tp : Z) (b : Body) (tile : Z) (tx ty : Z) : bool :=
  World.solid tile
  && aabb_overlaps_tile (CTransform.pos (body_t b)) (CCollider.half (body_c b))
                        tp tx ty.

(** Push out along x. *)
Definition push_out_x (tp tx : Z) (b : Body) : Body :=
  let tile_left := f32_of_int (to_i32 (tx * tp)) in
  let tile_right := fadd tile_left (f32_of_int tp) in
  let hx := vx (CCollider.half (body_c b)) in
  let vxx := vx (CVel.v (body_v b)) in
  let t' :=
    if flt F0 vxx then set_pos_x (body_t b) (fsub tile_left hx)
    else if flt vxx F0 then set_pos_x (body_t b) (fadd tile_right hx)
    else body_t b in
  mkBody t' (set_vel_x (body_v b) F0) (body_c b).

(** Push out along y; moving down sets [on_ground]. *)
Definition push_out_y (tp ty : Z) (b : Body) : Body :=
  let tile_top := f32_of_int (to_i32 (ty * tp)) in
  let tile_bottom := fadd tile_top (f32_of_int tp) in
  let hy := vy (CCollider.half (body_c b)) in
  let vyy := vy (CVel.v (body_v b)) in
  let '(t', c') :=
    if flt F0 vyy
    then (set_pos_y (body_t b) (fsub tile_top hy), set_on_ground (body_c b) true)
    else if flt vyy F0
    then (set_pos_y (body_t b) (fadd tile_bottom hy), body_c b)
    else (body_t b, body_c b) in
  mkBody t' (set_vel_y (body_v b) F0) c'.

(** Writes through the pointers [get] returned for entity [e]. *)
Definition store {T} (p : Pool.t T) (e : Entity) (x : T) : Pool.t T :=
  match Pool.slot p e with
  | Some di => Pool.put p di x
  | None => p
  end.

Definition store_body (ecs : ECS.t) (e : Entity) (b : Body) : ECS.t :=
  ECS.mk (ECS.reg ecs)
         (store (ECS.tr ecs) e (body_t b))
         (store (ECS.vel ecs) e (body_v b))
         (store (ECS.col ecs) e (body_c b))
         (ECS.player ecs) (ECS.spr ecs) (ECS.light ecs).

Section Physics.
Context (fsin : f32 -> f32).

Definition scan_step_x (tp : Z) (st : Body * World.t) (txy : Z * Z)
  : Body * World.t :=
  let '(b, world) := st in
  let '(tx, ty) := txy in
  let '(tile, world) := World.get fsin world tx ty in
  if overlapping tp b tile tx ty then (push_out_x tp tx b, world)
  else (b, world).

Definition scan_step_y (tp : Z) (st : Body * World.t) (txy : Z * Z)
  : Body * World.t :=
  let '(b, world) := st in
  let '(tx, ty) := txy in
  let '(tile, world) := World.get fsin world tx ty in
  if overlapping tp b tile tx ty then (push_out_y tp ty b, world)
  else (b, world).



Definition resolve_axis_x (ecs : ECS.t) (world : World.t) (e : Entity)
  (dt : f32) : ECS.t * World.t :=
  match Pool.get (ECS.tr ecs) e, Pool.get (ECS.vel ecs) e,
        Pool.get (ECS.col ecs) e with
  | Some t, Some v, Some c =>
      let t := set_pos_x t (fadd (vx (CTransform.pos t))
                                 (fmul (vx (CVel.v v)) dt)) in
      let b := mkBody t v c in
      let tp := World.tile_px world in
      let '(min_tx, max_tx, min_ty, max_ty) := scan_bounds tp b in
      let '(b, world) :=
        fold_left (scan_step_x tp)
                  (scan_tiles min_tx max_tx min_ty max_ty) (b, world) in
      (store_body ecs e b, world)
  | _, _, _ => (ecs, world)
  end.

Definition resolve_axis_y (ecs : ECS.t) (world : World.t) (e : Entity)
  (dt : f32) : ECS.t * World.t :=
  match Pool.get (ECS.tr ecs) e, Pool.get (ECS.vel ecs) e,
        Pool.get (ECS.col ecs) e with
  | Some t, Some v, Some c =>
      let c := set_on_ground c false in
      let t := set_pos_y t (fadd (vy (CTransform.pos t))
                                 (fmul (vy (CVel.v v)) dt)) in
      let b := mkBody t v c in
      let tp := World.tile_px world in
      let '(min_tx, max_tx, min_ty, max_ty) := scan_bounds tp b in
      let '(b, world) :=
        fold_left (scan_step_y tp)
                  (scan_tiles min_tx max_tx min_ty max_ty) (b, world) in
      (store_body ecs e b, world)
  | _, _, _ => (ecs, world)
  end.

(** [v.y += gravity*dt; v.y = min(v.y, 3000)]. *)
Definition apply_gravity (dt : f32) (v : CVel.t) : CVel.t :=
  let y := fadd (vy (CVel.v v)) (fmul (f32_of_int 1200) dt) in
  set_vel_y v (std_min y (f32_of_int 3000)).

(** Body of the gravity loop at dense position [i]; [None] where
    [entity_at] reads out of bounds. *)
Definition gravity_at (dt : f32) (ecs : ECS.t) (i : Z) : option ECS.t :=
  e ← Pool.entity_at (ECS.vel ecs) i (ECS.reg ecs);
  if negb (Registry.alive (ECS.reg ecs) e) then Some ecs
  else
    match Pool.get (ECS.vel ecs) e with
    | None => Some ecs
    | Some v =>
        Some (ECS.mk (ECS.reg ecs) (ECS.tr ecs)
                     (store (ECS.vel ecs) e (apply_gravity dt v))
                     (ECS.col ecs) (ECS.player ecs) (ECS.spr ecs)
                     (ECS.light ecs))
    end.

(** Body of the resolution loop at dense position [i]. *)
Definition resolve_at (dt : f32) (st : ECS.t * World.t) (i : Z)
  : option (ECS.t * World.t) :=
  let '(ecs, world) := st in
  e ← Pool.entity_at (ECS.col ecs) i (ECS.reg ecs);
  if negb (Registry.alive (ECS.reg ecs) e) then Some st
  else if negb (is_Some_b (Pool.get (ECS.tr ecs) e))
          || negb (is_Some_b (Pool.get (ECS.vel ecs) e)) then Some st
  else
    let '(ecs, world) := resolve_axis_x ecs world e dt in
    Some (resolve_axis_y ecs world e dt).

Definition sys_physics (ecs : ECS.t) (world : World.t) (dt : f32)
  : option (ECS.t * World.t) :=
  ecs ← foldlM_opt (gravity_at dt) (seqZ 0 (Pool.size (ECS.vel ecs))) ecs;
  foldlM_opt (resolve_at dt) (seqZ 0 (Pool.size (ECS.col ecs))) (ecs, world).

(** [n] calls of [sys_physics] in a row, with the same time step. *)
Fixpoint run_ticks (n : nat) (dt : f32) (st : ECS.t * World.t)
  : option (ECS.t * World.t) :=
  match n with
  | O => Some st
  | S n' => st' ← sys_physics st.1 st.2 dt; run_ticks n' dt st'
  end.

End Physics.

(** ** Example entities

    The player of the demo: one entity created on an empty registry, with
    Transform, Velocity and Collider; and the same entity carrying a
    Velocity only.  [tick] is a time step of 1/64 s. *)

Definition demo_player : Entity := (Registry.create Registry.empty).1.
Definition demo_reg : Registry.t := (Registry.create Registry.empty).2.
Definition tick : f32 := S754_finite false 8388608 (-29).

Definition player_ecs : ECS.t :=
  ECS.mk demo_reg
    (Pool.add Pool.empty demo_player
       (CTransform.mk (V2 F0 (f32_of_int 200)) F0 (V2 F1 F1)))
    (Pool.add Pool.empty demo_player (CVel.mk (V2 F0 F0)))
    (Pool.add Pool.empty demo_player
       (CCollider.mk (V2 (f32_of_int 14) (f32_of_int 20)) false))
    Pool.empty Pool.empty Pool.empty.

Definition lone_vel_ecs : ECS.t :=
  ECS.mk demo_reg Pool.empty
    (Pool.add Pool.empty demo_player (CVel.mk (V2 F0 F0)))
    Pool.empty Pool.empty Pool.empty Pool.empty.

(** The player about to touch the floor: its feet are at [y = 320], the
    top edge of the floor, and it falls at 64 px/s. *)
Definition landing_ecs : ECS.t :=
  ECS.mk demo_reg
    (Pool.add Pool.empty demo_player
       (CTransform.mk (V2 F0 (f32_of_int 300)) F0 (V2 F1 F1)))
    (Pool.add Pool.empty demo_player (CVel.mk (V2 F0 (f32_of_int 64))))
    (Pool.add Pool.empty demo_player
       (CCollider.mk (V2 (f32_of_int 14) (f32_of_int 20)) false))
    Pool.empty Pool.empty Pool.empty.

(** ** Shapes used by the further properties *)

Definition is_u32 (z : Z) : Prop := 0 <= z < 4294967296.

(** A registry in good shape: every generation is a [u16] value, every
    free index names a slot, and there are at most 65536 slots (the range
    of the [u16] index of a handle). *)
Record reg_wf (r : Registry.t) : Prop := mk_reg_wf {
  rwf_gen : Forall is_u16 (Registry.gen r);
  rwf_free : Forall (fun i => 0 <= i < vlen (Registry.gen r)) (Registry.free_list r);
  rwf_cap : vlen (Registry.gen r) <= 65536;
}.

(** [create] has a slot to hand out: a freed one, or room for a new one
    within the [u16] index range. *)
Definition has_room (r : Registry.t) : Prop :=
  Registry.free_list r <> [] \/ vlen (Registry.gen r) < 65536.

(** The chunk [get_chunk] hands out for [(cx, cy)]: the one stored, or the
    generated one. *)
Definition chunk_of (fsin : f32 -> f32) (w : World.t) (cx cy : Z) : Chunk :=
  default (mkChunk cx cy (World.gen_tiles fsin cx cy) true)
          (World.map w !! World.key cx cy).

(** ** Light map and world: relations used by the further properties *)

(** Cell by cell, grid [L'] is at least as bright as grid [L]. *)
Definition grid_le (L L' : list Z) : Prop :=
  forall i x, vget L i = Some x -> exists x', vget L' i = Some x' /\ x <= x'.

(** What [build] keeps while it runs, between the ambient value [amb] and
    a bound [M] on the lights: the grid has its shape, every cell lies in
    [[amb, M]], every queued value is at most [M], and no cell is darker
    than it was in [L0]. *)
Record light_inv (w h amb M : Z) (L0 L : list Z) (q : list LightMap.Node) : Prop :=
  mk_light_inv {
  inv_grid : LightMap.grid_ok w h L;
  inv_cells : Forall (fun v => amb <= v <= M) L;
  inv_queue : Forall (fun n => LightMap.node_v n <= M) q;
  inv_le : grid_le L0 L;
}.

(** The tile coordinates from [INT_MIN + 33] up: for these the chunk and
    offset arithmetic of [get] and [set] stays inside [int], and the tile
    offset inside the chunk. *)
Definition in_world (x : Z) : Prop := -2147483615 <= x <= 2147483647.

(** World [w'] reads as world [w]: the same tile size and, at every
    position from [INT_MIN + 33] up, the same tile. *)
Definition same_tiles (fsin : f32 -> f32) (w w' : World.t) : Prop :=
  World.tile_px w' = World.tile_px w /\
  forall x y, in_world x -> in_world y ->
    (World.get fsin w' x y).1 = (World.get fsin w x y).1.

(** The tile a light stands on, as [build] computes it. *)
Definition light_tile (tsz : Z) (ls : LightSource.t) : Z * Z :=
  (floor_to_int (fdiv (vx (LightSource.pos_px ls)) (f32_of_int tsz)),
   floor_to_int (fdiv (vy (LightSource.pos_px ls)) (f32_of_int tsz))).

(** ** Physics: relations used by the further properties *)

(** Pool [p'] has the rows of pool [p]: the same owners in the same dense
    order, the same sparse table, and as many values. *)
Definition same_rows {T} (p p' : Pool.t T) : Prop :=
  Pool.dense_idx p' = Pool.dense_idx p /\ Pool.sparse p' = Pool.sparse p /\
  vlen (Pool.dense_val p') = vlen (Pool.dense_val p).

(** No entity and no component was added or removed between [ecs] and
    [ecs']: only the values of Transform, Velocity and Collider rows may
    differ. *)
Record same_shape (ecs ecs' : ECS.t) : Prop := mk_same_shape {
  shape_reg : ECS.reg ecs' = ECS.reg ecs;
  shape_tr : same_rows (ECS.tr ecs) (ECS.tr ecs');
  shape_vel : same_rows (ECS.vel ecs) (ECS.vel ecs');
  shape_col : same_rows (ECS.col ecs) (ECS.col ecs');
  shape_player : ECS.player ecs' = ECS.player ecs;
  shape_spr : ECS.spr ecs' = ECS.spr ecs;
  shape_light : ECS.light ecs' = ECS.light ecs;
}.

(** The cap [sys_physics] puts on the fall speed: [v.y] is not above
    3000. *)
Definition capped (v : CVel.t) : Prop :=
  flt (f32_of_int 3000) (vy (CVel.v v)) = false.

(** What a scan along x keeps of the body: the vertical position and
    speed, rotation, scale and the whole collider. *)
Definition keeps_vertical (b b' : Body) : Prop :=
  vy (CTransform.pos (body_t b')) = vy (CTransform.pos (body_t b)) /\
  CTransform.rot (body_t b') = CTransform.rot (body_t b) /\
  CTransform.scale (body_t b') = CTransform.scale (body_t b) /\
  vy (CVel.v (body_v b')) = vy (CVel.v (body_v b)) /\
  body_c b' = body_c b.

(** What a scan along y keeps of the body: the horizontal position and
    speed, rotation, scale and the half extents. *)
Definition keeps_horizontal (b b' : Body) : Prop :=
  vx (CTransform.pos (body_t b')) = vx (CTransform.pos (body_t b)) /\
  CTransform.rot (body_t b') = CTransform.rot (body_t b) /\
  CTransform.scale (body_t b') = CTransform.scale (body_t b) /\
  vx (CVel.v (body_v b')) = vx (CVel.v (body_v b)) /\
  CCollider.half (body_c b') = CCollider.half (body_c b).

(** ** Colour (0xAARRGGBB)

    All values are [u32]; the products and sums below stay far under
    [2^32], the wraps are written where the C++ operation has them. *)

Module Color.

Definition RGBA (r g b a : Z) : Z :=
  Z.lor (Z.lor (Z.lor (to_u32 (Z.shiftl (Z.land a 255) 24))
                      (to_u32 (Z.shiftl (Z.land r 255) 16)))
               (to_u32 (Z.shiftl (Z.land g 255) 8)))
        (to_u32 (Z.shiftl (Z.land b 255) 0)).

Definition A (c : Z) : Z := Z.land (Z.shiftr c 24) 255.
Definition R (c : Z) : Z := Z.land (Z.shiftr c 16) 255.
Definition G (c : Z) : Z := Z.land (Z.shiftr c 8) 255.
Definition B (c : Z) : Z := Z.land (Z.shiftr c 0) 255.

(** One channel of [blend_over]: [(s*sa + d*inv)/255u]. *)
Definition mix (s d sa inv : Z) : Z :=
  to_u32 (to_u32 (s * sa) + to_u32 (d * inv)) / 255.

Definition blend_over (dst src : Z) : Z :=
  let sa := A src in
  if sa =? 255 then src
  else if sa =? 0 then dst
  else
    let inv := to_u32 (255 - sa) in
    let rr := mix (R src) (R dst) sa inv in
    let gg := mix (G src) (G dst) sa inv in
    let bb := mix (B src) (B dst) sa inv in
    RGBA rr gg bb 255.

Definition mul_color (c tint : Z) : Z :=
  let rr := to_u32 (R c * R tint) / 255 in
  let gg := to_u32 (G c * G tint) / 255 in
  let bb := to_u32 (B c * B tint) / 255 in
  let aa := to_u32 (A c * A tint) / 255 in
  RGBA rr gg bb aa.

(** The default tint of [blit]. *)
Definition white : Z := RGBA 255 255 255 255.

End Color.

(** ** Images and texel reads *)

Definition clampi (x a b : Z) : Z := if x <? a then a else if b <? x then b else x.

Module Image.
Record t := mk { w : Z; h : Z; px : list Z }.

(** [empty()]. *)
Definition empty (img : t) : bool :=
  (w img <=? 0) || (h img <=? 0) || bool_decide (px img = []).

(** An image that holds one pixel for each of its [w*h] positions. *)
Definition wf (img : t) : Prop :=
  0 < w img < 2147483648 /\ 0 < h img < 2147483648 /\ vlen (px img) = w img * h img.
End Image.

(** [texel_clamp]; [None] where the read would leave [px]. *)
Definition texel_clamp (img : Image.t) (x y : Z) : option Z :=
  let x := clampi x 0 (to_i32 (Image.w img - 1)) in
  let y := clampi y 0 (to_i32 (Image.h img - 1)) in
  vget (Image.px img)
       (to_usize (to_usize (to_usize y * to_usize (Image.w img)) + to_usize x)).

(** ** The xorshift generator of the particle system *)

Module RNG.
(** The state [s] of the generator. *)
Definition t := Z.

Definition init : t := 2738958700.

Definition rng_seed (seed : Z) : t := if seed =? 0 then 2738958700 else seed.

(** [rng_u32]: the value returned and the new state. *)
Definition rng_u32 (s : t) : Z * t :=
  let x := s in
  let x := Z.lxor x (to_u32 (Z.shiftl x 13)) in
  let x := Z.lxor x (Z.shiftr x 17) in
  let x := Z.lxor x (to_u32 (Z.shiftl x 5)) in
  (x, x).

(** The state after [n] draws. *)
Fixpoint draws (n : nat) (s : t) : t :=
  match n with
  | O => s
  | S n' => draws n' (rng_u32 s).2
  end.
End RNG.

(** ** Canvas and primitives

    [pix] points at a buffer of pixels: the model keeps the buffer, with
    [pix] at its start; a read or write at an offset outside the buffer
    has no result. *)

Record RectI := mkRect { rx0 : Z; ry0 : Z; rx1 : Z; ry1 : Z }.

(** The value lies in the range of [int]. *)
Definition in_int (z : Z) : bool := (-2147483648 <=? z) && (z <? 2147483648).

Module Canvas.
Record t := mk { pix : list Z; w : Z; h : Z; stride : Z; clip : RectI }.

(** [set(p, W, H, S)]. *)
Definition set (p : list Z) (W H S : Z) : t :=
  mk p W H S (mkRect 0 0 (to_i32 (W - 1)) (to_i32 (H - 1))).

Definition clip_reset (c : t) : t :=
  mk (pix c) (w c) (h c) (stride c)
     (mkRect 0 0 (to_i32 (w c - 1)) (to_i32 (h c - 1))).

(** [clip_set].  The corners [x+W-1], [y+H-1] and the bounds [w-1], [h-1]
    are [int] sums; where one of them leaves the range of [int] the source
    has no defined behaviour, and [clip_set] has no result. *)
Definition clip_set (c : t) (x y W H : Z) : option t :=
  if in_int (x + W) && in_int (x + W - 1) && in_int (y + H) && in_int (y + H - 1)
     && in_int (w c - 1) && in_int (h c - 1)
  then
    let r := mkRect x y (x + W - 1) (y + H - 1) in
    let r := mkRect (Z.max (rx0 r) 0) (Z.max (ry0 r) 0) (rx1 r) (ry1 r) in
    let r := mkRect (rx0 r) (ry0 r) (Z.min (rx1 r) (w c - 1))
                    (Z.min (ry1 r) (h c - 1)) in
    Some (mk (pix c) (w c) (h c) (stride c) r)
  else None.

(** [row[xx] = v] with [row = pix + row_off]. *)
Definition write (buf : list Z) (row_off xx v : Z) : option (list Z) :=
  let i := row_off + xx in
  if (0 <=? i) && (i <? vlen buf) then Some (vset buf i v) else None.

(** [row[xx] = blend_over(row[xx], c)]. *)
Definition blend (buf : list Z) (row_off xx c : Z) : option (list Z) :=
  old ← vget buf (row_off + xx);
  write buf row_off xx (Color.blend_over old c).

(** The inner loops of [rect_fill] along one row. *)
Definition fill_row (a c row_off : Z) (xs : list Z) (buf : list Z)
  : option (list Z) :=
  if a =? 255 then foldlM_opt (fun buf xx => write buf row_off xx c) xs buf
  else foldlM_opt (fun buf xx => blend buf row_off xx c) xs buf.

Definition rect_fill (cv : t) (x y W H c : Z) : option t :=
  if (W =? 0) || (H =? 0) then Some cv
  else
    let x0 := x in
    let y0 := y in
    let x1 := to_i32 (to_i32 (x + W) - 1) in
    let y1 := to_i32 (to_i32 (y + H) - 1) in
    let '(x0, x1) := if x1 <? x0 then (x1, x0) else (x0, x1) in
    let '(y0, y1) := if y1 <? y0 then (y1, y0) else (y0, y1) in
    let x0 := Z.max x0 (rx0 (clip cv)) in
    let y0 := Z.max y0 (ry0 (clip cv)) in
    let x1 := Z.min x1 (rx1 (clip cv)) in
    let y1 := Z.min y1 (ry1 (clip cv)) in
    if (x1 <? x0) || (y1 <? y0) then Some cv
    else
      let a := Color.A c in
      buf ← foldlM_opt
               (fun buf yy =>
                  fill_row a c (to_i32 (yy * stride cv)) (seqZ x0 (x1 - x0 + 1)) buf)
               (seqZ y0 (y1 - y0 + 1)) (pix cv);
      Some (mk buf (w cv) (h cv) (stride cv) (clip cv)).

Definition rect_outline (cv : t) (x y W H th c : Z) : option t :=
  if th <=? 0 then Some cv
  else
    cv ← rect_fill cv x y W th c;
    cv ← rect_fill cv x (to_i32 (to_i32 (y + H) - th)) W th c;
    cv ← rect_fill cv x y th H c;
    rect_fill cv (to_i32 (to_i32 (x + W) - th)) y th H c.

(** The pixel at column [x] of row [y]. *)
Definition at_xy (cv : t) (x y : Z) : option Z := vget (pix cv) (y * stride cv + x).

(** The rows of the canvas lie inside the buffer, side by side, and the
    offset of every row fits in an [int]. *)
Definition fits (cv : t) : Prop :=
  0 <= w cv <= stride cv /\ 0 <= h cv /\
  h cv * stride cv <= vlen (pix cv) /\ h cv * stride cv < 2147483648.

(** The clip rectangle lies inside the canvas (it may be empty). *)
Definition clip_ok (cv : t) : Prop :=
  0 <= rx0 (clip cv) /\ rx1 (clip cv) <= w cv - 1 /\
  0 <= ry0 (clip cv) /\ ry1 (clip cv) <= h cv - 1.

(** Position [(x, y)] is inside the clip rectangle. *)
Definition in_clip (cv : t) (x y : Z) : Prop :=
  rx0 (clip cv) <= x <= rx1 (clip cv) /\ ry0 (clip cv) <= y <= ry1 (clip cv).

End Canvas.

(** The cell at offset [i] belongs to one of the rows [ys], at a column of
    [xs]. *)
Definition in_rows (st : Z) (xs ys : list Z) (i : Z) : Prop :=
  Exists (fun yy => i - yy * st ∈ xs) ys.

(** Canvas [cv'] has the geometry and buffer size of [cv], and every buffer
    cell whose content differs is a pixel inside the clip rectangle. *)
Definition changed_in_clip (cv cv' : Canvas.t) : Prop :=
  (Canvas.w cv' = Canvas.w cv /\ Canvas.h cv' = Canvas.h cv /\
   Canvas.stride cv' = Canvas.stride cv /\ Canvas.clip cv' = Canvas.clip cv) /\
  vlen (Canvas.pix cv') = vlen (Canvas.pix cv) /\
  forall i, vget (Canvas.pix cv') i <> vget (Canvas.pix cv) i ->
            exists px py, Canvas.in_clip cv px py /\ i = py * Canvas.stride cv + px.

(** ** Gathering the lights *)

(** The light of a Transform and a Light component. *)
Definition light_of (t : CTransform.t) (l : CLight.t) : LightSource.t :=
  LightSource.mk (CTransform.pos t) (CLight.radius_tiles l) (CLight.intensity l).

(** Body of the loop of [gather_lights] at dense position [i]. *)
Definition gather_at (ecs : ECS.t) (out : list LightSource.t) (i : Z)
  : option (list LightSource.t) :=
  e ← Pool.entity_at (ECS.light ecs) i (ECS.reg ecs);
  if negb (Registry.alive (ECS.reg ecs) e) then Some out
  else
    match Pool.get (ECS.tr ecs) e, Pool.get (ECS.light ecs) e with
    | Some t, Some l => Some (out ++ [light_of t l])
    | _, _ => Some out
    end.

(** [gather_lights]: the list written to [out], which is cleared first. *)
Definition gather_lights (ecs : ECS.t) : option (list LightSource.t) :=
  foldlM_opt (gather_at ecs) (seqZ 0 (Pool.size (ECS.light ecs))) [].

(** The demo player carrying a Light as well. *)
Definition lit_ecs : ECS.t :=
  ECS.mk demo_reg (ECS.tr player_ecs) (ECS.vel player_ecs) (ECS.col player_ecs)
         Pool.empty Pool.empty (Pool.add Pool.empty demo_player (CLight.mk 10 255)).

(** ** The player system *)

(** The two key arrays of [Input] that [sys_player] reads; a key outside
    an array reads as not held. *)
Module Input.
Record t := mk { key : list bool; key_pressed : list bool }.
Definition down (a : list bool) (k : Z) : bool := default false (vget a k).
End Input.

(** ['A'], ['D'], [VK_SHIFT] and [VK_SPACE]. *)
Definition KEY_A : Z := 65.
Definition KEY_D : Z := 68.
Definition VK_SHIFT : Z := 16.
Definition VK_SPACE : Z := 32.

(** [1.6f]: the binary32 value nearest to the decimal literal. *)
Definition F1_6 : f32 := S754_finite false 13421773 (-23).

Definition fneg : f32 -> f32 := SFopp.

Definition lerp (a b t : f32) : f32 := fadd a (fmul (fsub b a) t).

Section Player.
(** [std::exp] is left abstract. *)
Context (fexp : f32 -> f32).

(** Body of the loop of [sys_player] at dense position [i]. *)
Definition player_at (inp : Input.t) (dt : f32) (ecs : ECS.t) (i : Z)
  : option ECS.t :=
  e ← Pool.entity_at (ECS.player ecs) i (ECS.reg ecs);
  if negb (Registry.alive (ECS.reg ecs) e) then Some ecs
  else
    match Pool.get (ECS.player ecs) e, Pool.get (ECS.vel ecs) e,
          Pool.get (ECS.col ecs) e with
    | Some pl, Some v, Some c =>
        let ax := F0 in
        let ax := if Input.down (Input.key inp) KEY_A then fsub ax F1 else ax in
        let ax := if Input.down (Input.key inp) KEY_D then fadd ax F1 else ax in
        let speed := CPlayer.move_speed pl in
        let speed := if Input.down (Input.key inp) VK_SHIFT
                     then fmul speed F1_6 else speed in
        let target := fmul ax speed in
        let v := set_vel_x v (lerp (vx (CVel.v v)) target
                                (fsub F1 (fexp (fmul (f32_of_int (-18)) dt)))) in
        let '(v, c) :=
          if Input.down (Input.key_pressed inp) VK_SPACE && CCollider.on_ground c
          then (set_vel_y v (fneg (CPlayer.jump_speed pl)), set_on_ground c false)
          else (v, c) in
        Some (ECS.mk (ECS.reg ecs) (ECS.tr ecs) (store (ECS.vel ecs) e v)
                     (store (ECS.col ecs) e c) (ECS.player ecs) (ECS.spr ecs)
                     (ECS.light ecs))
    | _, _, _ => Some ecs
    end.

Definition sys_player (ecs : ECS.t) (inp : Input.t) (dt : f32) : option ECS.t :=
  foldlM_opt (player_at inp dt) (seqZ 0 (Pool.size (ECS.player ecs))) ecs.

End Player.

(** The demo player standing on the ground, with a Player component, and
    an input with ['D'] held and [VK_SPACE] pressed in this frame. *)
Definition hero_ecs : ECS.t :=
  ECS.mk demo_reg (ECS.tr player_ecs) (ECS.vel player_ecs)
         (Pool.add Pool.empty demo_player
            (CCollider.mk (V2 (f32_of_int 14) (f32_of_int 20)) true))
         (Pool.add Pool.empty demo_player
            (CPlayer.mk (f32_of_int 320) (f32_of_int 520)))
         Pool.empty Pool.empty.

Definition keys_right_jump : Input.t :=
  Input.mk (<[68%nat := true]> (replicate 256 false))
           (<[32%nat := true]> (replicate 256 false)).

(** What [sys_player] leaves alone between [ecs] and [ecs']: the registry,
    the Transform, Player, Sprite and Light pools, the rows of the Velocity
    and Collider pools, the Velocity and Collider of every entity without a
    Player component, the half extents of every collider; and it raises no
    [on_ground] flag. *)
Record player_frame (ecs ecs' : ECS.t) : Prop := mk_player_frame {
  pf_reg : ECS.reg ecs' = ECS.reg ecs;
  pf_tr : ECS.tr ecs' = ECS.tr ecs;
  pf_player : ECS.player ecs' = ECS.player ecs;
  pf_spr : ECS.spr ecs' = ECS.spr ecs;
  pf_light : ECS.light ecs' = ECS.light ecs;
  pf_vel_rows : same_rows (ECS.vel ecs) (ECS.vel ecs');
  pf_col_rows : same_rows (ECS.col ecs) (ECS.col ecs');
  pf_others : forall e, Pool.get (ECS.player ecs) e = None ->
    Pool.get (ECS.vel ecs') e = Pool.get (ECS.vel ecs) e /\
    Pool.get (ECS.col ecs') e = Pool.get (ECS.col ecs) e;
  pf_ground : forall e c', Pool.get (ECS.col ecs') e = Some c' ->
    exists c, Pool.get (ECS.col ecs) e = Some c /\
              CCollider.half c' = CCollider.half c /\
              (CCollider.on_ground c' = true -> CCollider.on_ground c = true);
}.

(* ===================================================================== *)
(** * Part II: lemmas and theorems                                        *)
(* ===================================================================== *)

(** ** Vectors *)

Lemma vget_Some_lt {A} (l : list A) i x :
  vget l i = Some x -> 0 <= i < vlen l.
Proof.
  unfold vget, vlen. destruct (Z.ltb_spec i 0); [done|].
  intros Hx%lookup_lt_Some. lia.
Qed.

Lemma vget_is_Some {A} (l : list A) i :
  0 <= i < vlen l -> is_Some (vget l i).
Proof.
  unfold vget, vlen. intros ?. destruct (Z.ltb_spec i 0); [lia|].
  apply lookup_lt_is_Some. lia.
Qed.

Lemma vget_None_ge {A} (l : list A) i :
  vlen l <= i -> vget l i = None.
Proof.
  unfold vget, vlen. intros ?. destruct (Z.ltb_spec i 0); [done|].
  apply lookup_ge_None. lia.
Qed.

Lemma vlen_vset {A} (l : list A) i x : vlen (vset l i x) = vlen l.
Proof.
  unfold vset, vlen. destruct (i <? 0); [done|]. by rewrite length_insert.
Qed.

Lemma vget_vset_eq {A} (l : list A) i x :
  0 <= i < vlen l -> vget (vset l i x) i = Some x.
Proof.
  unfold vget, vset, vlen. intros ?. destruct (Z.ltb_spec i 0); [lia|].
  apply list_lookup_insert_eq. lia.
Qed.

Lemma vget_vset_ne {A} (l : list A) i j x :
  i <> j -> vget (vset l i x) j = vget l j.
Proof.
  unfold vget, vset. intros ?.
  destruct (Z.ltb_spec j 0); [done|]. destruct (Z.ltb_spec i 0); [done|].
  apply list_lookup_insert_ne. lia.
Qed.

Lemma vget_vset {A} (l : list A) i j x :
  vget (vset l i x) j =
  if decide (i = j /\ 0 <= i < vlen l) then Some x else vget l j.
Proof.
  case_decide as H.
  - destruct H as [-> ?]. by apply vget_vset_eq.
  - destruct (decide (i = j)) as [->|?]; [|by apply vget_vset_ne].
    unfold vget, vset, vlen in *. destruct (Z.ltb_spec j 0); [done|].
    rewrite list_insert_ge; [done|lia].
Qed.

Lemma vget_app_l {A} (l k : list A) i :
  i < vlen l -> vget (l ++ k) i = vget l i.
Proof.
  unfold vget, vlen. intros ?. destruct (Z.ltb_spec i 0); [done|].
  apply lookup_app_l. lia.
Qed.

Lemma vget_app_r {A} (l : list A) x :
  vget (l ++ [x]) (vlen l) = Some x.
Proof.
  unfold vget, vlen. destruct (Z.ltb_spec (Z.of_nat (length l)) 0); [lia|].
  rewrite Nat2Z.id. by rewrite lookup_app_r, Nat.sub_diag.
Qed.

Lemma vlen_app {A} (l k : list A) : vlen (l ++ k) = vlen l + vlen k.
Proof. unfold vlen. rewrite length_app. lia. Qed.

Lemma vlen_nonneg {A} (l : list A) : 0 <= vlen l.
Proof. unfold vlen. lia. Qed.

(** ** Handles *)

Lemma to_u16_range z : is_u16 (to_u16 z).
Proof. unfold is_u16, to_u16. apply Z.mod_pos_bound. lia. Qed.

Lemma to_u16_id z : is_u16 z -> to_u16 z = z.
Proof. unfold is_u16, to_u16. intros ?. by apply Z.mod_small. Qed.

Lemma ent_idx_range e : is_u16 (ent_idx e).
Proof. apply to_u16_range. Qed.

Lemma ent_gen_range e : is_u16 (ent_gen e).
Proof. apply to_u16_range. Qed.

Lemma u16_high_bits idx n : is_u16 idx -> 16 <= n -> Z.testbit idx n = false.
Proof.
  unfold is_u16. intros Hi Hn.
  destruct (Z.eq_dec idx 0) as [->|Hne]; [apply Z.bits_0|].
  apply Z.bits_above_log2; [lia|].
  apply Z.lt_le_trans with 16; [|done].
  apply Z.log2_lt_pow2; lia.
Qed.

Lemma pack_land idx g : is_u16 idx -> Z.land (Z.shiftl g 16) idx = 0.
Proof.
  intros Hi. apply Z.bits_inj'. intros n Hn.
  rewrite Z.land_spec, Z.bits_0.
  destruct (Z.ltb_spec n 16).
  - by rewrite Z.shiftl_spec_low.
  - rewrite (u16_high_bits idx n) by done. apply andb_false_r.
Qed.

Lemma pack_lor idx g :
  is_u16 idx -> Z.lor (Z.shiftl g 16) idx = g * 65536 + idx.
Proof.
  intros Hi.
  rewrite <- Z.lxor_lor by (by apply pack_land).
  rewrite <- Z.add_nocarry_lxor by (by apply pack_land).
  by rewrite Z.shiftl_mul_pow2.
Qed.

Lemma make_ent_val idx g :
  is_u16 idx -> is_u16 g -> make_ent idx g = g * 65536 + idx.
Proof.
  intros Hi Hg. unfold make_ent, to_u32.
  pose proof Hi as Hi'. pose proof Hg as Hg'. unfold is_u16 in Hi', Hg'.
  rewrite (Z.mod_small g), (Z.mod_small idx) by lia.
  rewrite (Z.mod_small (Z.shiftl g 16)) by (rewrite Z.shiftl_mul_pow2; lia).
  rewrite pack_lor by done. apply Z.mod_small. lia.
Qed.

Lemma ent_idx_make_ent idx g :
  is_u16 idx -> is_u16 g -> ent_idx (make_ent idx g) = idx.
Proof.
  intros Hi Hg. rewrite make_ent_val by done. unfold ent_idx, to_u16.
  change 65535 with (Z.ones 16). rewrite Z.land_ones by lia.
  unfold is_u16 in *. change (2 ^ 16) with 65536.
  rewrite Z.mod_mod by lia.
  rewrite Z.add_comm, Z.mod_add by lia. apply Z.mod_small. lia.
Qed.

Lemma ent_gen_make_ent idx g :
  is_u16 idx -> is_u16 g -> ent_gen (make_ent idx g) = g.
Proof.
  intros Hi Hg. rewrite make_ent_val by done. unfold ent_gen, to_u16.
  rewrite Z.shiftr_div_pow2 by lia. change (2 ^ 16) with 65536.
  unfold is_u16 in *.
  rewrite Z.add_comm, Z.div_add by lia.
  rewrite Z.div_small by lia. simpl. apply Z.mod_small. lia.
Qed.

(** ** Registry *)

Lemma vgetz_vget l i x : vget l i = Some x -> vgetz l i = x.
Proof. unfold vgetz. by intros ->. Qed.

Lemma vgetz_app_l (l k : list Z) i : i < vlen l -> vgetz (l ++ k) i = vgetz l i.
Proof. intros ?. unfold vgetz. by rewrite vget_app_l. Qed.

Lemma vgetz_vset_eq (l : list Z) i x : 0 <= i < vlen l -> vgetz (vset l i x) i = x.
Proof. intros ?. unfold vgetz. by rewrite vget_vset_eq. Qed.

Lemma vgetz_vset_ne (l : list Z) i j x : i <> j -> vgetz (vset l i x) j = vgetz l j.
Proof. intros ?. unfold vgetz. by rewrite vget_vset_ne. Qed.

(** [create] leaves the generation of every existing slot alone. *)
Lemma create_gen r idx :
  idx < vlen (Registry.gen r) ->
  idx < vlen (Registry.gen (snd (Registry.create r))) /\
  vgetz (Registry.gen (snd (Registry.create r))) idx = vgetz (Registry.gen r) idx.
Proof.
  intros Hlt. unfold Registry.create.
  destruct (last (Registry.free_list r)); simpl; [done|].
  rewrite vlen_app, vgetz_app_l by done.
  pose proof (vlen_nonneg [1]). split; [lia|done].
Qed.

Lemma destroy_len r e :
  vlen (Registry.gen (Registry.destroy r e)) = vlen (Registry.gen r).
Proof.
  unfold Registry.destroy.
  repeat case_match; simpl; try done. apply vlen_vset.
Qed.

(** [destroy] bumps the generation of the slot it names when the handle is
    alive, and leaves every other slot alone. *)
Lemma destroy_gen r e idx :
  0 <= idx < vlen (Registry.gen r) ->
  vgetz (Registry.gen (Registry.destroy r e)) idx =
  if (ent_idx e =? idx) && Registry.alive r e
  then to_u16 (vgetz (Registry.gen r) idx + 1)
  else vgetz (Registry.gen r) idx.
Proof.
  intros Hidx. unfold Registry.destroy, Registry.alive.
  destruct (Z.eqb_spec (ent_idx e) idx) as [->|Hne]; simpl.
  - destruct (Z.leb_spec (vlen (Registry.gen r)) idx); [lia|].
    destruct (vgetz (Registry.gen r) idx =? ent_gen e); simpl; [|done].
    by rewrite vgetz_vset_eq.
  - repeat case_match; simpl; try done. by rewrite vgetz_vset_ne.
Qed.

Lemma reg_run_cons o ops r : reg_run (o :: ops) r = reg_run ops (reg_step r o).
Proof. done. Qed.

Lemma to_u16_succ z : to_u16 (to_u16 z + 1) = to_u16 (z + 1).
Proof. unfold to_u16. by rewrite Zplus_mod_idemp_l. Qed.

(** Along any run, the generation of slot [idx] moves from [g0 + k] by at
    most one per [destroy] naming the slot. *)
Lemma reg_run_gen idx g0 ops : forall r k,
  0 <= idx < vlen (Registry.gen r) ->
  vgetz (Registry.gen r) idx = to_u16 (g0 + k) ->
  exists k', k <= k' <= k + Z.of_nat (slot_destroys idx ops) /\
    idx < vlen (Registry.gen (reg_run ops r)) /\
    vgetz (Registry.gen (reg_run ops r)) idx = to_u16 (g0 + k').
Proof.
  induction ops as [|o ops IH]; intros r k Hidx Hg.
  - exists k. simpl. unfold slot_destroys. simpl. split; [lia|]. split; [lia|done].
  - rewrite reg_run_cons. destruct o as [|e].
    + destruct (create_gen r idx) as [Hl Hv]; [lia|].
      destruct (IH (reg_step r OpCreate) k) as (k' & Hk & Hl' & Hv').
      { simpl. lia. } { simpl. by rewrite Hv. }
      exists k'. unfold slot_destroys in *. simpl in *. split; [lia|done].
    + pose proof (destroy_gen r e idx Hidx) as Hd.
      pose proof (destroy_len r e) as Hlen.
      unfold slot_destroys in *. simpl.
      destruct (Z.eqb_spec (ent_idx e) idx) as [He|He]; simpl in Hd.
      * destruct (Registry.alive r e).
        -- destruct (IH (Registry.destroy r e) (k + 1)) as (k' & Hk & Hl' & Hv').
           { lia. } { rewrite Hd, Hg, to_u16_succ. f_equal. lia. }
           exists k'. simpl. split; [lia|done].
        -- destruct (IH (Registry.destroy r e) k) as (k' & Hk & Hl' & Hv').
           { lia. } { by rewrite Hd. }
           exists k'. simpl. split; [lia|done].
      * destruct (IH (Registry.destroy r e) k) as (k' & Hk & Hl' & Hv').
        { lia. } { by rewrite Hd. }
        exists k'. split; [lia|done].
Qed.

(** One create/destroy round on a registry whose only slot is free. *)
Lemma churn_round g :
  Registry.destroy (snd (Registry.create (Registry.mk [to_u16 g] [0])))
                   (make_ent 0 (to_u16 g))
  = Registry.mk [to_u16 (g + 1)] [0].
Proof.
  pose proof (to_u16_range g) as Hg.
  assert (is_u16 0) as H0 by (unfold is_u16; lia).
  unfold Registry.create, Registry.destroy. simpl.
  rewrite ent_idx_make_ent, ent_gen_make_ent by done.
  change (vlen [to_u16 g] <=? 0) with false. cbn iota.
  change (vgetz [to_u16 g] 0) with (to_u16 g).
  rewrite Z.eqb_refl. simpl. by rewrite to_u16_succ.
Qed.

Lemma churn_run n : forall g,
  reg_run (churn_ops n g) (Registry.mk [to_u16 g] [0])
  = Registry.mk [to_u16 (g + Z.of_nat n)] [0].
Proof.
  induction n as [|n IH]; intros g.
  - simpl. by rewrite Z.add_0_r.
  - cbn [churn_ops]. rewrite !reg_run_cons. cbn [reg_step].
    rewrite churn_round, IH. do 3 f_equal. lia.
Qed.

(** C4 (counterexample): the generation is a [u16] and wraps.
    One entity is created and destroyed; 65535 further create/destroy
    rounds on the reused slot bring the generation back to the value the
    first handle carries, and that handle is alive again. *)
Lemma C4_dead_handle_revives :
  let r1 := snd (Registry.create Registry.empty) in
  let h := fst (Registry.create Registry.empty) in
  Registry.alive r1 h = true /\
  Registry.alive (Registry.destroy r1 h) h = false /\
  Registry.alive (reg_run (churn_ops (Z.to_nat 65535) 2) (Registry.destroy r1 h)) h
  = true.
Proof.
  cbv zeta. split; [reflexivity|]. split; [reflexivity|].
  change (Registry.destroy (snd (Registry.create Registry.empty))
            (fst (Registry.create Registry.empty)))
    with (Registry.mk [to_u16 2] [0]).
  rewrite churn_run, Z2Nat.id by lia. reflexivity.
Qed.

(** C4 (amended): after a successful [destroy h], [alive h] is false and
    stays false along every further sequence of create/destroy calls in
    which fewer than 65535 destroys name the slot of [h]. *)
Theorem C4_handle_stays_dead (r : Registry.t) (h : Entity) (ops : list reg_op) :
  Registry.alive r h = true ->
  Z.of_nat (slot_destroys (ent_idx h) ops) < 65535 ->
  Registry.alive (reg_run ops (Registry.destroy r h)) h = false.
Proof.
  intros Hal Hn.
  pose proof (ent_idx_range h) as Hi. pose proof (ent_gen_range h) as Hgr.
  unfold is_u16 in Hi, Hgr.
  assert (ent_idx h < vlen (Registry.gen r) /\
          vgetz (Registry.gen r) (ent_idx h) = ent_gen h) as [Hlt Hg].
  { unfold Registry.alive in Hal.
    destruct (Z.leb_spec (vlen (Registry.gen r)) (ent_idx h)); [done|].
    split; [done|]. by apply Z.eqb_eq. }
  destruct (reg_run_gen (ent_idx h) (ent_gen h) ops (Registry.destroy r h) 1)
    as (k' & Hk & Hl' & Hv').
  { rewrite destroy_len. lia. }
  { rewrite destroy_gen by lia. rewrite Z.eqb_refl, Hal. simpl. by rewrite Hg. }
  unfold Registry.alive.
  destruct (Z.leb_spec (vlen (Registry.gen (reg_run ops (Registry.destroy r h))))
                       (ent_idx h)); [done|].
  rewrite Hv'. apply Z.eqb_neq. unfold to_u16. intros Heq.
  assert (ent_gen h + k' = ent_gen h + 65536 * 0 \/
          ent_gen h + k' <> ent_gen h + 65536 * 0) as [?|Hne] by lia; [lia|].
  destruct (Z.ltb_spec (ent_gen h + k') 65536).
  - rewrite Z.mod_small in Heq by lia. lia.
  - replace (ent_gen h + k') with ((ent_gen h + k' - 65536) + 1 * 65536) in Heq by lia.
    rewrite Z.mod_add in Heq by lia. rewrite Z.mod_small in Heq by lia. lia.
Qed.

(** C4 at work: one further create/destroy round after the destroy. *)
Lemma C4_handle_stays_dead_witness :
  Registry.alive
    (reg_run [OpCreate; OpDestroy (make_ent 0 2); OpCreate]
       (Registry.destroy (snd (Registry.create Registry.empty)) (make_ent 0 1)))
    (make_ent 0 1) = false.
Proof.
  apply (C4_handle_stays_dead (snd (Registry.create Registry.empty)) (make_ent 0 1)
           [OpCreate; OpDestroy (make_ent 0 2); OpCreate]).
  - reflexivity.
  - reflexivity.
Defined.

(** [destroy] keeps every generation a [u16]. *)
Lemma destroy_gen_u16 r e :
  Forall is_u16 (Registry.gen r) -> Forall is_u16 (Registry.gen (Registry.destroy r e)).
Proof.
  intros Hall. unfold Registry.destroy. repeat case_match; simpl; try done.
  unfold vset. case_match; [done|].
  apply Forall_insert; [done|]. apply to_u16_range.
Qed.

(** A successful [destroy] kills the handle it is given. *)
Lemma destroy_kills r e :
  Registry.alive r e = true -> Registry.alive (Registry.destroy r e) e = false.
Proof.
  intros Hal. pose proof (ent_idx_range e) as Hi. pose proof (ent_gen_range e) as Hg.
  unfold is_u16 in *. pose proof Hal as Hal'. unfold Registry.alive in Hal'.
  destruct (Z.leb_spec (vlen (Registry.gen r)) (ent_idx e)); [done|].
  apply Z.eqb_eq in Hal'.
  unfold Registry.alive. rewrite destroy_len.
  destruct (Z.leb_spec (vlen (Registry.gen r)) (ent_idx e)); [done|].
  rewrite destroy_gen by lia. rewrite Z.eqb_refl, Hal. simpl.
  rewrite Hal'. apply Z.eqb_neq. unfold to_u16.
  destruct (Z.eq_dec (ent_gen e) 65535) as [->|]; [done|].
  rewrite Z.mod_small by lia. lia.
Qed.

(** ** Pool: what [has] and [get] look at *)

Section PoolFacts.
Context {T : Type}.
Implicit Types (p : Pool.t T) (e : Entity).

Lemma has_idx_only p e e' : ent_idx e = ent_idx e' -> Pool.has p e = Pool.has p e'.
Proof. unfold Pool.has. by intros ->. Qed.

Lemma slot_idx_only p e e' : ent_idx e = ent_idx e' -> Pool.slot p e = Pool.slot p e'.
Proof. unfold Pool.slot. by intros ->. Qed.

Lemma get_idx_only p e e' : ent_idx e = ent_idx e' -> Pool.get p e = Pool.get p e'.
Proof. unfold Pool.get. by intros ->%(slot_idx_only p). Qed.

(** [slot] and [has] decide the same thing. *)
Lemma slot_has p e : is_Some (Pool.slot p e) <-> Pool.has p e = true.
Proof.
  unfold Pool.slot, Pool.has.
  destruct (vlen (Pool.sparse p) <=? ent_idx e); [by split; [intros []|]|].
  set (di := vgetz (Pool.sparse p) (ent_idx e)).
  destruct (Z.ltb_spec di 0), (Z.leb_spec 0 di); try lia; simpl.
  { split; [by intros []|done]. }
  destruct (Z.leb_spec (to_i32 (vlen (Pool.dense_idx p))) di),
           (Z.ltb_spec di (to_i32 (vlen (Pool.dense_idx p)))); try lia; simpl.
  { split; [by intros []|done]. }
  destruct (bool_decide _); simpl; split; try done; by intros [].
Qed.

(** The row [slot] points at is owned by the slot index of the handle. *)
Lemma slot_owner p e di :
  Pool.slot p e = Some di -> vget (Pool.dense_idx p) di = Some (ent_idx e).
Proof.
  unfold Pool.slot. repeat case_match; try done.
  intros [= <-].
  match goal with H : negb (bool_decide _) = false |- _ =>
    apply negb_false_iff, bool_decide_eq_true_1 in H; exact H end.
Qed.

Lemma has_remove p e : Pool.has (Pool.remove p e) e = false.
Proof.
  unfold Pool.remove.
  destruct (Z.leb_spec (vlen (Pool.sparse p)) (ent_idx e)) as [Hle|Hlt].
  { unfold Pool.has. by destruct (Z.leb_spec (vlen (Pool.sparse p)) (ent_idx e)); [|lia]. }
  destruct (Z.ltb_spec (vgetz (Pool.sparse p) (ent_idx e)) 0) as [Hneg|Hpos].
  { unfold Pool.has. destruct (Z.leb_spec (vlen (Pool.sparse p)) (ent_idx e)); [done|].
    by destruct (Z.leb_spec 0 (vgetz (Pool.sparse p) (ent_idx e))); [lia|]. }
  pose proof (ent_idx_range e) as Hi. unfold is_u16 in Hi.
  unfold Pool.has. cbn [Pool.sparse].
  match goal with |- context [vset ?s (ent_idx e) (-1)] => set (s1 := s) end.
  assert (vlen s1 = vlen (Pool.sparse p)) as Hlen.
  { subst s1. case_match; cbn [Pool.sparse]; [by rewrite vlen_vset|done]. }
  rewrite vlen_vset, Hlen.
  destruct (Z.leb_spec (vlen (Pool.sparse p)) (ent_idx e)); [done|].
  rewrite vgetz_vset_eq by lia. done.
Qed.

Lemma get_remove p e : Pool.get (Pool.remove p e) e = None.
Proof.
  unfold Pool.get. destruct (Pool.slot (Pool.remove p e) e) eqn:Hs; [|done].
  assert (Pool.has (Pool.remove p e) e = true) as Hh by (apply slot_has; eauto).
  by rewrite has_remove in Hh.
Qed.

End PoolFacts.

(** The next [create] after a successful [destroy] reuses the slot. *)
Lemma create_after_destroy r e :
  Registry.alive r e = true ->
  ent_idx (fst (Registry.create (Registry.destroy r e))) = ent_idx e /\
  Registry.gen (snd (Registry.create (Registry.destroy r e)))
  = Registry.gen (Registry.destroy r e).
Proof.
  intros Hal. pose proof (ent_idx_range e) as Hi.
  pose proof Hal as Hal'. unfold Registry.alive in Hal'.
  destruct (Z.leb_spec (vlen (Registry.gen r)) (ent_idx e)) as [|Hlt]; [done|].
  unfold Registry.create.
  assert (Registry.free_list (Registry.destroy r e) = Registry.free_list r ++ [ent_idx e])
    as Hfl.
  { unfold Registry.destroy.
    destruct (Z.leb_spec (vlen (Registry.gen r)) (ent_idx e)); [lia|].
    by rewrite Hal'. }
  rewrite Hfl, last_snoc. cbn [fst snd Registry.gen]. split; [|done].
  apply ent_idx_make_ent; [done|].
  unfold is_u16 in Hi. rewrite destroy_gen by lia.
  rewrite Z.eqb_refl, Hal. simpl. apply to_u16_range.
Qed.

(** C1 (counterexample): entity [E] gets a component, is
    destroyed, and [E'] is created in the same slot: the store still answers
    [E]'s dead handle with the leftover value, and once [E'] has added its
    own component, with [E']'s value. *)
Lemma C1_stale_handle_reads_row :
  let E := fst (Registry.create Registry.empty) in
  let r1 := snd (Registry.create Registry.empty) in
  let p := Pool.add Pool.empty E 7 in
  let r2 := Registry.destroy r1 E in
  let E' := fst (Registry.create r2) in
  let r3 := snd (Registry.create r2) in
  (ent_idx E' = ent_idx E /\ Registry.alive r3 E = false /\ Registry.alive r3 E' = true)
  /\ (Pool.has p E = true /\ Pool.get p E = Some 7)
  /\ Pool.get (Pool.add p E' 9) E = Some 9.
Proof. vm_compute. repeat split. Qed.

(** C1 (amended): [has] and [get] look at the slot index of a handle only.
    After [E] is destroyed and [E'] created in the reused slot, [E]'s dead
    handle is answered exactly as [E']'s live one is; the answer is "absent"
    once the component has been removed from the store. *)
Theorem C1_stale_handle_by_index {T} (p : Pool.t T) (r : Registry.t) (E : Entity) :
  Registry.alive r E = true ->
  let r1 := Registry.destroy r E in
  let E' := fst (Registry.create r1) in
  let r2 := snd (Registry.create r1) in
  (ent_idx E' = ent_idx E /\ Registry.alive r2 E = false) /\
  (Pool.has p E = Pool.has p E' /\ Pool.get p E = Pool.get p E') /\
  (Pool.has (Pool.remove p E) E = false /\ Pool.get (Pool.remove p E) E = None).
Proof.
  intros Hal r1 E' r2.
  destruct (create_after_destroy r E Hal) as [Hidx Hgen].
  split; [split; [done|]|split; [split|split]].
  - pose proof (destroy_kills r E Hal) as Hk.
    unfold Registry.alive in *. subst r2 r1. by rewrite Hgen.
  - by apply has_idx_only.
  - by apply get_idx_only.
  - apply has_remove.
  - apply get_remove.
Qed.

(** C1 at work on the first entity of an empty registry. *)
Lemma C1_stale_handle_by_index_witness :
  Pool.get (Pool.add Pool.empty (make_ent 0 1) 7) (make_ent 0 1)
  = Pool.get (Pool.add Pool.empty (make_ent 0 1) 7)
      (fst (Registry.create
              (Registry.destroy (snd (Registry.create Registry.empty)) (make_ent 0 1)))).
Proof.
  apply (C1_stale_handle_by_index (Pool.add Pool.empty (make_ent 0 1) 7)
           (snd (Registry.create Registry.empty)) (make_ent 0 1)).
  reflexivity.
Defined.

(** The handle [entity_at] builds for a row passes [alive]. *)
Lemma entity_at_alive {T} (p : Pool.t T) (r : Registry.t) i idx :
  vget (Pool.dense_idx p) i = Some idx ->
  is_u16 idx -> idx < vlen (Registry.gen r) -> Forall is_u16 (Registry.gen r) ->
  exists e, Pool.entity_at p i r = Some e /\ ent_idx e = idx /\
            Registry.alive r e = true.
Proof.
  intros Hrow Hidx Hlt Hall. unfold is_u16 in Hidx.
  destruct (vget_is_Some (Registry.gen r) idx) as [g Hg]; [lia|].
  assert (is_u16 g) as Hgu.
  { unfold vget in Hg. case_match; [done|].
    by eapply (Forall_lookup_1 _ _ _ _ Hall). }
  exists (make_ent idx g). unfold Pool.entity_at. rewrite Hrow. simpl.
  rewrite Hg. simpl. split; [done|].
  split; [by apply ent_idx_make_ent|].
  unfold Registry.alive. rewrite ent_idx_make_ent, ent_gen_make_ent by done.
  destruct (Z.leb_spec (vlen (Registry.gen r)) idx); [lia|].
  rewrite (vgetz_vget _ _ _ Hg). apply Z.eqb_refl.
Qed.

(** C10: the handle [entity_at] builds for a dense row always passes
    [alive], because it is built from the registry's current generation of
    the owner slot; this holds after the owner was destroyed, too, while the
    row is still in the pool. *)
Theorem C10_entity_at_always_alive {T} (p : Pool.t T) (r : Registry.t) (i idx : Z) :
  vget (Pool.dense_idx p) i = Some idx ->
  is_u16 idx ->
  idx < vlen (Registry.gen r) ->
  Forall is_u16 (Registry.gen r) ->
  (exists e, Pool.entity_at p i r = Some e /\ ent_idx e = idx /\
             Registry.alive r e = true) /\
  (forall h, ent_idx h = idx -> Registry.alive r h = true ->
     Registry.alive (Registry.destroy r h) h = false /\
     exists e', Pool.entity_at p i (Registry.destroy r h) = Some e' /\
                ent_idx e' = idx /\
                Registry.alive (Registry.destroy r h) e' = true).
Proof.
  intros Hrow Hidx Hlt Hall. split; [by apply entity_at_alive|].
  intros h Hh Hal. split; [by apply destroy_kills|].
  apply entity_at_alive; [done|done|by rewrite destroy_len|by apply destroy_gen_u16].
Qed.

(** C10 at work on a pool with one row. *)
Lemma C10_entity_at_always_alive_witness :
  exists e, Pool.entity_at (Pool.add Pool.empty (make_ent 0 1) 7) 0
              (snd (Registry.create Registry.empty)) = Some e /\
            ent_idx e = 0 /\
            Registry.alive (snd (Registry.create Registry.empty)) e = true.
Proof.
  apply (C10_entity_at_always_alive (Pool.add Pool.empty (make_ent 0 1) 7)
           (snd (Registry.create Registry.empty)) 0 0).
  - reflexivity.
  - unfold is_u16. lia.
  - reflexivity.
  - repeat constructor; unfold is_u16; lia.
Defined.

(** ** Pool: sparse/dense consistency *)

Lemma vlen_removelast {A} (l : list A) :
  vlen (removelast l) = Z.max 0 (vlen l - 1).
Proof.
  unfold vlen. rewrite removelast_firstn_len, length_take. lia.
Qed.

Lemma vget_removelast {A} (l : list A) i :
  vget (removelast l) i = if i <? vlen l - 1 then vget l i else None.
Proof.
  unfold vget, vlen. rewrite removelast_firstn_len.
  destruct (Z.ltb_spec i 0); [by case_match|].
  destruct (Z.ltb_spec i (Z.of_nat (length l) - 1)).
  - apply lookup_take_lt. lia.
  - apply lookup_take_ge. lia.
Qed.

Lemma vget_replicate_pad (l : list Z) n i d :
  vget (l ++ replicate n (-1)) i = Some d -> d = -1 \/ vget l i = Some d.
Proof.
  unfold vget. destruct (Z.ltb_spec i 0); [done|].
  rewrite lookup_app. destruct (l !! Z.to_nat i); [by right|].
  intros [-> _]%lookup_replicate_1. by left.
Qed.

Lemma to_i32_id z : is_i32 z -> to_i32 z = z.
Proof.
  unfold is_i32, to_i32. intros ?. rewrite Z.mod_small by lia. lia.
Qed.

Lemma to_usize_id z : 0 <= z < 18446744073709551616 -> to_usize z = z.
Proof. unfold to_usize. intros ?. by apply Z.mod_small. Qed.

Section PoolInvariant.
Context {T : Type}.
Implicit Types (p : Pool.t T) (e : Entity).

Lemma wf_empty : pool_wf (@Pool.empty T).
Proof.
  split; simpl; try done.
  - intros d idx Hd. apply vget_Some_lt in Hd. unfold vlen in Hd. simpl in Hd. lia.
  - intros i d Hd. apply vget_Some_lt in Hd. unfold vlen in Hd. simpl in Hd. lia.
Qed.

Lemma wf_dense_NoDup p : pool_wf p -> NoDup (Pool.dense_idx p).
Proof.
  intros Hwf. apply NoDup_alt. intros i j x Hi Hj.
  assert (vget (Pool.dense_idx p) (Z.of_nat i) = Some x) as Hi'.
  { unfold vget. destruct (Z.ltb_spec (Z.of_nat i) 0); [lia|]. by rewrite Nat2Z.id. }
  assert (vget (Pool.dense_idx p) (Z.of_nat j) = Some x) as Hj'.
  { unfold vget. destruct (Z.ltb_spec (Z.of_nat j) 0); [lia|]. by rewrite Nat2Z.id. }
  apply (wf_dense _ Hwf) in Hi', Hj'. rewrite Hi' in Hj'. injection Hj'. lia.
Qed.

Lemma wf_owner_range p d idx :
  pool_wf p -> vget (Pool.dense_idx p) d = Some idx -> 0 <= idx < vlen (Pool.sparse p).
Proof. intros Hwf Hd. apply (wf_dense _ Hwf) in Hd. by apply vget_Some_lt in Hd. Qed.

Lemma wf_dense_len p : pool_wf p -> vlen (Pool.dense_idx p) <= 65536.
Proof.
  intros Hwf.
  assert (Pool.dense_idx p ⊆+ seqZ 0 65536) as Hsub.
  { apply NoDup_submseteq; [by apply wf_dense_NoDup|].
    intros x [i Hi]%list_elem_of_lookup. apply elem_of_seqZ.
    assert (vget (Pool.dense_idx p) (Z.of_nat i) = Some x) as Hi'.
    { unfold vget. destruct (Z.ltb_spec (Z.of_nat i) 0); [lia|]. by rewrite Nat2Z.id. }
    pose proof (wf_owner_range _ _ _ Hwf Hi'). pose proof (wf_sparse_len _ Hwf). lia. }
  apply submseteq_length in Hsub. rewrite length_seqZ in Hsub. unfold vlen. lia.
Qed.

Lemma wf_ensure_sparse p n :
  n <= 65536 -> pool_wf p -> pool_wf (Pool.ensure_sparse n p).
Proof.
  intros Hn Hwf. unfold Pool.ensure_sparse.
  destruct (Z.ltb_spec (vlen (Pool.sparse p)) n); [|done].
  destruct Hwf as [Hv Hl Hd Hs]. split; simpl; try done.
  - rewrite vlen_app. unfold vlen at 2. rewrite length_replicate. lia.
  - intros d idx Hrow. specialize (Hd d idx Hrow).
    rewrite vget_app_l; [done|]. apply vget_Some_lt in Hd. lia.
  - intros i d Hi. apply vget_replicate_pad in Hi as [->|Hi]; [by left|by apply Hs].
Qed.

Lemma ensure_sparse_len p n :
  n <= vlen (Pool.sparse (Pool.ensure_sparse n p)).
Proof.
  unfold Pool.ensure_sparse.
  destruct (Z.ltb_spec (vlen (Pool.sparse p)) n); simpl; [|lia].
  rewrite vlen_app. unfold vlen at 2. rewrite length_replicate. lia.
Qed.

Lemma wf_put p di v : pool_wf p -> pool_wf (Pool.put p di v).
Proof.
  intros [Hv Hl Hd Hs]. split; simpl; try done. by rewrite vlen_vset.
Qed.

Lemma wf_add p e v : pool_wf p -> pool_wf (Pool.add p e v).
Proof.
  intros Hwf0. unfold Pool.add.
  pose proof (ent_idx_range e) as Hi. unfold is_u16 in Hi.
  pose proof (ensure_sparse_len p (ent_idx e + 1)) as Hlen.
  assert (pool_wf (Pool.ensure_sparse (ent_idx e + 1) p)) as Hwf
    by (apply wf_ensure_sparse; [lia|done]).
  set (q := Pool.ensure_sparse (ent_idx e + 1) p) in *. clearbody q. clear Hwf0 p.
  set (idx := ent_idx e) in *.
  destruct (vget_is_Some (Pool.sparse q) idx) as [di Hdi]; [lia|].
  rewrite (vgetz_vget _ _ _ Hdi).
  pose proof (wf_dense_len _ Hwf) as Hn. pose proof (vlen_nonneg (Pool.dense_idx q)) as Hn0.
  destruct (_ && _) eqn:Hc; [by apply wf_put|].
  assert (di = -1) as ->.
  { destruct (wf_sparse _ Hwf _ _ Hdi) as [?|Hrow]; [done|]. exfalso.
    pose proof (vget_Some_lt _ _ _ Hrow).
    rewrite to_usize_id in Hc by lia.
    rewrite bool_decide_eq_true_2 in Hc by done.
    destruct (Z.leb_spec 0 di), (Z.ltb_spec di (vlen (Pool.dense_idx q))); try lia; done. }
  rewrite to_i32_id by (unfold is_i32; lia).
  destruct Hwf as [Hv Hl Hd Hs]. split; simpl.
  - rewrite !vlen_app. by rewrite Hv.
  - by rewrite vlen_vset.
  - intros d i Hrow.
    destruct (Z.ltb_spec d (vlen (Pool.dense_idx q))).
    + rewrite vget_app_l in Hrow by done. pose proof (Hd _ _ Hrow) as Hsp.
      rewrite vget_vset_ne; [done|]. intros <-. rewrite Hdi in Hsp.
      apply vget_Some_lt in Hrow. injection Hsp. lia.
    + pose proof (vget_Some_lt _ _ _ Hrow) as Hr. rewrite vlen_app in Hr.
      change (vlen [idx]) with 1 in Hr. assert (d = vlen (Pool.dense_idx q)) as -> by lia.
      rewrite vget_app_r in Hrow. injection Hrow as <-.
      apply vget_vset_eq. lia.
  - intros i d Hsp. rewrite vget_vset in Hsp. case_decide as Hcase.
    + destruct Hcase as [<- _]. injection Hsp as <-. right. apply vget_app_r.
    + destruct (Hs _ _ Hsp) as [->|Hrow]; [by left|]. right.
      rewrite vget_app_l; [done|]. apply vget_Some_lt in Hrow. lia.
Qed.

Lemma wf_remove p e : pool_wf p -> pool_wf (Pool.remove p e).
Proof.
  intros Hwf. unfold Pool.remove.
  pose proof (ent_idx_range e) as Hi. unfold is_u16 in Hi.
  set (idx := ent_idx e) in *.
  destruct (Z.leb_spec (vlen (Pool.sparse p)) idx); [done|].
  destruct (vget_is_Some (Pool.sparse p) idx) as [di Hdi]; [lia|].
  rewrite (vgetz_vget _ _ _ Hdi).
  destruct (Z.ltb_spec di 0); [done|].
  destruct (wf_sparse _ Hwf _ _ Hdi) as [?|Hrow]; [lia|].
  pose proof (vget_Some_lt _ _ _ Hrow) as Hdr.
  pose proof (wf_dense_len _ Hwf) as Hn.
  destruct Hwf as [Hv Hl Hd Hs].
  set (n := vlen (Pool.dense_idx p)) in *.
  rewrite (to_usize_id (n - 1)) by lia. rewrite (to_usize_id di) by lia.
  destruct (Z.eqb_spec di (n - 1)) as [Hlast|Hnl]; simpl.
  - (* the removed row is the last one *)
    split; simpl.
    + rewrite !vlen_removelast. by rewrite Hv.
    + by rewrite vlen_vset.
    + intros d i Hr. rewrite vget_removelast in Hr. fold n in Hr.
      destruct (Z.ltb_spec d (n - 1)); [|done].
      rewrite vget_vset_ne; [by apply Hd|]. intros <-.
      apply Hd in Hr. rewrite Hdi in Hr. injection Hr. lia.
    + intros i d Hsp. rewrite vget_vset in Hsp. case_decide as Hc.
      * injection Hsp as <-. by left.
      * destruct (Hs _ _ Hsp) as [->|Hr]; [by left|]. right.
        rewrite vget_removelast. fold n.
        pose proof (vget_Some_lt _ _ _ Hr) as Hrr. fold n in Hrr.
        destruct (Z.ltb_spec d (n - 1)); [done|].
        assert (d = di) as -> by lia. rewrite Hrow in Hr. injection Hr as ->. lia.
  - (* the last row moves into the hole *)
    destruct (vget_is_Some (Pool.dense_idx p) (n - 1)) as [m Hm]; [lia|].
    rewrite (vgetz_vget _ _ _ Hm).
    destruct (vget_is_Some (Pool.dense_val p) (n - 1)) as [x Hx]; [rewrite Hv; lia|].
    rewrite Hx. rewrite vgetz_vset_eq by (fold n; lia).
    pose proof (Hd _ _ Hm) as Hsm. pose proof (vget_Some_lt _ _ _ Hsm) as Hmr.
    assert (m <> idx) as Hmi.
    { intros ->. rewrite Hdi in Hsm. injection Hsm. lia. }
    split; simpl.
    + rewrite !vlen_removelast, !vlen_vset. by rewrite Hv.
    + by rewrite !vlen_vset.
    + intros d i Hr. rewrite vget_removelast, vlen_vset in Hr. fold n in Hr.
      destruct (Z.ltb_spec d (n - 1)); [|done].
      rewrite vget_vset in Hr. fold n in Hr. case_decide as Hc.
      * destruct Hc as [<- _]. injection Hr as <-.
        rewrite vget_vset_ne by done. apply vget_vset_eq. lia.
      * pose proof (Hd _ _ Hr) as Hsi.
        rewrite !vget_vset_ne; [done| |].
        -- intros <-. rewrite Hsm in Hsi. injection Hsi. lia.
        -- intros <-. rewrite Hdi in Hsi. injection Hsi. lia.
    + intros i d Hsp. rewrite vget_vset, vlen_vset in Hsp. case_decide as Hc.
      * injection Hsp as <-. by left.
      * rewrite vget_vset in Hsp. case_decide as Hc'.
        -- destruct Hc' as [<- _]. injection Hsp as <-. right.
           rewrite vget_removelast, vlen_vset. fold n.
           destruct (Z.ltb_spec di (n - 1)); [|lia].
           apply vget_vset_eq. fold n. lia.
        -- destruct (Hs _ _ Hsp) as [->|Hr]; [by left|]. right.
           pose proof (vget_Some_lt _ _ _ Hr) as Hrr. fold n in Hrr.
           assert (d <> di) as Hne.
           { intros ->. rewrite Hrow in Hr. injection Hr as ->. lia. }
           assert (d <> n - 1) as Hne'.
           { intros ->. rewrite Hm in Hr. injection Hr as ->. lia. }
           rewrite vget_removelast, vlen_vset. fold n.
           destruct (Z.ltb_spec d (n - 1)); [|lia].
           by rewrite vget_vset_ne.
Qed.

Lemma wf_run (ops : list (pool_op T)) : forall p, pool_wf p -> pool_wf (pool_run ops p).
Proof.
  induction ops as [|o ops IH]; intros p Hwf; [done|].
  simpl. apply IH. destruct o; simpl; [by apply wf_add|by apply wf_remove].
Qed.

(** On a consistent pool, [has] holds exactly for the owners of the rows. *)
Lemma wf_has p idx g :
  pool_wf p -> is_u16 idx -> is_u16 g ->
  Pool.has p (make_ent idx g) = true <-> idx ∈ Pool.dense_idx p.
Proof.
  intros Hwf Hidx Hg. unfold Pool.has. rewrite ent_idx_make_ent by done.
  pose proof (wf_dense_len _ Hwf) as Hn.
  pose proof (vlen_nonneg (Pool.dense_idx p)) as Hn0.
  rewrite to_i32_id by (unfold is_i32; lia).
  split.
  - destruct (Z.leb_spec (vlen (Pool.sparse p)) idx); [done|].
    intros [[_ _]%andb_true_iff Hrow%bool_decide_eq_true_1]%andb_true_iff.
    unfold vget in Hrow. case_match; [done|].
    apply list_elem_of_lookup. eauto.
  - intros [i Hi]%list_elem_of_lookup.
    assert (vget (Pool.dense_idx p) (Z.of_nat i) = Some idx) as Hrow.
    { unfold vget. destruct (Z.ltb_spec (Z.of_nat i) 0); [lia|]. by rewrite Nat2Z.id. }
    pose proof (wf_dense _ Hwf _ _ Hrow) as Hsp.
    pose proof (vget_Some_lt _ _ _ Hsp). pose proof (vget_Some_lt _ _ _ Hrow).
    destruct (Z.leb_spec (vlen (Pool.sparse p)) idx); [lia|].
    rewrite (vgetz_vget _ _ _ Hsp).
    rewrite bool_decide_eq_true_2 by done.
    destruct (Z.leb_spec 0 (Z.of_nat i)),
             (Z.ltb_spec (Z.of_nat i) (vlen (Pool.dense_idx p))); try lia; done.
Qed.

Lemma wf_has_count p : pool_wf p -> Pool.size p = Z.of_nat (has_count p).
Proof.
  intros Hwf. unfold Pool.size, has_count, vlen. f_equal.
  apply Permutation_length, NoDup_Permutation.
  - by apply wf_dense_NoDup.
  - apply NoDup_filter, NoDup_seqZ.
  - intros x. rewrite list_elem_of_filter, elem_of_seqZ. split.
    + intros Hx. pose proof Hx as [i Hi]%list_elem_of_lookup.
      assert (vget (Pool.dense_idx p) (Z.of_nat i) = Some x) as Hrow.
      { unfold vget. destruct (Z.ltb_spec (Z.of_nat i) 0); [lia|]. by rewrite Nat2Z.id. }
      pose proof (wf_owner_range _ _ _ Hwf Hrow). pose proof (wf_sparse_len _ Hwf).
      split; [|lia]. apply wf_has; unfold is_u16; try done; lia.
    + intros [Hh Hr]. eapply wf_has; [done| | |exact Hh]; unfold is_u16; lia.
Qed.

End PoolInvariant.

(** C6: after any interleaved sequence of [add] and [remove] calls on a
    store that starts empty, every dense row [d] is pointed at by the sparse
    entry of its owner, every non-absent sparse entry [i] points at a row
    owned by [i], and [size()] is the number of slot indices for which
    [has] is true. *)
Theorem C6_sparse_dense_consistency {T} (ops : list (pool_op T)) :
  let p := pool_run ops Pool.empty in
  (forall d, 0 <= d < Pool.size p ->
     exists idx, vget (Pool.dense_idx p) d = Some idx /\
                 vget (Pool.sparse p) idx = Some d) /\
  (forall i d, vget (Pool.sparse p) i = Some d -> d <> -1 ->
     vget (Pool.dense_idx p) d = Some i) /\
  Pool.size p = Z.of_nat (has_count p).
Proof.
  intros p. assert (pool_wf p) as Hwf by apply wf_run, wf_empty.
  split; [|split].
  - intros d Hd. destruct (vget_is_Some (Pool.dense_idx p) d) as [idx Hrow]; [done|].
    exists idx. split; [done|]. by apply (wf_dense _ Hwf).
  - intros i d Hsp Hne. by destruct (wf_sparse _ Hwf _ _ Hsp).
  - by apply wf_has_count.
Qed.

(** ** World: chunk addressing *)

Lemma chunk_coord_floor wc :
  -2147483615 <= wc <= 2147483647 -> World.chunk_coord wc = wc / 32.
Proof.
  intros Hr. unfold World.chunk_coord, CHUNK.
  destruct (Z.leb_spec 0 wc).
  - apply Z.quot_div_nonneg; lia.
  - rewrite (to_i32_id (- wc)) by (unfold is_i32; lia).
    rewrite (to_i32_id (- wc + 32)) by (unfold is_i32; lia).
    rewrite (to_i32_id (- wc + 32 - 1)) by (unfold is_i32; lia).
    rewrite Z.quot_div_nonneg by lia.
    pose proof (Z.div_mod (- wc + 32 - 1) 32 ltac:(lia)) as Hdm.
    pose proof (Z.mod_pos_bound (- wc + 32 - 1) 32 ltac:(lia)) as Hmb.
    set (q := (- wc + 32 - 1) / 32) in *.
    rewrite to_i32_id by (unfold is_i32; lia).
    apply (Z.div_unique wc 32 (- q) (wc + 32 * q)); lia.
Qed.

Lemma local_coord_mod wc :
  -2147483615 <= wc <= 2147483647 -> World.local_coord wc = wc mod 32.
Proof.
  intros Hr. unfold World.local_coord. rewrite chunk_coord_floor by done.
  unfold CHUNK.
  pose proof (Z.div_mod wc 32 ltac:(lia)) as Hdm.
  pose proof (Z.mod_pos_bound wc 32 ltac:(lia)) as Hmb.
  rewrite (to_i32_id (wc / 32 * 32)) by (unfold is_i32; lia).
  rewrite to_i32_id by (unfold is_i32; lia). lia.
Qed.

Lemma tile_index_val lx ly :
  0 <= lx < 32 -> 0 <= ly < 32 -> World.tile_index lx ly = ly * 32 + lx.
Proof.
  intros ??. unfold World.tile_index, CHUNK.
  rewrite (to_usize_id ly), (to_usize_id 32), (to_usize_id lx) by lia.
  rewrite (to_usize_id (ly * 32)) by lia. apply to_usize_id. lia.
Qed.

(** *** The generation loops *)

Lemma fold_left_bind {A B C} (f : A -> B -> A) (h : C -> list B) (l : list C) :
  forall a, fold_left f (l ≫= h) a = fold_left (fun a y => fold_left f (h y) a) l a.
Proof.
  induction l as [|y l IH]; intros a; [done|].
  rewrite bind_cons, fold_left_app. apply IH.
Qed.

Lemma fold_left_ext {A B} (f g : A -> B -> A) (l : list B) :
  (forall a x, f a x = g a x) -> forall a, fold_left f l a = fold_left g l a.
Proof.
  intros Hfg. induction l as [|x l IH]; intros a; [done|].
  simpl. by rewrite Hfg, IH.
Qed.

Section FoldVset.
Context {A B : Type} (f : B -> Z) (g : B -> A).

Local Abbreviation step := (fun (ts : list A) (x : B) => vset ts (f x) (g x)).

Lemma fold_vset_len xs : forall ts, vlen (fold_left step xs ts) = vlen ts.
Proof.
  induction xs as [|x xs IH]; intros ts; [done|].
  simpl. rewrite IH. apply vlen_vset.
Qed.

Lemma fold_vset_other xs i : forall ts,
  (forall x, x ∈ xs -> f x <> i) -> vget (fold_left step xs ts) i = vget ts i.
Proof.
  induction xs as [|x xs IH]; intros ts Hne; [done|].
  simpl. rewrite IH by (intros y Hy; apply Hne; by right).
  apply vget_vset_ne, Hne. by left.
Qed.

(** With an index function injective on the list, every listed element
    leaves its value at its index. *)
Lemma fold_vset_hit xs x : forall ts,
  NoDup xs -> (forall y z, y ∈ xs -> z ∈ xs -> f y = f z -> y = z) ->
  x ∈ xs -> 0 <= f x < vlen ts ->
  vget (fold_left step xs ts) (f x) = Some (g x).
Proof.
  induction xs as [|y xs IH]; intros ts Hnd Hinj Hin Hr.
  { by apply elem_of_nil in Hin. }
  apply NoDup_cons in Hnd as [Hy Hnd]. simpl.
  apply elem_of_cons in Hin as [->|Hin].
  - rewrite fold_vset_other.
    + by apply vget_vset_eq.
    + intros z Hz Heq. apply Hy.
      rewrite (Hinj y z); [done|by left|by right|done].
  - apply IH; [done| |done|by rewrite vlen_vset].
    intros a b Ha Hb. apply Hinj; by right.
Qed.

End FoldVset.

Section WorldFacts.
Context (fsin : f32 -> f32).

Lemma elem_of_chunk_cells tx ty :
  (tx, ty) ∈ World.chunk_cells <-> 0 <= tx < 32 /\ 0 <= ty < 32.
Proof.
  unfold World.chunk_cells, CHUNK. rewrite list_elem_of_bind. split.
  - intros (y & Hin & Hy). apply list_elem_of_bind in Hin as (x & Hin & Hx).
    apply list_elem_of_singleton in Hin as [= -> ->].
    apply elem_of_seqZ in Hx, Hy. lia.
  - intros [Hx Hy]. exists ty. split; [|apply elem_of_seqZ; lia].
    apply list_elem_of_bind. exists tx. split; [by apply list_elem_of_singleton|].
    apply elem_of_seqZ. lia.
Qed.

Lemma NoDup_chunk_cells : NoDup World.chunk_cells.
Proof.
  unfold World.chunk_cells. apply NoDup_bind.
  - intros y1 y2 [tx ty] _ _ (x1 & Hin1 & _)%list_elem_of_bind (x2 & Hin2 & _)%list_elem_of_bind.
    apply list_elem_of_singleton in Hin1, Hin2. congruence.
  - intros y _. apply NoDup_bind.
    + intros x1 x2 [tx ty] _ _ Hin1%list_elem_of_singleton Hin2%list_elem_of_singleton.
      congruence.
    + intros x _. apply NoDup_singleton.
    + apply NoDup_seqZ.
  - apply NoDup_seqZ.
Qed.

Lemma gen_tiles_fold cx cy :
  World.gen_tiles fsin cx cy =
  fold_left (fun ts '(tx, ty) =>
               vset ts (World.tile_index tx ty) (World.gen_tile fsin cx cy tx ty))
            World.chunk_cells (replicate (Z.to_nat (CHUNK * CHUNK)) 0).
Proof.
  unfold World.gen_tiles, World.gen_row, World.chunk_cells.
  rewrite fold_left_bind. apply fold_left_ext. intros ts ty.
  rewrite fold_left_bind. by apply fold_left_ext.
Qed.

Lemma gen_tiles_len cx cy : vlen (World.gen_tiles fsin cx cy) = 1024.
Proof.
  rewrite gen_tiles_fold.
  rewrite (fold_left_ext _ (fun ts x => vset ts (World.tile_index x.1 x.2)
                                          (World.gen_tile fsin cx cy x.1 x.2)))
    by (by intros ? []).
  rewrite (fold_vset_len (fun x => World.tile_index x.1 x.2)). 
  unfold vlen. by rewrite length_replicate.
Qed.

(** After the loops, the tile at local [(tx, ty)] is what the loop body
    computed for it. *)
Lemma gen_tiles_at cx cy tx ty :
  0 <= tx < 32 -> 0 <= ty < 32 ->
  vget (World.gen_tiles fsin cx cy) (World.tile_index tx ty)
  = Some (World.gen_tile fsin cx cy tx ty).
Proof.
  intros Hx Hy. rewrite gen_tiles_fold.
  rewrite (fold_left_ext _ (fun ts x => vset ts (World.tile_index x.1 x.2)
                                          (World.gen_tile fsin cx cy x.1 x.2)))
    by (by intros ? []).
  apply (fold_vset_hit (fun x => World.tile_index x.1 x.2)
           (fun x => World.gen_tile fsin cx cy x.1 x.2) World.chunk_cells (tx, ty)).
  - apply NoDup_chunk_cells.
  - intros [x1 y1] [x2 y2] H1%elem_of_chunk_cells H2%elem_of_chunk_cells. simpl.
    rewrite !tile_index_val by lia. intros ?. f_equal; lia.
  - by apply elem_of_chunk_cells.
  - cbn [fst snd]. rewrite tile_index_val by lia. unfold vlen.
    rewrite length_replicate. unfold CHUNK. lia.
Qed.

(** *** get_chunk, get and set *)

Lemma get_chunk_lookup w cx cy :
  World.map (World.get_chunk fsin w cx cy).2 !! World.key cx cy
  = Some (World.get_chunk fsin w cx cy).1.
Proof.
  unfold World.get_chunk. destruct (World.map w !! World.key cx cy) eqn:Hk; simpl.
  - done.
  - apply lookup_insert_eq.
Qed.

Lemma get_chunk_wf w cx cy :
  World.wf w -> World.wf (World.get_chunk fsin w cx cy).2.
Proof.
  intros Hwf. unfold World.get_chunk.
  destruct (World.map w !! World.key cx cy) eqn:Hk; simpl; [done|].
  intros k c. simpl. rewrite lookup_insert. case_decide.
  - intros [= <-]. simpl. apply gen_tiles_len.
  - apply Hwf.
Qed.

Lemma wf_init : World.wf World.init.
Proof. intros k c. unfold World.init. simpl. by rewrite lookup_empty. Qed.

Lemma get_wf w wx wy : World.wf w -> World.wf (World.get fsin w wx wy).2.
Proof.
  intros Hwf. unfold World.get.
  pose proof (get_chunk_wf w (World.chunk_coord wx) (World.chunk_coord wy) Hwf).
  by destruct (World.get_chunk _ _ _ _).
Qed.

Lemma set_wf w wx wy v : World.wf w -> World.wf (World.set fsin w wx wy v).
Proof.
  intros Hwf. unfold World.set.
  pose proof (get_chunk_wf w (World.chunk_coord wx) (World.chunk_coord wy) Hwf) as Hwf'.
  pose proof (get_chunk_lookup w (World.chunk_coord wx) (World.chunk_coord wy)) as Hl.
  destruct (World.get_chunk _ _ _ _) as [c w']. simpl in *.
  intros k c'. simpl. rewrite lookup_insert. case_decide.
  - intros [= <-]. simpl. rewrite vlen_vset. by apply (Hwf' _ _ Hl).
  - apply Hwf'.
Qed.

(** The tile [get] reads right after [set] wrote it, on any world. *)
Lemma get_set_index w wx wy v :
  World.wf w ->
  0 <= World.tile_index (World.local_coord wx) (World.local_coord wy) < 1024 ->
  (World.get fsin (World.set fsin w wx wy v) wx wy).1 = v.
Proof.
  intros Hwf Hidx. unfold World.get, World.set.
  pose proof (get_chunk_wf w (World.chunk_coord wx) (World.chunk_coord wy) Hwf) as Hwf'.
  pose proof (get_chunk_lookup w (World.chunk_coord wx) (World.chunk_coord wy)) as Hl.
  destruct (World.get_chunk fsin w _ _) as [c w']. simpl in *.
  unfold World.get_chunk at 1. simpl. rewrite lookup_insert_eq. simpl.
  apply vgetz_vset_eq. by rewrite (Hwf' _ _ Hl).
Qed.

(** C5 (amended): for all world tile coordinates from [INT_MIN + 33] up to
    [INT_MAX], negative ones included, [get] right after [set] returns the
    value written, the local offsets lie in [[0, 32)], and chunk coordinate
    and local offset give the world coordinate back. *)
Theorem C5_tile_round_trip (w : World.t) (wx wy v : Z) :
  World.wf w ->
  -2147483615 <= wx <= 2147483647 ->
  -2147483615 <= wy <= 2147483647 ->
  (World.get fsin (World.set fsin w wx wy v) wx wy).1 = v /\
  (0 <= World.local_coord wx < 32 /\ 0 <= World.local_coord wy < 32) /\
  (World.chunk_coord wx * 32 + World.local_coord wx = wx /\
   World.chunk_coord wy * 32 + World.local_coord wy = wy).
Proof.
  intros Hwf Hx Hy.
  pose proof (Z.mod_pos_bound wx 32 ltac:(lia)) as Hmx.
  pose proof (Z.mod_pos_bound wy 32 ltac:(lia)) as Hmy.
  pose proof (Z.div_mod wx 32 ltac:(lia)) as Hdx.
  pose proof (Z.div_mod wy 32 ltac:(lia)) as Hdy.
  split; [|split].
  - apply get_set_index; [done|].
    rewrite !local_coord_mod by done. rewrite tile_index_val by done. lia.
  - by rewrite !local_coord_mod.
  - rewrite !local_coord_mod, !chunk_coord_floor by done. lia.
Qed.

(** C7: when a chunk is first created, the tile at local [(tx, ty)] follows
    the terrain rule: with [wx], [wy] the world coordinates of the tile and
    [g] the ground height [(int)(18 + (sin(wx*0.08)*4 + sin(wx*0.02)*10))],
    it is stone (2) more than 10 below the ground height, dirt (1) below it
    otherwise, grass (4) at it, and empty (0) above it ([y] grows
    downwards).  The chunk is a function of the chunk coordinates alone. *)
Theorem C7_terrain_rule (w : World.t) (cx cy tx ty : Z) :
  World.map w !! World.key cx cy = None ->
  0 <= tx < 32 -> 0 <= ty < 32 ->
  let wx := to_i32 (to_i32 (cx * 32) + tx) in
  let wy := to_i32 (to_i32 (cy * 32) + ty) in
  let g := trunc_to_int
             (fadd (f32_of_int 18)
                (fadd (fmul (fsin (fmul (f32_of_int wx) F0_08)) (f32_of_int 4))
                      (fmul (fsin (fmul (f32_of_int wx) F0_02)) (f32_of_int 10)))) in
  g + 10 < 2147483648 ->
  let c := (World.get_chunk fsin w cx cy).1 in
  vget (tiles c) (ty * 32 + tx)
  = Some (if decide (g + 10 < wy) then 2
          else if decide (g < wy) then 1
          else if decide (wy = g) then 4
          else 0) /\
  (forall w', World.map w' !! World.key cx cy = None ->
              (World.get_chunk fsin w' cx cy).1 = c).
Proof.
  intros Hnew Hx Hy wx wy g Hg c.
  assert (c = mkChunk cx cy (World.gen_tiles fsin cx cy) true) as Hc.
  { subst c. unfold World.get_chunk. by rewrite Hnew. }
  split.
  - rewrite Hc. cbn [tiles]. rewrite <- (tile_index_val tx ty) by done.
    rewrite gen_tiles_at by done. f_equal.
    unfold World.gen_tile, World.classify.
    change (to_i32 (to_i32 (cx * CHUNK) + tx)) with wx.
    change (to_i32 (to_i32 (cy * CHUNK) + ty)) with wy.
    change (World.ground fsin wx) with g.
    assert (-2147483648 <= g) as Hlo.
    { subst g. unfold trunc_to_int, int_of_Z_indef.
      repeat case_match; lia. }
    rewrite (to_i32_id (g + 10)) by (unfold is_i32; lia).
    destruct (Z.ltb_spec g wy), (Z.ltb_spec (g + 10) wy), (Z.eqb_spec wy g);
      repeat case_decide; try lia; done.
  - intros w' Hnew'. rewrite Hc. unfold World.get_chunk. by rewrite Hnew'.
Qed.

End WorldFacts.

(** C5 (counterexample): at the far negative end of [int] the negation in
    the chunk-coordinate formula wraps, and the local offset of [INT_MIN]
    is 32. *)
Lemma C5_local_offset_out_of_range : World.local_coord (-2147483648) = 32.
Proof. reflexivity. Qed.

(** C5 at work on a default world, at a negative coordinate. *)
Lemma C5_tile_round_trip_witness :
  (World.get sin_zero (World.set sin_zero World.init (-33) 40 7) (-33) 40).1 = 7 /\
  (0 <= World.local_coord (-33) < 32 /\ 0 <= World.local_coord 40 < 32) /\
  (World.chunk_coord (-33) * 32 + World.local_coord (-33) = -33 /\
   World.chunk_coord 40 * 32 + World.local_coord 40 = 40).
Proof.
  apply (C5_tile_round_trip sin_zero World.init (-33) 40 7).
  - apply wf_init.
  - lia.
  - lia.
Defined.

(** C7 at work: with a flat ground height of 18, tile [(3, 20)] is dirt. *)
Lemma C7_terrain_rule_witness :
  vget (tiles (World.get_chunk sin_zero World.init 0 0).1) (20 * 32 + 3) = Some 1.
Proof.
  apply (C7_terrain_rule sin_zero World.init 0 0 3 20).
  - reflexivity.
  - lia.
  - lia.
  - reflexivity.
Defined.

(** ** Light map *)

Lemma cell_index_val w x y :
  0 <= w < 2147483648 -> 0 <= x < w -> 0 <= y < 2147483648 ->
  LightMap.cell_index w x y = y * w + x.
Proof.
  intros Hw Hx Hy. unfold LightMap.cell_index.
  rewrite (to_usize_id y), (to_usize_id w), (to_usize_id x) by lia.
  rewrite (to_usize_id (y * w)) by nia. apply to_usize_id. nia.
Qed.

Lemma wf_light_init : LightMap.wf LightMap.init.
Proof. unfold LightMap.wf, LightMap.init. simpl. unfold vlen. simpl. lia. Qed.

(** ** Light map: [build] terminates and returns a grid of [w*h] cells *)

Lemma headroom_nonneg L : Forall (fun v => v <= 255) L -> 0 <= LightMap.headroom L.
Proof.
  induction 1 as [|v L Hv _ IH]; simpl; lia.
Qed.

Lemma headroom_insert L : forall n old v,
  L !! n = Some old ->
  LightMap.headroom (<[n := v]> L) = LightMap.headroom L + old - v.
Proof.
  induction L as [|a L IH]; intros [|n] old v Hn; simplify_eq/=; [lia|].
  rewrite (IH n old v Hn). lia.
Qed.

Lemma headroom_vset L i old v :
  vget L i = Some old ->
  LightMap.headroom (vset L i v) = LightMap.headroom L + old - v.
Proof.
  unfold vget, vset. destruct (i <? 0); [done|]. apply headroom_insert.
Qed.

Lemma to_u8_range z : 0 <= to_u8 z < 256.
Proof. unfold to_u8. apply Z.mod_pos_bound. lia. Qed.

Section BuildTotal.
Context (fsin : f32 -> f32).

(** A [push] keeps the grid in shape and never raises queue length plus
    headroom. *)
Lemma push_measure w h L q x y v :
  LightMap.grid_ok w h L ->
  LightMap.grid_ok w h (LightMap.push w h (L, q) x y v).1 /\
  Z.of_nat (length (LightMap.push w h (L, q) x y v).2)
  + LightMap.headroom (LightMap.push w h (L, q) x y v).1
  <= Z.of_nat (length q) + LightMap.headroom L.
Proof.
  intros Hok. pose proof Hok as (Hw & Hh & Hlen & Hall). unfold LightMap.push.
  destruct (_ || _) eqn:Hout; [simpl; split; [done|lia]|].
  apply orb_false_iff in Hout as [[[Hx Hy]%orb_false_iff Hxw]%orb_false_iff Hyh].
  apply Z.ltb_ge in Hx, Hy. apply Z.leb_gt in Hxw, Hyh.
  rewrite cell_index_val by lia.
  destruct (vget_is_Some L (y * w + x)) as [old Hold]; [rewrite Hlen; nia|].
  rewrite (vgetz_vget _ _ _ Hold).
  pose proof (to_u8_range v) as Hv.
  destruct (Z.leb_spec (to_u8 v) old); [simpl; split; [done|lia]|].
  cbn [fst snd]. split.
  - split; [done|]. split; [done|]. split; [by rewrite vlen_vset|].
    unfold vset. case_match; [done|]. apply Forall_insert; [done|lia].
  - rewrite (headroom_vset _ _ _ _ Hold), length_app. simpl. lia.
Qed.

Lemma expand_measure w h ox oy world n L q :
  LightMap.grid_ok w h L ->
  LightMap.grid_ok w h (LightMap.expand fsin w h ox oy world n (L, q)).1.1 /\
  Z.of_nat (length (LightMap.expand fsin w h ox oy world n (L, q)).1.2)
  + LightMap.headroom (LightMap.expand fsin w h ox oy world n (L, q)).1.1
  <= Z.of_nat (length q) + LightMap.headroom L.
Proof.
  intros Hok. unfold LightMap.expand.
  destruct (World.get fsin world _ _) as [tile world']. cbn [fst snd].
  set (nv := if _ <? _ then _ else 0).
  pose proof (push_measure w h L q (to_i32 (LightMap.node_x n + 1))
                (to_i32 (LightMap.node_y n + 0)) nv Hok) as [Hok1 Hm1].
  destruct (LightMap.push w h (L, q) _ _ nv) as [L1 q1]. cbn [fst snd] in *.
  pose proof (push_measure w h L1 q1 (to_i32 (LightMap.node_x n + -1))
                (to_i32 (LightMap.node_y n + 0)) nv Hok1) as [Hok2 Hm2].
  destruct (LightMap.push w h (L1, q1) _ _ nv) as [L2 q2]. cbn [fst snd] in *.
  pose proof (push_measure w h L2 q2 (to_i32 (LightMap.node_x n + 0))
                (to_i32 (LightMap.node_y n + 1)) nv Hok2) as [Hok3 Hm3].
  destruct (LightMap.push w h (L2, q2) _ _ nv) as [L3 q3]. cbn [fst snd] in *.
  pose proof (push_measure w h L3 q3 (to_i32 (LightMap.node_x n + 0))
                (to_i32 (LightMap.node_y n + -1)) nv Hok3) as [Hok4 Hm4].
  destruct (LightMap.push w h (L3, q3) _ _ nv) as [L4 q4]. cbn [fst snd] in *.
  split; [done|lia].
Qed.

(** Fuel that covers queue length plus headroom is enough. *)
Lemma propagate_total fuel : forall w h ox oy world L q,
  LightMap.grid_ok w h L ->
  Z.of_nat (length q) + LightMap.headroom L <= Z.of_nat fuel ->
  exists L' world',
    LightMap.propagate fsin fuel w h ox oy world L q = Some (L', world') /\
    LightMap.grid_ok w h L'.
Proof.
  induction fuel as [|fuel IH]; intros w h ox oy world L q Hok Hfuel.
  - pose proof (headroom_nonneg L ltac:(apply Hok)).
    destruct q; [|simpl in Hfuel; lia]. simpl. eauto.
  - destruct q as [|n q]; [simpl; eauto|].
    pose proof (headroom_nonneg L ltac:(apply Hok)).
    cbn [LightMap.propagate]. destruct (LightMap.node_v n <=? 1).
    + apply IH; [done|]. simpl in Hfuel. lia.
    + pose proof (expand_measure w h ox oy world n L q Hok) as [Hok' Hm].
      destruct (LightMap.expand fsin w h ox oy world n (L, q)) as [[L' q'] world'].
      cbn [fst snd] in *. apply IH; [done|]. simpl in Hfuel. lia.
Qed.

Lemma seed_lights_ok tsz w h ox oy lights : forall L q,
  LightMap.grid_ok w h L ->
  LightMap.grid_ok w h (LightMap.seed_lights tsz w h ox oy lights (L, q)).1.
Proof.
  unfold LightMap.seed_lights.
  induction lights as [|ls lights IH]; intros L q Hok; [done|].
  cbn [fold_left].
  pose proof (push_measure w h L q
    (to_i32 (floor_to_int (fdiv (vx (LightSource.pos_px ls)) (f32_of_int tsz)) - ox))
    (to_i32 (floor_to_int (fdiv (vy (LightSource.pos_px ls)) (f32_of_int tsz)) - oy))
    (LightSource.intensity ls) Hok) as [Hok' _].
  destruct (LightMap.push w h (L, q) _ _ _) as [L1 q1]. by apply IH.
Qed.

(** [build] always returns, and the map it returns is well formed. *)
Lemma build_total lm world cam lights :
  is_u8 (LightMap.ambient lm) ->
  exists lm' world',
    LightMap.build fsin lm world cam lights = Some (lm', world') /\
    LightMap.wf lm' /\ LightMap.ambient lm' = LightMap.ambient lm.
Proof.
  intros Hamb. unfold LightMap.build.
  destruct (LightMap.visible_bounds _ cam) as [[[tx0 tx1] ty0] ty1].
  set (w := to_i32 (to_i32 (tx1 - tx0) + 1)). set (h := to_i32 (to_i32 (ty1 - ty0) + 1)).
  assert (is_i32 w /\ is_i32 h) as [Hw Hh].
  { unfold is_i32, w, h, to_i32.
    pose proof (Z.mod_pos_bound (to_i32 (tx1 - tx0) + 1 + 2147483648) 4294967296 ltac:(lia)).
    pose proof (Z.mod_pos_bound (to_i32 (ty1 - ty0) + 1 + 2147483648) 4294967296 ltac:(lia)).
    unfold to_i32 in *. lia. }
  unfold is_i32 in Hw, Hh.
  destruct (Z.leb_spec w 0), (Z.leb_spec h 0); cbn [orb];
    try (eexists _, _; split; [done|]; split; [|done];
         unfold LightMap.wf, vlen; simpl; lia).
  rewrite (to_usize_id w), (to_usize_id h) by lia.
  rewrite (to_usize_id (w * h)) by nia.
  set (L0 := replicate (Z.to_nat (w * h)) (LightMap.ambient lm)).
  assert (LightMap.grid_ok w h L0) as Hok0.
  { split; [lia|]. split; [lia|]. split.
    - unfold vlen, L0. rewrite length_replicate. nia.
    - apply Forall_replicate. unfold is_u8 in Hamb. lia. }
  pose proof (seed_lights_ok (World.tile_px world) w h tx0 ty0 lights L0 [] Hok0) as Hok1.
  destruct (LightMap.seed_lights _ w h tx0 ty0 lights (L0, [])) as [L1 q].
  cbn [fst] in Hok1.
  destruct (propagate_total (S (length q + Z.to_nat (LightMap.headroom L1)))
              w h tx0 ty0 world L1 q Hok1) as (L2 & world' & Hrun & Hok2).
  { pose proof (headroom_nonneg L1 ltac:(apply Hok1)). lia. }
  cbv zeta. rewrite Hrun. simpl. eexists _, _. split; [done|]. split; [|done].
  destruct Hok2 as (? & ? & ? & _). by split; [|split].
Qed.

End BuildTotal.

(** C9: on a light map whose grid holds [w*h] cells (the default map and
    every map [build] returns are such), [sample_tile] never
    reads outside the grid: a coordinate that maps inside yields the cell
    stored for it, any other coordinate the ambient value. *)
Theorem C9_sample_tile_total (lm : LightMap.t) (world_tx world_ty : Z) :
  LightMap.wf lm ->
  let x := to_i32 (world_tx - LightMap.ox lm) in
  let y := to_i32 (world_ty - LightMap.oy lm) in
  if decide (0 <= x < LightMap.w lm /\ 0 <= y < LightMap.h lm)
  then exists v, LightMap.sample_tile lm world_tx world_ty = Some v /\
                 vget (LightMap.L lm) (y * LightMap.w lm + x) = Some v
  else LightMap.sample_tile lm world_tx world_ty = Some (LightMap.ambient lm).
Proof.
  intros (Hw & Hh & Hlen) x y. unfold LightMap.sample_tile. fold x y.
  case_decide as Hin.
  - destruct (Z.ltb_spec x 0), (Z.ltb_spec y 0), (Z.leb_spec (LightMap.w lm) x),
             (Z.leb_spec (LightMap.h lm) y); try lia. simpl.
    rewrite cell_index_val by lia.
    destruct (vget_is_Some (LightMap.L lm) (y * LightMap.w lm + x)) as [v Hv].
    { rewrite Hlen. nia. }
    exists v. by rewrite Hv.
  - destruct (Z.ltb_spec x 0), (Z.ltb_spec y 0), (Z.leb_spec (LightMap.w lm) x),
             (Z.leb_spec (LightMap.h lm) y); try lia; done.
Qed.

(** C9 at work: a coordinate right of a 2 by 2 grid samples ambient. *)
Lemma C9_sample_tile_total_witness :
  LightMap.sample_tile (LightMap.mk 2 2 5 5 [1; 2; 3; 4] 40) 9 5 = Some 40.
Proof.
  apply (C9_sample_tile_total (LightMap.mk 2 2 5 5 [1; 2; 3; 4] 40) 9 5).
  unfold LightMap.wf, vlen. simpl. lia.
Defined.

(** ** The lighting scenario *)

Section Scenario.
Context (fsin : f32 -> f32).

(** Reading a tile of a chunk the map already holds creates nothing. *)
Lemma get_present (w : World.t) wx wy c :
  World.map w !! World.key (World.chunk_coord wx) (World.chunk_coord wy) = Some c ->
  World.get fsin w wx wy
  = (vgetz (tiles c) (World.tile_index (World.local_coord wx) (World.local_coord wy)), w).
Proof. intros Hc. unfold World.get, World.get_chunk. by rewrite Hc. Qed.

(** The scenario world is what its description says: around the origin the
    only solid tiles are the floor, and reading them creates no chunk. *)
Lemma floor_world_tiles wx wy :
  -32 <= wx < 32 -> -32 <= wy < 32 ->
  World.get fsin floor_world wx wy = (floor_tile wx wy, floor_world) /\
  World.solid (floor_tile wx wy) = bool_decide (wy = 10 /\ -15 <= wx <= 15).
Proof.
  intros Hx Hy.
  assert (forallb (fun wy => forallb (fun wx =>
            match World.map floor_world
                  !! World.key (World.chunk_coord wx) (World.chunk_coord wy) with
            | Some c =>
                vgetz (tiles c)
                  (World.tile_index (World.local_coord wx) (World.local_coord wy))
                =? floor_tile wx wy
            | None => false
            end
            && Bool.eqb (World.solid (floor_tile wx wy))
                        (bool_decide (wy = 10 /\ -15 <= wx <= 15)))
            (seqZ (-32) 64)) (seqZ (-32) 64) = true) as Hall
    by (vm_compute; reflexivity).
  rewrite forallb_forall in Hall.
  specialize (Hall wy). rewrite <- list_elem_of_In, elem_of_seqZ in Hall.
  specialize (Hall ltac:(lia)). rewrite forallb_forall in Hall.
  specialize (Hall wx). rewrite <- list_elem_of_In, elem_of_seqZ in Hall.
  specialize (Hall ltac:(lia)).
  apply andb_true_iff in Hall as [Hget Hsolid].
  apply Bool.eqb_prop in Hsolid. split; [|done].
  destruct (World.map floor_world !! _) as [c|] eqn:Hc; [|done].
  rewrite (get_present _ _ _ _ Hc). apply Z.eqb_eq in Hget. by rewrite Hget.
Qed.

(** C2 (amended): in the scenario, after [build], the source tile [(0, 9)]
    samples 255 and the tile [(0, 14)], five tiles straight down through
    the floor, samples 189: light loses 12 leaving the open source tile, 18
    leaving the floor tile, and 12 leaving each of the three open tiles
    below it. *)
Theorem C2_lighting_scenario :
  (LightMap.build fsin scenario_map floor_world scenario_cam scenario_lights
     ≫= fun r => LightMap.sample_tile r.1 0 9) = Some 255 /\
  (LightMap.build fsin scenario_map floor_world scenario_cam scenario_lights
     ≫= fun r => LightMap.sample_tile r.1 0 14) = Some (255 - 12 - 18 - 12 - 12 - 12).
Proof. split; vm_compute; reflexivity. Qed.

End Scenario.

(** C2 (counterexample): the tile five below the source samples 189, not
    165. *)
Lemma C2_sample_below_floor :
  (LightMap.build sin_zero scenario_map floor_world scenario_cam scenario_lights
     ≫= fun r => LightMap.sample_tile r.1 0 14) = Some 189.
Proof. vm_compute. reflexivity. Qed.

(** ** Physics: writes through component pointers *)

Section StoreFacts.
Context {T : Type}.
Implicit Types (p : Pool.t T) (e : Entity).

Lemma slot_put p di x e : Pool.slot (Pool.put p di x) e = Pool.slot p e.
Proof. done. Qed.

Lemma slot_store p e' x e : Pool.slot (store p e' x) e = Pool.slot p e.
Proof. unfold store. by destruct (Pool.slot p e'). Qed.

Lemma dense_idx_store p e x : Pool.dense_idx (store p e x) = Pool.dense_idx p.
Proof. unfold store. by destruct (Pool.slot p e). Qed.

Lemma sparse_store p e x : Pool.sparse (store p e x) = Pool.sparse p.
Proof. unfold store. by destruct (Pool.slot p e). Qed.

(** Reading back what was written through the pointer. *)
Lemma get_store_same p e x :
  is_Some (Pool.get p e) -> Pool.get (store p e x) e = Some x.
Proof.
  intros [y Hy]. unfold Pool.get in *. rewrite slot_store.
  unfold store. destruct (Pool.slot p e) as [di|]; [|done]. simpl in *.
  apply vget_vset_eq. by apply vget_Some_lt in Hy.
Qed.

(** A write for one slot index leaves the rows of the others alone. *)
Lemma get_store_other p e' x e :
  ent_idx e <> ent_idx e' -> Pool.get (store p e' x) e = Pool.get p e.
Proof.
  intros Hne. unfold Pool.get. rewrite slot_store.
  destruct (Pool.slot p e) as [di|] eqn:Hs; [|done]. simpl.
  unfold store. destruct (Pool.slot p e') as [dj|] eqn:Hs'; [|done]. simpl.
  apply vget_vset_ne. intros ->.
  apply slot_owner in Hs, Hs'. congruence.
Qed.

End StoreFacts.

(** ** Physics: the Y-axis scan and [on_ground] *)

Section ScanY.
Context (fsin : f32 -> f32).






End ScanY.

(** ** Physics: entities that miss a component *)

(** On a consistent pool, the handle of a row's owner points at the row. *)
Lemma wf_slot_row {T} (p : Pool.t T) i idx e :
  pool_wf p -> vget (Pool.dense_idx p) i = Some idx -> ent_idx e = idx ->
  Pool.slot p e = Some i.
Proof.
  intros Hwf Hrow He. unfold Pool.slot. rewrite He.
  pose proof (wf_dense _ Hwf _ _ Hrow) as Hsp.
  pose proof (vget_Some_lt _ _ _ Hsp). pose proof (vget_Some_lt _ _ _ Hrow).
  pose proof (wf_dense_len _ Hwf).
  destruct (Z.leb_spec (vlen (Pool.sparse p)) idx); [lia|].
  rewrite (vgetz_vget _ _ _ Hsp).
  destruct (Z.ltb_spec i 0); [lia|].
  rewrite to_i32_id by (unfold is_i32; lia).
  destruct (Z.leb_spec (vlen (Pool.dense_idx p)) i); [lia|].
  by rewrite bool_decide_eq_true_2.
Qed.

Section Gravity.
Context (dt : f32).

(** One iteration of the gravity loop updates the row it stands at. *)
Lemma gravity_at_row ecs i :
  physics_ready ecs -> 0 <= i < Pool.size (ECS.vel ecs) ->
  exists v, vget (Pool.dense_val (ECS.vel ecs)) i = Some v /\
    gravity_at dt ecs i
    = Some (with_vel ecs (Pool.put (ECS.vel ecs) i (apply_gravity dt v))).
Proof.
  intros [Hgen Hwf Hown _] Hi.
  destruct (vget_is_Some (Pool.dense_idx (ECS.vel ecs)) i) as [idx Hrow]; [done|].
  destruct (vget_is_Some (Pool.dense_val (ECS.vel ecs)) i) as [v Hv].
  { by rewrite (wf_vals _ Hwf). }
  pose proof (wf_owner_range _ _ _ Hwf Hrow) as Hr.
  pose proof (wf_sparse_len _ Hwf) as Hl.
  destruct (entity_at_alive (ECS.vel ecs) (ECS.reg ecs) i idx) as (e & He & Hidx & Hal);
    [done|unfold is_u16; lia|by apply (Hown i idx)|done|].
  pose proof (wf_slot_row _ _ _ e Hwf Hrow Hidx) as Hslot.
  exists v. split; [done|].
  unfold gravity_at. rewrite He. simpl. rewrite Hal. simpl.
  unfold Pool.get, store. rewrite Hslot. simpl. by rewrite Hv.
Qed.

Lemma gravity_loop rows : forall ecs,
  physics_ready ecs -> NoDup rows ->
  (forall i, i ∈ rows -> 0 <= i < Pool.size (ECS.vel ecs)) ->
  exists vals,
    foldlM_opt (gravity_at dt) rows ecs
    = Some (with_vel ecs (Pool.mk (Pool.dense_idx (ECS.vel ecs)) vals
                                  (Pool.sparse (ECS.vel ecs)))) /\
    vlen vals = vlen (Pool.dense_val (ECS.vel ecs)) /\
    forall d, vget vals d =
      if decide (d ∈ rows) then apply_gravity dt <$> vget (Pool.dense_val (ECS.vel ecs)) d
      else vget (Pool.dense_val (ECS.vel ecs)) d.
Proof.
  induction rows as [|i rows IH]; intros ecs Hready Hnd Hin.
  - exists (Pool.dense_val (ECS.vel ecs)). cbn [foldlM_opt].
    split; [by destruct ecs as [? ? [] ? ? ? ?]|].
    split; [done|]. intros d. case_decide as Hd; [|done]. by apply elem_of_nil in Hd.
  - apply NoDup_cons in Hnd as [Hi Hnd].
    destruct (gravity_at_row ecs i Hready) as (v & Hv & Hstep); [apply Hin; by left|].
    simpl. rewrite Hstep. simpl.
    destruct (IH (with_vel ecs (Pool.put (ECS.vel ecs) i (apply_gravity dt v))))
      as (vals & Hrun & Hlen & Hvals); [|done| |].
    { destruct Hready as [Hgen Hwf Hown Hcol]. split; simpl; try done. by apply wf_put. }
    { intros j Hj. simpl. apply Hin. by right. }
    exists vals. split; [exact Hrun|]. simpl in *. rewrite vlen_vset in Hlen.
    split; [done|]. intros d. rewrite Hvals.
    destruct (decide (d = i)) as [->|Hne].
    + rewrite decide_False by done. rewrite decide_True by (by left).
      rewrite vget_vset_eq, Hv; [done|]. by apply vget_Some_lt in Hv.
    + rewrite vget_vset_ne by done.
      destruct (decide (d ∈ rows)) as [Hd|Hd].
      * by rewrite decide_True by (by right).
      * rewrite decide_False; [done|]. by intros [?|?]%elem_of_cons.
Qed.

End Gravity.

Lemma frame_refl e ecs : frame e ecs ecs.
Proof. by split. Qed.

Lemma frame_trans e a b c : frame e a b -> frame e b c -> frame e a c.
Proof. intros [] []. split; congruence. Qed.

Lemma frame_incomplete e a b : frame e a b -> incomplete a e -> incomplete b e.
Proof. intros [] Hinc. unfold incomplete in *. by rewrite frame_tr0, frame_vel0, frame_col0. Qed.

Section Resolve.
Context (fsin : f32 -> f32) (dt : f32).

(** Writing a body back for [e'] leaves an incomplete entity [e] alone. *)
Lemma store_body_frame ecs e e' b :
  ent_idx e <> ent_idx e' -> frame e ecs (store_body ecs e' b).
Proof.
  intros Hne. unfold store_body. split; simpl; try done.
  - by apply get_store_other.
  - by apply get_store_other.
  - by apply get_store_other.
  - apply dense_idx_store.
Qed.

(** An entity with all three components is not the incomplete one. *)
Lemma complete_other_slot ecs e e' t v c :
  incomplete ecs e ->
  Pool.get (ECS.tr ecs) e' = Some t -> Pool.get (ECS.vel ecs) e' = Some v ->
  Pool.get (ECS.col ecs) e' = Some c ->
  ent_idx e <> ent_idx e'.
Proof.
  intros Hinc Ht Hv Hc Heq.
  rewrite <- (get_idx_only (ECS.tr ecs) e e' Heq) in Ht.
  rewrite <- (get_idx_only (ECS.vel ecs) e e' Heq) in Hv.
  rewrite <- (get_idx_only (ECS.col ecs) e e' Heq) in Hc.
  destruct Hinc as [?|[?|?]]; congruence.
Qed.

Lemma resolve_axis_x_frame ecs world e e' :
  incomplete ecs e -> frame e ecs (resolve_axis_x fsin ecs world e' dt).1.
Proof.
  intros Hinc. unfold resolve_axis_x.
  destruct (Pool.get (ECS.tr ecs) e') as [t|] eqn:Ht; [|apply frame_refl].
  destruct (Pool.get (ECS.vel ecs) e') as [v|] eqn:Hv; [|apply frame_refl].
  destruct (Pool.get (ECS.col ecs) e') as [c|] eqn:Hc; [|apply frame_refl].
  destruct (scan_bounds _ _) as [[[? ?] ?] ?].
  destruct (fold_left _ _ _) as [b w']. simpl.
  apply store_body_frame. by eapply complete_other_slot.
Qed.

Lemma resolve_axis_y_frame ecs world e e' :
  incomplete ecs e -> frame e ecs (resolve_axis_y fsin ecs world e' dt).1.
Proof.
  intros Hinc. unfold resolve_axis_y.
  destruct (Pool.get (ECS.tr ecs) e') as [t|] eqn:Ht; [|apply frame_refl].
  destruct (Pool.get (ECS.vel ecs) e') as [v|] eqn:Hv; [|apply frame_refl].
  destruct (Pool.get (ECS.col ecs) e') as [c|] eqn:Hc; [|apply frame_refl].
  destruct (scan_bounds _ _) as [[[? ?] ?] ?].
  destruct (fold_left _ _ _) as [b w']. simpl.
  apply store_body_frame. by eapply complete_other_slot.
Qed.

Lemma resolve_at_frame ecs world e i :
  incomplete ecs e -> owners_in (ECS.col ecs) (ECS.reg ecs) ->
  0 <= i < Pool.size (ECS.col ecs) ->
  exists st, resolve_at fsin dt (ecs, world) i = Some st /\ frame e ecs st.1.
Proof.
  intros Hinc Hown Hi. unfold resolve_at.
  destruct (vget_is_Some (Pool.dense_idx (ECS.col ecs)) i) as [idx Hrow]; [done|].
  pose proof (Hown _ _ Hrow) as Hr.
  destruct (vget_is_Some (Registry.gen (ECS.reg ecs)) idx) as [g Hg]; [done|].
  unfold Pool.entity_at. rewrite Hrow. simpl. rewrite Hg. simpl.
  destruct (negb (Registry.alive _ _)); [eexists; split; [done|apply frame_refl]|].
  destruct (_ || _); [eexists; split; [done|apply frame_refl]|].
  pose proof (resolve_axis_x_frame ecs world e (make_ent idx g) Hinc) as Hx.
  destruct (resolve_axis_x fsin ecs world (make_ent idx g) dt) as [ecs1 w1].
  simpl in Hx.
  pose proof (resolve_axis_y_frame ecs1 w1 e (make_ent idx g)
                (frame_incomplete _ _ _ Hx Hinc)) as Hy.
  eexists. split; [done|]. by eapply frame_trans.
Qed.

Lemma resolve_loop_frame e rows : forall ecs world,
  incomplete ecs e -> owners_in (ECS.col ecs) (ECS.reg ecs) ->
  (forall i, i ∈ rows -> 0 <= i < Pool.size (ECS.col ecs)) ->
  exists st, foldlM_opt (resolve_at fsin dt) rows (ecs, world) = Some st /\
             frame e ecs st.1.
Proof.
  induction rows as [|i rows IH]; intros ecs world Hinc Hown Hin.
  - eexists. split; [done|apply frame_refl].
  - destruct (resolve_at_frame ecs world e i Hinc Hown) as ([ecs1 w1] & Hstep & Hf);
      [apply Hin; by left|].
    cbn [foldlM_opt]. rewrite Hstep. cbn [mbind option_bind]. simpl in Hf.
    destruct (IH ecs1 w1) as (st & Hrun & Hf').
    + by eapply frame_incomplete.
    + unfold owners_in. rewrite (frame_col_rows _ _ _ Hf), (frame_reg _ _ _ Hf). exact Hown.
    + intros j Hj. unfold Pool.size. rewrite (frame_col_rows _ _ _ Hf).
      apply Hin. by right.
    + exists st. split; [done|]. by eapply frame_trans.
Qed.

(** C3 (amended): for an entity that misses one of Transform, Velocity and
    Collider, one call of the physics system succeeds, does no collision
    resolution for it and leaves its Transform, Collider, Player, Sprite and
    Light components unchanged; a Velocity it has gets the gravity step
    [v.y = min(v.y + 1200*dt, 3000)], as every Velocity row does. *)
Theorem C3_physics_skips_incomplete (ecs : ECS.t) (world : World.t) (e : Entity) :
  physics_ready ecs -> incomplete ecs e ->
  exists ecs' world',
    sys_physics fsin ecs world dt = Some (ecs', world') /\
    Pool.get (ECS.tr ecs') e = Pool.get (ECS.tr ecs) e /\
    Pool.get (ECS.col ecs') e = Pool.get (ECS.col ecs) e /\
    Pool.get (ECS.vel ecs') e = apply_gravity dt <$> Pool.get (ECS.vel ecs) e /\
    ECS.player ecs' = ECS.player ecs /\ ECS.spr ecs' = ECS.spr ecs /\
    ECS.light ecs' = ECS.light ecs /\ ECS.reg ecs' = ECS.reg ecs.
Proof.
  intros Hready Hinc. unfold sys_physics.
  destruct (gravity_loop dt (seqZ 0 (Pool.size (ECS.vel ecs))) ecs Hready)
    as (vals & Hgrav & Hlen & Hvals).
  { apply NoDup_seqZ. } { intros i Hi%elem_of_seqZ. lia. }
  rewrite Hgrav. simpl.
  set (vel1 := Pool.mk (Pool.dense_idx (ECS.vel ecs)) vals (Pool.sparse (ECS.vel ecs))).
  set (ecs1 := with_vel ecs vel1).
  assert (Pool.get vel1 e = apply_gravity dt <$> Pool.get (ECS.vel ecs) e) as Hvel.
  { unfold Pool.get. change (Pool.slot vel1 e) with (Pool.slot (ECS.vel ecs) e).
    destruct (Pool.slot (ECS.vel ecs) e) as [di|] eqn:Hs; [|done]. simpl.
    rewrite Hvals. rewrite decide_True; [done|].
    apply slot_owner, vget_Some_lt in Hs. apply elem_of_seqZ. unfold Pool.size. lia. }
  assert (incomplete ecs1 e) as Hinc1.
  { unfold incomplete in *. simpl. rewrite Hvel.
    destruct Hinc as [?|[Hn|?]]; [by left| |by right; right].
    right; left. by rewrite Hn. }
  destruct (resolve_loop_frame e (seqZ 0 (Pool.size (ECS.col ecs))) ecs1 world Hinc1)
    as ([ecs2 w2] & Hrun & Hf).
  { apply (ready_col_owners _ Hready). }
  { intros i Hi%elem_of_seqZ. simpl. lia. }
  exists ecs2, w2. split; [exact Hrun|]. destruct Hf. simpl in *.
  repeat split; try done. by rewrite frame_vel0.
Qed.

End Resolve.

(** C3 (counterexample): an entity that carries a Velocity and nothing
    else has that Velocity changed by one physics call; after a tick of
    1/64 s its [v.y] is 18.75. *)
Lemma C3_lone_velocity_gets_gravity :
  (Pool.get (ECS.tr lone_vel_ecs) demo_player = None /\
   Pool.get (ECS.vel lone_vel_ecs) demo_player = Some (CVel.mk (V2 F0 F0))) /\
  (sys_physics sin_zero lone_vel_ecs World.init tick
     ≫= fun r => Pool.get (ECS.vel r.1) demo_player)
  = Some (CVel.mk (V2 F0 (S754_finite false 9830400 (-19)))).
Proof. vm_compute. by repeat split. Qed.

(** The lone-velocity ECS meets what [sys_physics] relies on. *)
Lemma lone_vel_ready : physics_ready lone_vel_ecs.
Proof.
  split.
  - repeat constructor; unfold is_u16; lia.
  - apply wf_add, wf_empty.
  - intros i idx Hrow. pose proof (vget_Some_lt _ _ _ Hrow) as Hr.
    change (vlen _) with 1 in Hr. assert (i = 0) as -> by lia.
    vm_compute in Hrow. injection Hrow as <-.
    change (vlen (Registry.gen (ECS.reg lone_vel_ecs))) with 1. lia.
  - intros i idx Hrow. apply vget_Some_lt in Hrow. change (vlen _) with 0 in Hrow. lia.
Qed.

(** C3 at work on the entity that carries a Velocity only. *)
Lemma C3_physics_skips_incomplete_witness :
  exists ecs' world',
    sys_physics sin_zero lone_vel_ecs World.init tick = Some (ecs', world') /\
    Pool.get (ECS.tr ecs') demo_player = Pool.get (ECS.tr lone_vel_ecs) demo_player /\
    Pool.get (ECS.col ecs') demo_player = Pool.get (ECS.col lone_vel_ecs) demo_player /\
    Pool.get (ECS.vel ecs') demo_player
    = apply_gravity tick <$> Pool.get (ECS.vel lone_vel_ecs) demo_player /\
    ECS.player ecs' = ECS.player lone_vel_ecs /\ ECS.spr ecs' = ECS.spr lone_vel_ecs /\
    ECS.light ecs' = ECS.light lone_vel_ecs /\ ECS.reg ecs' = ECS.reg lone_vel_ecs.
Proof.
  apply (C3_physics_skips_incomplete sin_zero tick lone_vel_ecs World.init demo_player).
  - apply lone_vel_ready.
  - left. reflexivity.
Defined.


(** The embedding at work on the demo: dropped from [y = 200] above the
    floor, whose top edge is at [y = 320], the player with half-height 20
    rests after 40 ticks of 1/64 s with its centre at [y = 300], no vertical
    velocity left, and [on_ground] set. *)
Example player_lands :
  (st ← run_ticks sin_zero 40 tick (player_ecs, floor_world);
   t ← Pool.get (ECS.tr st.1) demo_player;
   v ← Pool.get (ECS.vel st.1) demo_player;
   c ← Pool.get (ECS.col st.1) demo_player;
   Some (vy (CTransform.pos t), vy (CVel.v v), CCollider.on_ground c))
  = Some (f32_of_int 300, F0, true).
Proof. vm_compute. reflexivity. Qed.

(** ** Handles: packing and unpacking *)

Lemma unpack_pack e : is_u32 e -> make_ent (ent_idx e) (ent_gen e) = e.
Proof.
  intros He. unfold is_u32 in He.
  rewrite make_ent_val by apply to_u16_range.
  unfold ent_idx, ent_gen, to_u16.
  change 65535 with (Z.ones 16). rewrite Z.land_ones by lia.
  rewrite Z.shiftr_div_pow2 by lia. change (2 ^ 16) with 65536.
  rewrite Z.mod_mod by lia.
  assert (0 <= e / 65536 < 65536) by (split; [apply Z.div_pos; lia|apply Z.div_lt_upper_bound; lia]).
  rewrite (Z.mod_small (e / 65536)) by lia.
  pose proof (Z.div_mod e 65536 ltac:(lia)). lia.
Qed.

(** X1: a handle packs a slot index and a generation without loss: the two
    [u16] fields given to [make_ent] are what [ent_idx] and [ent_gen] read
    back, and every [u32] handle is rebuilt from its two fields. *)
Theorem X1_handle_round_trip (idx g : Z) (e : Entity) :
  is_u16 idx -> is_u16 g -> is_u32 e ->
  ent_idx (make_ent idx g) = idx /\ ent_gen (make_ent idx g) = g /\
  is_u32 (make_ent idx g) /\
  make_ent (ent_idx e) (ent_gen e) = e.
Proof.
  intros Hi Hg He. split; [by apply ent_idx_make_ent|].
  split; [by apply ent_gen_make_ent|]. split; [|by apply unpack_pack].
  rewrite make_ent_val by done. unfold is_u16, is_u32 in *. lia.
Qed.

Lemma X1_handle_round_trip_witness :
  ent_idx (make_ent 7 65535) = 7 /\ ent_gen (make_ent 7 65535) = 65535 /\
  is_u32 (make_ent 7 65535) /\
  make_ent (ent_idx 4294901767) (ent_gen 4294901767) = 4294901767.
Proof.
  apply (X1_handle_round_trip 7 65535 4294901767); unfold is_u16, is_u32; lia.
Defined.

(** ** Registry: what [create] and [destroy] keep *)

Lemma alive_spec r e :
  Registry.alive r e = true <->
  ent_idx e < vlen (Registry.gen r) /\ vget (Registry.gen r) (ent_idx e) = Some (ent_gen e).
Proof.
  unfold Registry.alive. pose proof (ent_idx_range e) as Hi. unfold is_u16 in Hi.
  destruct (Z.leb_spec (vlen (Registry.gen r)) (ent_idx e)).
  - split; [done|lia].
  - destruct (vget_is_Some (Registry.gen r) (ent_idx e)) as [g Hg]; [lia|].
    rewrite (vgetz_vget _ _ _ Hg), Hg, Z.eqb_eq. split.
    + intros ->. done.
    + by intros [_ [= ->]].
Qed.

Lemma reg_wf_empty : reg_wf Registry.empty.
Proof. split; simpl; [done|done|unfold vlen; simpl; lia]. Qed.

Lemma reg_wf_destroy r e : reg_wf r -> reg_wf (Registry.destroy r e).
Proof.
  intros [Hg Hf Hc]. pose proof (ent_idx_range e) as Hi. unfold is_u16 in Hi.
  split.
  - by apply destroy_gen_u16.
  - rewrite destroy_len. unfold Registry.destroy.
    destruct (Z.leb_spec (vlen (Registry.gen r)) (ent_idx e)); [done|].
    destruct (negb _); [done|]. simpl. apply Forall_app. split; [done|].
    apply Forall_singleton. lia.
  - by rewrite destroy_len.
Qed.

Lemma removelast_snoc_last {A} (l : list A) x :
  last l = Some x -> l = removelast l ++ [x].
Proof.
  intros Hl. destruct (decide (l = [])) as [->|Hne]; [done|].
  rewrite (app_removelast_last x Hne) at 1. f_equal. f_equal.
  revert Hl. clear Hne. induction l as [|a [|b l] IH]; intros Hl; simplify_eq/=; [done|].
  by apply IH.
Qed.

Lemma reg_wf_create r : reg_wf r -> has_room r -> reg_wf (Registry.create r).2.
Proof.
  intros [Hg Hf Hc] Hroom. unfold Registry.create.
  destruct (last (Registry.free_list r)) as [idx|] eqn:Hl; simpl.
  - split; cbn [Registry.gen Registry.free_list]; [exact Hg| |exact Hc].
    rewrite (removelast_snoc_last _ _ Hl) in Hf. by apply Forall_app in Hf as [? _].
  - apply last_None in Hl. destruct Hroom as [?|Hlt]; [done|].
    split; simpl.
    + apply Forall_app. split; [done|]. apply Forall_singleton. unfold is_u16. lia.
    + rewrite Hl. constructor.
    + rewrite vlen_app. change (vlen [1]) with 1. lia.
Qed.

Lemma create_alive r :
  reg_wf r -> has_room r ->
  Registry.alive (Registry.create r).2 (Registry.create r).1 = true.
Proof.
  intros [Hg Hf Hc] Hroom. unfold Registry.create.
  pose proof (vlen_nonneg (Registry.gen r)) as Hn.
  destruct (last (Registry.free_list r)) as [idx|] eqn:Hl; cbn [fst snd Registry.gen].
  - rewrite (removelast_snoc_last _ _ Hl) in Hf.
    apply Forall_app in Hf as [_ Hidx]. apply Forall_inv in Hidx.
    cbn beta in Hidx.
    destruct (vget_is_Some (Registry.gen r) idx) as [g Hgv]; [exact Hidx|].
    assert (is_u16 g) as Hgu.
    { unfold vget in Hgv. case_match; [done|]. by eapply (Forall_lookup_1 _ _ _ _ Hg). }
    rewrite (vgetz_vget _ _ _ Hgv). apply alive_spec. simpl.
    rewrite ent_idx_make_ent, ent_gen_make_ent by (unfold is_u16 in *; try done; lia).
    split; [lia|done].
  - apply last_None in Hl. destruct Hroom as [?|Hlt]; [done|].
    rewrite (to_u16_id (vlen (Registry.gen r))) by (unfold is_u16; lia).
    unfold vgetz. rewrite vget_app_r. simpl. apply alive_spec. simpl.
    rewrite ent_idx_make_ent, ent_gen_make_ent by (unfold is_u16; lia).
    rewrite vlen_app. change (vlen [1]) with 1. split; [lia|]. apply vget_app_r.
Qed.

(** X2: on a registry in good shape (generations are [u16] values, free
    indices are slots, at most 65536 slots) that has a free index or room
    for a slot, the handle [create] returns is alive at once, and the
    registry stays in good shape; [destroy] keeps the shape too, and the
    empty registry has it. *)
Theorem X2_create_returns_live_handle (r : Registry.t) :
  reg_wf r -> has_room r ->
  Registry.alive (Registry.create r).2 (Registry.create r).1 = true /\
  reg_wf (Registry.create r).2 /\
  (forall e, reg_wf (Registry.destroy r e)) /\
  reg_wf Registry.empty.
Proof.
  intros Hwf Hroom. split; [by apply create_alive|].
  split; [by apply reg_wf_create|]. split; [|apply reg_wf_empty].
  intros e. by apply reg_wf_destroy.
Qed.

Lemma X2_create_returns_live_handle_witness :
  Registry.alive (Registry.create Registry.empty).2 (Registry.create Registry.empty).1 = true /\
  reg_wf (Registry.create Registry.empty).2 /\
  (forall e, reg_wf (Registry.destroy Registry.empty e)) /\
  reg_wf Registry.empty.
Proof.
  apply (X2_create_returns_live_handle Registry.empty).
  - split; simpl; [constructor|constructor|unfold vlen; simpl; lia].
  - right. unfold vlen. simpl. lia.
Defined.


Lemma create_keeps_alive r e :
  Registry.alive r e = true -> Registry.alive (Registry.create r).2 e = true.
Proof.
  intros Hal. pose proof (ent_idx_range e) as Hi. unfold is_u16 in Hi.
  pose proof Hal as Hal'. unfold Registry.alive in Hal'.
  destruct (Z.leb_spec (vlen (Registry.gen r)) (ent_idx e)) as [|Hlt]; [done|].
  destruct (create_gen r (ent_idx e) Hlt) as [Hl Hv].
  unfold Registry.alive.
  destruct (Z.leb_spec (vlen (Registry.gen (Registry.create r).2)) (ent_idx e)); [lia|].
  by rewrite Hv.
Qed.

(** X3: [create] never invalidates a handle: every handle alive before the
    call is alive after it. *)
Theorem X3_create_keeps_handles_alive (r : Registry.t) (e : Entity) :
  Registry.alive r e = true -> Registry.alive (Registry.create r).2 e = true.
Proof. apply create_keeps_alive. Qed.

Lemma X3_create_keeps_handles_alive_witness :
  Registry.alive (Registry.create demo_reg).2 demo_player = true.
Proof.
  apply (X3_create_keeps_handles_alive demo_reg demo_player). reflexivity.
Defined.


(** X4: [destroy] acts on the slot of its handle only, and only when the
    handle is alive: it leaves the liveness of handles of other slots as it
    was, a second [destroy] of the same handle changes nothing, and for a
    dead handle it returns the registry as it is. *)
Theorem X4_destroy_is_local (r : Registry.t) (e e' : Entity) :
  ent_idx e' <> ent_idx e ->
  Registry.alive (Registry.destroy r e) e' = Registry.alive r e' /\
  Registry.destroy (Registry.destroy r e) e = Registry.destroy r e /\
  (Registry.alive r e = false -> Registry.destroy r e = r).
Proof.
  intros Hne.
  assert (forall r0, Registry.alive r0 e = false -> Registry.destroy r0 e = r0) as Hdead.
  { intros r0. unfold Registry.alive, Registry.destroy.
    destruct (vlen (Registry.gen r0) <=? ent_idx e); [done|]. by intros ->. }
  split; [|split; [|apply Hdead]].
  - pose proof (ent_idx_range e') as Hi. unfold is_u16 in Hi.
    unfold Registry.alive. rewrite destroy_len.
    destruct (Z.leb_spec (vlen (Registry.gen r)) (ent_idx e')); [done|].
    rewrite destroy_gen by lia.
    destruct (Z.eqb_spec (ent_idx e) (ent_idx e')); [congruence|done].
  - destruct (Registry.alive r e) eqn:Hal.
    + apply Hdead. by apply destroy_kills.
    + by rewrite !(Hdead r Hal).
Qed.

Lemma X4_destroy_is_local_witness :
  Registry.alive (Registry.destroy (Registry.create demo_reg).2 demo_player) (make_ent 1 1)
  = Registry.alive (Registry.create demo_reg).2 (make_ent 1 1) /\
  Registry.destroy (Registry.destroy (Registry.create demo_reg).2 demo_player) demo_player
  = Registry.destroy (Registry.create demo_reg).2 demo_player /\
  (Registry.alive (Registry.create demo_reg).2 demo_player = false ->
   Registry.destroy (Registry.create demo_reg).2 demo_player = (Registry.create demo_reg).2).
Proof.
  apply (X4_destroy_is_local (Registry.create demo_reg).2 demo_player (make_ent 1 1)).
  vm_compute. lia.
Defined.


(** X5: a slot has at most one live handle: two [u32] handles that are both
    alive and name the same slot are equal. *)
Theorem X5_one_live_handle_per_slot (r : Registry.t) (e1 e2 : Entity) :
  is_u32 e1 -> is_u32 e2 ->
  Registry.alive r e1 = true -> Registry.alive r e2 = true ->
  ent_idx e1 = ent_idx e2 -> e1 = e2.
Proof.
  intros H1 H2 [_ Hg1]%alive_spec [_ Hg2]%alive_spec Hidx.
  rewrite Hidx, Hg2 in Hg1. injection Hg1 as Hg.
  rewrite <- (unpack_pack e1 H1), <- (unpack_pack e2 H2). congruence.
Qed.

Lemma X5_one_live_handle_per_slot_witness : demo_player = make_ent 0 1.
Proof.
  apply (X5_one_live_handle_per_slot demo_reg demo_player (make_ent 0 1));
    try reflexivity; vm_compute; split; congruence.
Defined.


(** X6: slots are reused last-freed-first with a bumped generation: the
    [create] that follows a successful [destroy e] returns the handle of
    the same slot whose generation is that of [e] plus one (modulo 2^16). *)
Theorem X6_create_reuses_freed_slot (r : Registry.t) (e : Entity) :
  Registry.alive r e = true ->
  (Registry.create (Registry.destroy r e)).1
  = make_ent (ent_idx e) (to_u16 (ent_gen e + 1)).
Proof.
  intros Hal. pose proof (ent_idx_range e) as Hi. unfold is_u16 in Hi.
  pose proof Hal as [Hlt Hg]%alive_spec.
  assert (Registry.free_list (Registry.destroy r e) = Registry.free_list r ++ [ent_idx e])
    as Hfl.
  { unfold Registry.destroy. unfold Registry.alive in Hal.
    destruct (Z.leb_spec (vlen (Registry.gen r)) (ent_idx e)); [lia|]. by rewrite Hal. }
  unfold Registry.create. rewrite Hfl, last_snoc. cbn [fst Registry.gen].
  rewrite destroy_gen by lia. rewrite Z.eqb_refl, Hal. cbn [andb].
  by rewrite (vgetz_vget _ _ _ Hg).
Qed.

Lemma X6_create_reuses_freed_slot_witness :
  (Registry.create (Registry.destroy demo_reg demo_player)).1
  = make_ent (ent_idx demo_player) (to_u16 (ent_gen demo_player + 1)).
Proof.
  apply (X6_create_reuses_freed_slot demo_reg demo_player). reflexivity.
Defined.

(** ** Pool: reads after writes *)

Section PoolReads.
Context {T : Type}.
Implicit Types (p : Pool.t T) (e : Entity).

(** On a consistent pool, [get] finds the row owned by the slot of the
    handle, wherever it stands. *)
Lemma wf_get_row p e x :
  pool_wf p ->
  Pool.get p e = Some x <->
  exists d, vget (Pool.dense_idx p) d = Some (ent_idx e) /\
            vget (Pool.dense_val p) d = Some x.
Proof.
  intros Hwf. unfold Pool.get. split.
  - destruct (Pool.slot p e) as [di|] eqn:Hs; [|done]. simpl. intros Hx.
    exists di. split; [by apply slot_owner|done].
  - intros (d & Hrow & Hx). by rewrite (wf_slot_row p d _ e Hwf Hrow eq_refl).
Qed.

Lemma wf_has_row p e :
  pool_wf p ->
  Pool.has p e = true <-> exists d, vget (Pool.dense_idx p) d = Some (ent_idx e).
Proof.
  intros Hwf. rewrite <- slot_has. split.
  - intros [di Hs]. exists di. by apply slot_owner.
  - intros (d & Hrow). rewrite (wf_slot_row p d _ e Hwf Hrow eq_refl). eauto.
Qed.

Lemma has_ensure_sparse p n e :
  Pool.has (Pool.ensure_sparse n p) e = Pool.has p e.
Proof.
  unfold Pool.ensure_sparse. destruct (Z.ltb_spec (vlen (Pool.sparse p)) n); [|done].
  unfold Pool.has. cbn [Pool.sparse Pool.dense_idx].
  pose proof (ent_idx_range e) as Hi. unfold is_u16 in Hi.
  rewrite vlen_app. unfold vlen at 2. rewrite length_replicate.
  destruct (Z.leb_spec (vlen (Pool.sparse p)) (ent_idx e)).
  - destruct (Z.leb_spec (vlen (Pool.sparse p) + Z.of_nat (Z.to_nat (n - vlen (Pool.sparse p))))
                         (ent_idx e)); [done|].
    assert (vgetz (Pool.sparse p ++ replicate (Z.to_nat (n - vlen (Pool.sparse p))) (-1))
                  (ent_idx e) = -1) as ->; [|done].
    unfold vgetz, vget. destruct (Z.ltb_spec (ent_idx e) 0); [lia|].
    rewrite lookup_app_r by (unfold vlen in *; lia).
    rewrite lookup_replicate_2; [done|]. unfold vlen in *. lia.
  - destruct (Z.leb_spec (vlen (Pool.sparse p) + Z.of_nat (Z.to_nat (n - vlen (Pool.sparse p))))
                         (ent_idx e)); [lia|].
    by rewrite vgetz_app_l.
Qed.

(** The three shapes [add] can leave a consistent pool in, row by row. *)
Lemma add_rows p e v :
  pool_wf p ->
  (Pool.has p e = true /\
   exists di, vget (Pool.dense_idx p) di = Some (ent_idx e) /\
     Pool.dense_idx (Pool.add p e v) = Pool.dense_idx p /\
     Pool.dense_val (Pool.add p e v) = vset (Pool.dense_val p) di v) \/
  (Pool.has p e = false /\
   Pool.dense_idx (Pool.add p e v) = Pool.dense_idx p ++ [ent_idx e] /\
   Pool.dense_val (Pool.add p e v) = Pool.dense_val p ++ [v]).
Proof.
  intros Hwf0. pose proof (ent_idx_range e) as Hi. unfold is_u16 in Hi.
  rewrite <- (has_ensure_sparse p (ent_idx e + 1) e).
  assert (pool_wf (Pool.ensure_sparse (ent_idx e + 1) p)) as Hwf
    by (apply wf_ensure_sparse; [lia|done]).
  assert (Pool.dense_idx (Pool.ensure_sparse (ent_idx e + 1) p) = Pool.dense_idx p) as Hdi
    by (unfold Pool.ensure_sparse; by case_match).
  assert (Pool.dense_val (Pool.ensure_sparse (ent_idx e + 1) p) = Pool.dense_val p) as Hdv
    by (unfold Pool.ensure_sparse; by case_match).
  unfold Pool.add. pose proof (ensure_sparse_len p (ent_idx e + 1)) as Hlen.
  set (q := Pool.ensure_sparse (ent_idx e + 1) p) in *. clearbody q.
  pose proof (wf_dense_len _ Hwf) as Hn. pose proof (vlen_nonneg (Pool.dense_idx q)) as Hn0.
  unfold Pool.has.
  destruct (Z.leb_spec (vlen (Pool.sparse q)) (ent_idx e)); [lia|].
  rewrite to_i32_id by (unfold is_i32; lia).
  destruct (vget_is_Some (Pool.sparse q) (ent_idx e)) as [di Hd]; [lia|].
  rewrite (vgetz_vget _ _ _ Hd).
  destruct (wf_sparse _ Hwf _ _ Hd) as [->|Hrow].
  - right. split; [done|]. simpl. by rewrite Hdi, Hdv.
  - pose proof (vget_Some_lt _ _ _ Hrow) as Hr.
    rewrite (to_usize_id di) by lia.
    destruct (Z.leb_spec 0 di); [|lia].
    destruct (Z.ltb_spec di (vlen (Pool.dense_idx q))); [|lia].
    rewrite bool_decide_eq_true_2 by done. cbn [andb].
    left. split; [done|]. exists di. rewrite <- Hdi, <- Hdv. by split.
Qed.

Lemma get_add_same p e v : pool_wf p -> Pool.get (Pool.add p e v) e = Some v.
Proof.
  intros Hwf. apply (wf_get_row _ _ _ (wf_add p e v Hwf)).
  destruct (add_rows p e v Hwf) as [(_ & di & Hrow & -> & ->)|(_ & -> & ->)].
  - exists di. split; [done|]. apply vget_vset_eq.
    rewrite (wf_vals _ Hwf). by apply vget_Some_lt in Hrow.
  - exists (vlen (Pool.dense_idx p)). split; [apply vget_app_r|].
    rewrite <- (wf_vals _ Hwf). apply vget_app_r.
Qed.

Lemma get_add_other p e v e' :
  pool_wf p -> ent_idx e' <> ent_idx e ->
  Pool.get (Pool.add p e v) e' = Pool.get p e'.
Proof.
  intros Hwf Hne. apply option_eq. intros x.
  rewrite (wf_get_row _ _ _ (wf_add p e v Hwf)), (wf_get_row _ _ _ Hwf).
  pose proof (wf_vals _ Hwf) as Hv.
  destruct (add_rows p e v Hwf) as [(_ & di & Hrow & -> & ->)|(_ & -> & ->)].
  - split; intros (d & Hd & Hx); exists d; (split; [done|]).
    + rewrite vget_vset_ne in Hx; [done|]. intros ->. congruence.
    + rewrite vget_vset_ne; [done|]. intros ->. congruence.
  - split; intros (d & Hd & Hx).
    + destruct (Z.ltb_spec d (vlen (Pool.dense_idx p))).
      * exists d. rewrite vget_app_l in Hd by done.
        rewrite vget_app_l in Hx by lia. done.
      * pose proof (vget_Some_lt _ _ _ Hd) as Hr. rewrite vlen_app in Hr.
        change (vlen [ent_idx e]) with 1 in Hr.
        assert (d = vlen (Pool.dense_idx p)) as -> by lia.
        rewrite vget_app_r in Hd. congruence.
    + exists d. pose proof (vget_Some_lt _ _ _ Hd).
      rewrite !vget_app_l by lia. done.
Qed.

(** X7: on a consistent pool, [add] is an upsert: the handle reads back the
    value just added, whether it overwrote a row or appended one, and the
    pool stays consistent. *)
Theorem X7_get_after_add (p : Pool.t T) (e : Entity) (v : T) :
  pool_wf p ->
  Pool.get (Pool.add p e v) e = Some v /\ Pool.has (Pool.add p e v) e = true /\
  pool_wf (Pool.add p e v).
Proof.
  intros Hwf. pose proof (get_add_same p e v Hwf) as Hg.
  split; [done|]. split; [|by apply wf_add].
  apply slot_has. unfold Pool.get in Hg.
  destruct (Pool.slot (Pool.add p e v) e); [eauto|done].
Qed.

(** X8: on a consistent pool, [add] for one slot leaves the component of
    every other slot as it was. *)
Theorem X8_add_leaves_others (p : Pool.t T) (e e' : Entity) (v : T) :
  pool_wf p -> ent_idx e' <> ent_idx e ->
  Pool.get (Pool.add p e v) e' = Pool.get p e'.
Proof. apply get_add_other. Qed.

Lemma vlist_eq {A} (l k : list A) :
  (forall i, vget l i = vget k i) -> l = k.
Proof.
  intros Heq. apply list_eq. intros i. specialize (Heq (Z.of_nat i)).
  unfold vget in Heq. destruct (Z.ltb_spec (Z.of_nat i) 0); [lia|].
  by rewrite Nat2Z.id in Heq.
Qed.

Lemma removelast_vset_last {A} (l : list A) x :
  removelast (vset l (vlen l - 1) x) = removelast l.
Proof.
  apply vlist_eq. intros i. rewrite !vget_removelast, vlen_vset.
  destruct (Z.ltb_spec i (vlen l - 1)); [|done].
  apply vget_vset_ne. lia.
Qed.

(** What [remove] does to a consistent pool, row by row: nothing when the
    handle has no component; otherwise the last row is written over the row
    of the handle and the last position is dropped. *)
Lemma remove_rows p e :
  pool_wf p ->
  (Pool.has p e = false /\ Pool.remove p e = p) \/
  (Pool.has p e = true /\
   exists di m xl,
     vget (Pool.dense_idx p) di = Some (ent_idx e) /\
     vget (Pool.dense_idx p) (vlen (Pool.dense_idx p) - 1) = Some m /\
     vget (Pool.dense_val p) (vlen (Pool.dense_idx p) - 1) = Some xl /\
     Pool.dense_idx (Pool.remove p e) = removelast (vset (Pool.dense_idx p) di m) /\
     Pool.dense_val (Pool.remove p e) = removelast (vset (Pool.dense_val p) di xl)).
Proof.
  intros Hwf. pose proof (ent_idx_range e) as Hi. unfold is_u16 in Hi.
  pose proof (wf_dense_len _ Hwf) as Hn.
  unfold Pool.remove, Pool.has.
  destruct (Z.leb_spec (vlen (Pool.sparse p)) (ent_idx e)); [by left|].
  destruct (vget_is_Some (Pool.sparse p) (ent_idx e)) as [di Hd]; [lia|].
  rewrite (vgetz_vget _ _ _ Hd).
  destruct (wf_sparse _ Hwf _ _ Hd) as [->|Hrow]; [by left|].
  pose proof (vget_Some_lt _ _ _ Hrow) as Hr.
  destruct (Z.ltb_spec di 0); [lia|]. destruct (Z.leb_spec 0 di); [|lia].
  rewrite to_i32_id by (unfold is_i32; lia).
  destruct (Z.ltb_spec di (vlen (Pool.dense_idx p))); [|lia].
  rewrite bool_decide_eq_true_2 by done. cbn [andb]. right. split; [done|].
  set (n := vlen (Pool.dense_idx p)) in *.
  destruct (vget_is_Some (Pool.dense_idx p) (n - 1)) as [m Hm]; [lia|].
  destruct (vget_is_Some (Pool.dense_val p) (n - 1)) as [xl Hx];
    [rewrite (wf_vals _ Hwf); fold n; lia|].
  exists di, m, xl. split; [done|]. split; [done|]. split; [done|].
  rewrite (to_usize_id (n - 1)), (to_usize_id di) by lia.
  destruct (Z.eqb_spec di (n - 1)) as [->|Hne]; cbn [negb Pool.dense_idx Pool.dense_val].
  - unfold n. rewrite removelast_vset_last.
    rewrite <- (wf_vals _ Hwf). by rewrite removelast_vset_last.
  - by rewrite (vgetz_vget _ _ _ Hm), Hx.
Qed.

Lemma get_remove_other p e e' :
  pool_wf p -> ent_idx e' <> ent_idx e ->
  Pool.get (Pool.remove p e) e' = Pool.get p e'.
Proof.
  intros Hwf Hne.
  destruct (remove_rows p e Hwf) as [[_ ->]|(_ & di & m & xl & Hrow & Hm & Hx & Hdi & Hdv)];
    [done|].
  apply option_eq. intros x.
  rewrite (wf_get_row _ _ _ (wf_remove p e Hwf)), (wf_get_row _ _ _ Hwf), Hdi, Hdv.
  pose proof (wf_vals _ Hwf) as Hv. pose proof (wf_dense_NoDup _ Hwf) as Hnd.
  pose proof (vget_Some_lt _ _ _ Hrow) as Hr.
  set (n := vlen (Pool.dense_idx p)) in *.
  split; intros (d & Hd & Hxd).
  - rewrite vget_removelast, vlen_vset in Hd. rewrite vget_removelast, vlen_vset in Hxd.
    rewrite Hv in Hxd. fold n in Hd, Hxd.
    destruct (Z.ltb_spec d (n - 1)); [|done].
    destruct (decide (d = di)) as [->|Hdd].
    + rewrite vget_vset_eq in Hd by (fold n; lia).
      rewrite vget_vset_eq in Hxd by (rewrite Hv; fold n; lia).
      exists (n - 1). split; congruence.
    + rewrite vget_vset_ne in Hd by done. rewrite vget_vset_ne in Hxd by done.
      by exists d.
  - assert (d <> di) as Hdd by (intros ->; congruence).
    pose proof (vget_Some_lt _ _ _ Hd) as Hdr. fold n in Hdr.
    destruct (decide (d = n - 1)) as [->|Hdl].
    + exists di. rewrite !vget_removelast, !vlen_vset, Hv. fold n.
      destruct (Z.ltb_spec di (n - 1)); [|lia].
      rewrite !vget_vset_eq by (rewrite ?Hv; fold n; lia). split; congruence.
    + exists d. rewrite !vget_removelast, !vlen_vset, Hv. fold n.
      destruct (Z.ltb_spec d (n - 1)); [|lia].
      by rewrite !vget_vset_ne.
Qed.

(** X9: on a consistent pool, [remove] for one slot leaves the component of
    every other slot as it was (the swap with the last row moves a row, it
    does not change what any other handle reads), and the handle removed
    reads "absent". *)
Theorem X9_remove_leaves_others (p : Pool.t T) (e e' : Entity) :
  pool_wf p -> ent_idx e' <> ent_idx e ->
  Pool.get (Pool.remove p e) e' = Pool.get p e' /\
  Pool.get (Pool.remove p e) e = None /\
  pool_wf (Pool.remove p e).
Proof.
  intros Hwf Hne. split; [by apply get_remove_other|].
  split; [apply get_remove|by apply wf_remove].
Qed.

(** X10: the size of a consistent pool follows the components: [add] grows
    it by one exactly when the slot had none, [remove] shrinks it by one
    exactly when the slot had one, and [remove] of a handle without a
    component returns the pool as it is. *)
Theorem X10_size_accounting (p : Pool.t T) (e : Entity) (v : T) :
  pool_wf p ->
  Pool.size (Pool.add p e v) = Pool.size p + (if Pool.has p e then 0 else 1) /\
  Pool.size (Pool.remove p e) = Pool.size p - (if Pool.has p e then 1 else 0) /\
  (Pool.has p e = false -> Pool.remove p e = p).
Proof.
  intros Hwf. unfold Pool.size. split; [|split].
  - destruct (add_rows p e v Hwf) as [(-> & di & _ & -> & _)|(-> & -> & _)]; [lia|].
    rewrite vlen_app. change (vlen [ent_idx e]) with 1. lia.
  - destruct (remove_rows p e Hwf)
      as [[-> ->]|(-> & di & m & xl & Hrow & _ & _ & -> & _)]; [lia|].
    apply vget_Some_lt in Hrow. rewrite vlen_removelast, vlen_vset. lia.
  - intros Hh. destruct (remove_rows p e Hwf) as [[_ ->]|(Hh' & _)]; [done|congruence].
Qed.

End PoolReads.

(** The pool properties at work on a pool holding one row. *)
Lemma X7_get_after_add_witness :
  Pool.get (Pool.add (Pool.add Pool.empty (make_ent 0 1) 7) (make_ent 3 1) 9) (make_ent 3 1)
  = Some 9 /\
  Pool.has (Pool.add (Pool.add Pool.empty (make_ent 0 1) 7) (make_ent 3 1) 9) (make_ent 3 1)
  = true /\
  pool_wf (Pool.add (Pool.add Pool.empty (make_ent 0 1) 7) (make_ent 3 1) 9).
Proof.
  apply (X7_get_after_add (Pool.add Pool.empty (make_ent 0 1) 7) (make_ent 3 1) 9).
  apply wf_add, wf_empty.
Defined.

Lemma X8_add_leaves_others_witness :
  Pool.get (Pool.add (Pool.add Pool.empty (make_ent 0 1) 7) (make_ent 3 1) 9) (make_ent 0 1)
  = Pool.get (Pool.add Pool.empty (make_ent 0 1) 7) (make_ent 0 1).
Proof.
  apply (X8_add_leaves_others (Pool.add Pool.empty (make_ent 0 1) 7)
           (make_ent 3 1) (make_ent 0 1) 9).
  - apply wf_add, wf_empty.
  - vm_compute. lia.
Defined.

Lemma X9_remove_leaves_others_witness :
  Pool.get (Pool.remove (Pool.add (Pool.add Pool.empty (make_ent 0 1) 7) (make_ent 3 1) 9)
              (make_ent 0 1)) (make_ent 3 1)
  = Pool.get (Pool.add (Pool.add Pool.empty (make_ent 0 1) 7) (make_ent 3 1) 9)
      (make_ent 3 1) /\
  Pool.get (Pool.remove (Pool.add (Pool.add Pool.empty (make_ent 0 1) 7) (make_ent 3 1) 9)
              (make_ent 0 1)) (make_ent 0 1) = None /\
  pool_wf (Pool.remove (Pool.add (Pool.add Pool.empty (make_ent 0 1) 7) (make_ent 3 1) 9)
             (make_ent 0 1)).
Proof.
  apply (X9_remove_leaves_others
           (Pool.add (Pool.add Pool.empty (make_ent 0 1) 7) (make_ent 3 1) 9)
           (make_ent 0 1) (make_ent 3 1)).
  - apply wf_add, wf_add, wf_empty.
  - vm_compute. lia.
Defined.

Lemma X10_size_accounting_witness :
  Pool.size (Pool.add (Pool.add Pool.empty (make_ent 0 1) 7) (make_ent 3 1) 9)
  = Pool.size (Pool.add Pool.empty (make_ent 0 1) 7)
    + (if Pool.has (Pool.add Pool.empty (make_ent 0 1) 7) (make_ent 3 1) then 0 else 1) /\
  Pool.size (Pool.remove (Pool.add Pool.empty (make_ent 0 1) 7) (make_ent 3 1))
  = Pool.size (Pool.add Pool.empty (make_ent 0 1) 7)
    - (if Pool.has (Pool.add Pool.empty (make_ent 0 1) 7) (make_ent 3 1) then 1 else 0) /\
  (Pool.has (Pool.add Pool.empty (make_ent 0 1) 7) (make_ent 3 1) = false ->
   Pool.remove (Pool.add Pool.empty (make_ent 0 1) 7) (make_ent 3 1)
   = Pool.add Pool.empty (make_ent 0 1) 7).
Proof.
  apply (X10_size_accounting (Pool.add Pool.empty (make_ent 0 1) 7) (make_ent 3 1) 9).
  apply wf_add, wf_empty.
Defined.

(** ** World: the chunk key *)

Lemma to_i64_mod z :
  World.to_i64 z mod 18446744073709551616 = z mod 18446744073709551616.
Proof.
  unfold World.to_i64.
  rewrite Zminus_mod_idemp_l. f_equal. lia.
Qed.

Lemma to_i64_shifted z :
  exists k, World.to_i64 (z * 4294967296) = Z.shiftl k 32.
Proof.
  unfold World.to_i64.
  pose proof (Z.div_mod (z * 4294967296 + 9223372036854775808) 18446744073709551616
                ltac:(lia)) as Hdm.
  set (q := (z * 4294967296 + 9223372036854775808) / 18446744073709551616) in *.
  exists (z - q * 4294967296). rewrite Z.shiftl_mul_pow2 by lia.
  change (2 ^ 32) with 4294967296. lia.
Qed.

Lemma u32_high_bits b n : 0 <= b < 4294967296 -> 32 <= n -> Z.testbit b n = false.
Proof.
  intros Hb Hn. destruct (Z.eq_dec b 0) as [->|Hne]; [apply Z.bits_0|].
  apply Z.bits_above_log2; [lia|].
  apply Z.lt_le_trans with 32; [|done]. apply Z.log2_lt_pow2; lia.
Qed.

(** The key, read as an unsigned 64-bit value, holds [cx] in its high half
    and [cy] in its low half. *)
Lemma key_val cx cy :
  World.key cx cy mod 18446744073709551616
  = to_u32 cx * 4294967296 + to_u32 cy.
Proof.
  unfold World.key.
  assert (0 <= to_u32 cx < 4294967296) as Hx by (apply Z.mod_pos_bound; lia).
  assert (0 <= to_u32 cy < 4294967296) as Hy by (apply Z.mod_pos_bound; lia).
  rewrite Z.shiftl_mul_pow2 by lia. change (2 ^ 32) with 4294967296.
  destruct (to_i64_shifted (to_u32 cx)) as [k Hk].
  rewrite <- Z.add_nocarry_lxor.
  - rewrite to_i64_mod, <- Zplus_mod_idemp_l, to_i64_mod, Zplus_mod_idemp_l.
    apply Z.mod_small. lia.
  - rewrite Hk. apply Z.bits_inj'. intros n Hn.
    rewrite Z.land_spec, Z.bits_0. destruct (Z.ltb_spec n 32).
    + by rewrite Z.shiftl_spec_low.
    + rewrite (u32_high_bits _ n Hy) by done. apply andb_false_r.
Qed.

Lemma to_u32_inj a b : is_i32 a -> is_i32 b -> to_u32 a = to_u32 b -> a = b.
Proof.
  unfold is_i32, to_u32. intros Ha Hb Heq.
  pose proof (Z.div_mod a 4294967296 ltac:(lia)).
  pose proof (Z.div_mod b 4294967296 ltac:(lia)).
  pose proof (Z.mod_pos_bound a 4294967296 ltac:(lia)).
  pose proof (Z.mod_pos_bound b 4294967296 ltac:(lia)).
  lia.
Qed.

Lemma key_inj cx cy cx' cy' :
  is_i32 cx -> is_i32 cy -> is_i32 cx' -> is_i32 cy' ->
  World.key cx cy = World.key cx' cy' -> cx = cx' /\ cy = cy'.
Proof.
  intros Hx Hy Hx' Hy' Hk.
  pose proof (key_val cx cy) as H1. pose proof (key_val cx' cy') as H2.
  rewrite Hk, H2 in H1.
  assert (0 <= to_u32 cy < 4294967296) by (apply Z.mod_pos_bound; lia).
  assert (0 <= to_u32 cy' < 4294967296) by (apply Z.mod_pos_bound; lia).
  split; apply to_u32_inj; try done; lia.
Qed.

(** X11: the packed chunk key never collides: two pairs of [int] chunk
    coordinates with the same key are the same pair. *)
Theorem X11_chunk_key_injective (cx cy cx' cy' : Z) :
  is_i32 cx -> is_i32 cy -> is_i32 cx' -> is_i32 cy' ->
  World.key cx cy = World.key cx' cy' -> cx = cx' /\ cy = cy'.
Proof. apply key_inj. Qed.

Lemma to_i32_range z : is_i32 (to_i32 z).
Proof.
  unfold is_i32, to_i32.
  pose proof (Z.mod_pos_bound (z + 2147483648) 4294967296 ltac:(lia)). lia.
Qed.

Lemma chunk_coord_i32 wc : is_i32 wc -> is_i32 (World.chunk_coord wc).
Proof.
  intros Hw. unfold World.chunk_coord, CHUNK.
  destruct (Z.leb_spec 0 wc); [|apply to_i32_range].
  unfold is_i32 in *. rewrite Z.quot_div_nonneg by lia.
  split; [|apply Z.div_lt_upper_bound; lia].
  pose proof (Z.div_pos wc 32). lia.
Qed.

(** ** World: reads and writes of other tiles *)

Section WorldReads.
Context (fsin : f32 -> f32).

Lemma get_chunk_fst w cx cy : (World.get_chunk fsin w cx cy).1 = chunk_of fsin w cx cy.
Proof. unfold World.get_chunk, chunk_of. by destruct (World.map w !! _). Qed.

Lemma get_fst w wx wy :
  (World.get fsin w wx wy).1
  = vgetz (tiles (chunk_of fsin w (World.chunk_coord wx) (World.chunk_coord wy)))
          (World.tile_index (World.local_coord wx) (World.local_coord wy)).
Proof.
  unfold World.get. rewrite <- get_chunk_fst. by destruct (World.get_chunk _ _ _ _).
Qed.

(** Creating a chunk on demand changes no chunk that is handed out. *)
Lemma chunk_of_get_chunk w cx cy cx' cy' :
  is_i32 cx -> is_i32 cy -> is_i32 cx' -> is_i32 cy' ->
  chunk_of fsin (World.get_chunk fsin w cx cy).2 cx' cy' = chunk_of fsin w cx' cy'.
Proof.
  intros Hx Hy Hx' Hy'. unfold World.get_chunk, chunk_of.
  destruct (World.map w !! World.key cx cy) as [c|] eqn:Hc; simpl; [done|].
  rewrite lookup_insert. case_decide as Hk; [|done].
  apply key_inj in Hk as [-> ->]; try done. by rewrite Hc.
Qed.

Lemma get_snd w wx wy :
  (World.get fsin w wx wy).2
  = (World.get_chunk fsin w (World.chunk_coord wx) (World.chunk_coord wy)).2.
Proof. unfold World.get. by destruct (World.get_chunk _ _ _ _). Qed.

(** A read leaves every later read as it would have been. *)
Lemma get_get w wx wy wx' wy' :
  is_i32 wx -> is_i32 wy -> is_i32 wx' -> is_i32 wy' ->
  (World.get fsin (World.get fsin w wx wy).2 wx' wy').1 = (World.get fsin w wx' wy').1.
Proof.
  intros. rewrite !get_fst, get_snd.
  by rewrite chunk_of_get_chunk by (by apply chunk_coord_i32).
Qed.

(** X12: reading is observationally pure: a chunk is generated on the first
    read and kept, so, for coordinates from [INT_MIN + 33] up, after a read
    of a tile every tile reads as it would have read before, and reading
    the same tile again changes the world no further. *)
Theorem X12_get_is_pure (w : World.t) (wx wy wx' wy' : Z) :
  in_world wx -> in_world wy -> in_world wx' -> in_world wy' ->
  (World.get fsin (World.get fsin w wx wy).2 wx' wy').1 = (World.get fsin w wx' wy').1 /\
  (World.get fsin (World.get fsin w wx wy).2 wx wy).2 = (World.get fsin w wx wy).2.
Proof.
  intros Hx Hy Hx' Hy'. unfold in_world in *.
  split; [apply get_get; unfold is_i32; lia|].
  rewrite !get_snd.
  pose proof (get_chunk_lookup fsin w (World.chunk_coord wx) (World.chunk_coord wy)) as Hl.
  unfold World.get_chunk at 1. by rewrite Hl.
Qed.

(** X13: [set] writes one tile: for coordinates from [INT_MIN + 33] up,
    every tile other than the one written reads after the write as it
    would have read before. *)
Theorem X13_set_leaves_other_tiles (w : World.t) (wx wy v wx' wy' : Z) :
  -2147483615 <= wx <= 2147483647 -> -2147483615 <= wy <= 2147483647 ->
  -2147483615 <= wx' <= 2147483647 -> -2147483615 <= wy' <= 2147483647 ->
  (wx', wy') <> (wx, wy) ->
  (World.get fsin (World.set fsin w wx wy v) wx' wy').1 = (World.get fsin w wx' wy').1.
Proof.
  intros Hx Hy Hx' Hy' Hne.
  rewrite !get_fst. unfold World.set.
  pose proof (get_chunk_fst w (World.chunk_coord wx) (World.chunk_coord wy)) as Hc.
  pose proof (chunk_of_get_chunk w (World.chunk_coord wx) (World.chunk_coord wy)
                (World.chunk_coord wx') (World.chunk_coord wy')) as Hother.
  destruct (World.get_chunk fsin w _ _) as [c w1]. cbn [fst snd] in *.
  unfold chunk_of at 1. cbn [World.map]. rewrite lookup_insert.
  case_decide as Hk.
  - apply key_inj in Hk as [Hcx Hcy];
      try (apply chunk_coord_i32; unfold is_i32; lia).
    cbn [default tiles]. rewrite <- Hcx, <- Hcy, <- Hc.
    apply vgetz_vset_ne.
    rewrite !chunk_coord_floor in Hcx, Hcy by done.
    rewrite !local_coord_mod by done.
    pose proof (Z.mod_pos_bound wx 32 ltac:(lia)). pose proof (Z.mod_pos_bound wy 32 ltac:(lia)).
    pose proof (Z.mod_pos_bound wx' 32 ltac:(lia)). pose proof (Z.mod_pos_bound wy' 32 ltac:(lia)).
    rewrite !tile_index_val by done. intros Heq. apply Hne.
    pose proof (Z.div_mod wx 32 ltac:(lia)). pose proof (Z.div_mod wy 32 ltac:(lia)).
    pose proof (Z.div_mod wx' 32 ltac:(lia)). pose proof (Z.div_mod wy' 32 ltac:(lia)).
    f_equal; lia.
  - rewrite <- Hother by (apply chunk_coord_i32; unfold is_i32; lia). done.
Qed.

End WorldReads.

Lemma X11_chunk_key_injective_witness : -3 = -3 /\ 5 = 5.
Proof.
  apply (X11_chunk_key_injective (-3) 5 (-3) 5); unfold is_i32; lia.
Defined.

Lemma X12_get_is_pure_witness :
  (World.get sin_zero (World.get sin_zero World.init 3 20).2 (-40) 7).1
  = (World.get sin_zero World.init (-40) 7).1 /\
  (World.get sin_zero (World.get sin_zero World.init 3 20).2 3 20).2
  = (World.get sin_zero World.init 3 20).2.
Proof.
  apply (X12_get_is_pure sin_zero World.init 3 20 (-40) 7); unfold in_world; lia.
Defined.

Lemma X13_set_leaves_other_tiles_witness :
  (World.get sin_zero (World.set sin_zero World.init 3 20 7) 4 20).1
  = (World.get sin_zero World.init 4 20).1.
Proof.
  apply (X13_set_leaves_other_tiles sin_zero World.init 3 20 7 4 20); try lia.
  intros Heq. injection Heq. lia.
Defined.

(** ** Light map: what [build] keeps *)

Lemma grid_le_refl L : grid_le L L.
Proof. intros i x Hx. exists x. split; [done|lia]. Qed.

Lemma grid_le_trans L1 L2 L3 : grid_le L1 L2 -> grid_le L2 L3 -> grid_le L1 L3.
Proof.
  intros H12 H23 i x Hx. destruct (H12 i x Hx) as (x2 & Hx2 & ?).
  destruct (H23 i x2 Hx2) as (x3 & Hx3 & ?). exists x3. split; [done|lia].
Qed.

Lemma grid_le_vset L i old v :
  vget L i = Some old -> old <= v -> grid_le L (vset L i v).
Proof.
  intros Hold Hle j x Hx. rewrite vget_vset. case_decide as Hc.
  - destruct Hc as [-> _]. exists v. split; [done|]. congruence.
  - exists x. split; [done|lia].
Qed.

Section BuildKeeps.
Context (fsin : f32 -> f32).

Lemma push_inv w h amb M L0 L q x y v :
  light_inv w h amb M L0 L q -> to_u8 v <= M ->
  light_inv w h amb M L0 (LightMap.push w h (L, q) x y v).1
            (LightMap.push w h (L, q) x y v).2.
Proof.
  intros [Hok Hcells Hq Hle] Hv.
  pose proof (push_measure w h L q x y v Hok) as [Hok' _].
  split; [done| | |]; clear Hok'; pose proof Hok as (Hw & Hh & Hlen & _);
    unfold LightMap.push;
    (destruct (_ || _) eqn:Hout; [done|]);
    apply orb_false_iff in Hout as [[[Hx Hy]%orb_false_iff Hxw]%orb_false_iff Hyh];
    apply Z.ltb_ge in Hx, Hy; apply Z.leb_gt in Hxw, Hyh;
    rewrite cell_index_val by lia;
    (destruct (vget_is_Some L (y * w + x)) as [old Hold]; [rewrite Hlen; nia|]);
    rewrite (vgetz_vget _ _ _ Hold);
    (destruct (Z.leb_spec (to_u8 v) old); [done|]); cbn [fst snd].
  - unfold vset. case_match; [done|]. apply Forall_insert; [done|].
    unfold vget in Hold. case_match; [done|].
    pose proof (Forall_lookup_1 _ _ _ _ Hcells Hold) as Ho. simpl in Ho. lia.
  - apply Forall_app. split; [done|]. by apply Forall_singleton.
  - eapply grid_le_trans; [done|]. eapply grid_le_vset; [done|lia].
Qed.

Lemma expand_inv w h ox oy amb M L0 world n L q :
  0 <= amb <= M -> M <= 255 -> LightMap.node_v n <= M ->
  light_inv w h amb M L0 L q ->
  light_inv w h amb M L0 (LightMap.expand fsin w h ox oy world n (L, q)).1.1
            (LightMap.expand fsin w h ox oy world n (L, q)).1.2.
Proof.
  intros Hamb HM Hn Hinv. unfold LightMap.expand.
  destruct (World.get fsin world _ _) as [tile world']. cbn [fst snd].
  set (decay := if World.solid tile then 18 else 12).
  set (nv := if _ <? _ then _ else 0).
  assert (to_u8 nv <= M) as Hnv.
  { subst nv. assert (12 <= decay <= 18) by (subst decay; case_match; lia).
    destruct (Z.ltb_spec decay (LightMap.node_v n)).
    - unfold to_u8. rewrite Z.mod_mod by lia. rewrite Z.mod_small by lia. lia.
    - change (to_u8 0) with 0. lia. }
  pose proof (push_inv w h amb M L0 L q (to_i32 (LightMap.node_x n + 1))
                (to_i32 (LightMap.node_y n + 0)) nv Hinv Hnv) as H1.
  destruct (LightMap.push w h (L, q) _ _ nv) as [L1 q1]. cbn [fst snd] in *.
  pose proof (push_inv w h amb M L0 L1 q1 (to_i32 (LightMap.node_x n + -1))
                (to_i32 (LightMap.node_y n + 0)) nv H1 Hnv) as H2.
  destruct (LightMap.push w h (L1, q1) _ _ nv) as [L2 q2]. cbn [fst snd] in *.
  pose proof (push_inv w h amb M L0 L2 q2 (to_i32 (LightMap.node_x n + 0))
                (to_i32 (LightMap.node_y n + 1)) nv H2 Hnv) as H3.
  destruct (LightMap.push w h (L2, q2) _ _ nv) as [L3 q3]. cbn [fst snd] in *.
  pose proof (push_inv w h amb M L0 L3 q3 (to_i32 (LightMap.node_x n + 0))
                (to_i32 (LightMap.node_y n + -1)) nv H3 Hnv) as H4.
  by destruct (LightMap.push w h (L3, q3) _ _ nv) as [L4 q4].
Qed.

Lemma propagate_inv amb M L0 fuel : forall w h ox oy world L q L' world',
  0 <= amb <= M -> M <= 255 ->
  light_inv w h amb M L0 L q ->
  LightMap.propagate fsin fuel w h ox oy world L q = Some (L', world') ->
  light_inv w h amb M L0 L' [].
Proof.
  induction fuel as [|fuel IH]; intros w h ox oy world L q L' world' Hamb HM Hinv Hrun.
  - destruct q; [|done]. injection Hrun as <- <-. done.
  - destruct q as [|n q]; [injection Hrun as <- <-; done|].
    cbn [LightMap.propagate] in Hrun.
    assert (light_inv w h amb M L0 L q) as Hinv'.
    { destruct Hinv as [? ? Hq ?]. split; try done. by apply Forall_cons in Hq as [_ ?]. }
    assert (LightMap.node_v n <= M) as Hn.
    { destruct Hinv as [_ _ Hq _]. by apply Forall_cons in Hq as [? _]. }
    destruct (LightMap.node_v n <=? 1); [by eapply IH|].
    pose proof (expand_inv w h ox oy amb M L0 world n L q Hamb HM Hn Hinv') as He.
    destruct (LightMap.expand fsin w h ox oy world n (L, q)) as [[L1 q1] world1].
    cbn [fst snd] in He. by eapply IH.
Qed.

Lemma same_tiles_refl w : same_tiles fsin w w.
Proof. by split. Qed.

Lemma same_tiles_trans w1 w2 w3 :
  same_tiles fsin w1 w2 -> same_tiles fsin w2 w3 -> same_tiles fsin w1 w3.
Proof.
  intros [Hp1 H1] [Hp2 H2]. split; [congruence|].
  intros x y Hx Hy. by rewrite H2, H1.
Qed.

Lemma get_same_tiles w wx wy :
  is_i32 wx -> is_i32 wy -> same_tiles fsin w (World.get fsin w wx wy).2.
Proof.
  intros Hx Hy. split.
  - rewrite get_snd. unfold World.get_chunk. by case_match.
  - intros x y Hx' Hy'. unfold in_world in *. apply get_get; try done; unfold is_i32; lia.
Qed.

Lemma expand_same_tiles w h ox oy world n st :
  same_tiles fsin world (LightMap.expand fsin w h ox oy world n st).2.
Proof.
  unfold LightMap.expand.
  pose proof (get_same_tiles world (to_i32 (ox + LightMap.node_x n))
                (to_i32 (oy + LightMap.node_y n)) (to_i32_range _) (to_i32_range _)) as Hs.
  by destruct (World.get fsin world _ _) as [tile world'].
Qed.

Lemma propagate_same_tiles fuel : forall w h ox oy world L q L' world',
  LightMap.propagate fsin fuel w h ox oy world L q = Some (L', world') ->
  same_tiles fsin world world'.
Proof.
  induction fuel as [|fuel IH]; intros w h ox oy world L q L' world' Hrun.
  - destruct q; [|done]. injection Hrun as <- <-. apply same_tiles_refl.
  - destruct q as [|n q]; [injection Hrun as <- <-; apply same_tiles_refl|].
    cbn [LightMap.propagate] in Hrun.
    destruct (LightMap.node_v n <=? 1); [by eapply IH|].
    pose proof (expand_same_tiles w h ox oy world n (L, q)) as He.
    destruct (LightMap.expand fsin w h ox oy world n (L, q)) as [[L1 q1] world1].
    cbn [snd] in He. eapply same_tiles_trans; [done|]. by eapply IH.
Qed.

(** Seeding one light leaves its cell at least as bright as the light. *)
Lemma push_raises w h L q x y v :
  LightMap.grid_ok w h L -> 0 <= x < w -> 0 <= y < h ->
  exists c, vget (LightMap.push w h (L, q) x y v).1 (y * w + x) = Some c /\ to_u8 v <= c.
Proof.
  intros (Hw & Hh & Hlen & _) Hx Hy. unfold LightMap.push.
  destruct (Z.ltb_spec x 0), (Z.ltb_spec y 0), (Z.leb_spec w x), (Z.leb_spec h y);
    try lia. cbn [orb].
  rewrite cell_index_val by lia.
  destruct (vget_is_Some L (y * w + x)) as [old Hold]; [rewrite Hlen; nia|].
  rewrite (vgetz_vget _ _ _ Hold).
  destruct (Z.leb_spec (to_u8 v) old); cbn [fst].
  - by exists old.
  - exists (to_u8 v). split; [|lia]. apply vget_vset_eq. by apply vget_Some_lt in Hold.
Qed.

Lemma seed_lights_inv tsz w h ox oy amb M L0 lights : forall L q,
  Forall (fun ls => to_u8 (LightSource.intensity ls) <= M) lights ->
  light_inv w h amb M L0 L q ->
  light_inv w h amb M L0 (LightMap.seed_lights tsz w h ox oy lights (L, q)).1
            (LightMap.seed_lights tsz w h ox oy lights (L, q)).2.
Proof.
  unfold LightMap.seed_lights.
  induction lights as [|ls lights IH]; intros L q Hall Hinv; [done|].
  apply Forall_cons in Hall as [Hls Hall]. cbn [fold_left].
  pose proof (push_inv w h amb M L0 L q
    (to_i32 (floor_to_int (fdiv (vx (LightSource.pos_px ls)) (f32_of_int tsz)) - ox))
    (to_i32 (floor_to_int (fdiv (vy (LightSource.pos_px ls)) (f32_of_int tsz)) - oy))
    (LightSource.intensity ls) Hinv Hls) as Hp.
  destruct (LightMap.push w h (L, q) _ _ _) as [L1 q1]. by apply IH.
Qed.

Lemma light_inv_rebase w h amb M L0 L q :
  light_inv w h amb M L0 L q -> light_inv w h amb M L L q.
Proof. intros [? ? ? _]. split; try done. apply grid_le_refl. Qed.

(** After seeding, the cell of every light that stands inside the grid is
    at least as bright as the light. *)
Lemma seed_lights_raises tsz w h ox oy amb M L0 lights ls : forall L q,
  Forall (fun ls => to_u8 (LightSource.intensity ls) <= M) lights ->
  light_inv w h amb M L0 L q -> ls ∈ lights ->
  let x := to_i32 ((light_tile tsz ls).1 - ox) in
  let y := to_i32 ((light_tile tsz ls).2 - oy) in
  0 <= x < w -> 0 <= y < h ->
  exists c, vget (LightMap.seed_lights tsz w h ox oy lights (L, q)).1 (y * w + x) = Some c /\
            to_u8 (LightSource.intensity ls) <= c.
Proof.
  intros L q Hall Hinv Hin x y Hx Hy.
  apply list_elem_of_split in Hin as (pre & post & ->).
  apply Forall_app in Hall as [Hpre Hpost]. apply Forall_cons in Hpost as [Hls Hpost].
  unfold LightMap.seed_lights. rewrite fold_left_app. cbn [fold_left].
  pose proof (seed_lights_inv tsz w h ox oy amb M L0 pre L q Hpre Hinv) as Ha.
  unfold LightMap.seed_lights in Ha.
  destruct (fold_left _ pre (L, q)) as [La qa]. cbn [fst snd] in Ha.
  pose proof (push_raises w h La qa x y (LightSource.intensity ls) (inv_grid _ _ _ _ _ _ _ Ha)
                Hx Hy) as (c & Hc & Hle).
  pose proof (push_inv w h amb M L0 La qa x y (LightSource.intensity ls) Ha Hls) as Hb.
  fold (light_tile tsz ls).1. change (LightMap.push w h (La, qa)
    (to_i32 (floor_to_int (fdiv (vx (LightSource.pos_px ls)) (f32_of_int tsz)) - ox))
    (to_i32 (floor_to_int (fdiv (vy (LightSource.pos_px ls)) (f32_of_int tsz)) - oy))
    (LightSource.intensity ls)) with (LightMap.push w h (La, qa) x y (LightSource.intensity ls)).
  destruct (LightMap.push w h (La, qa) x y _) as [Lb qb]. cbn [fst snd] in *.
  pose proof (seed_lights_inv tsz w h ox oy amb M Lb post Lb qb Hpost
                (light_inv_rebase _ _ _ _ _ _ _ Hb)) as Hc'.
  unfold LightMap.seed_lights in Hc'.
  destruct (inv_le _ _ _ _ _ _ _ Hc' _ _ Hc) as (c' & Hc2 & Hle').
  exists c'. split; [done|lia].
Qed.

(** Everything [build] guarantees, in one place: it returns, the map is
    well formed and keeps the ambient level, the world reads the same
    tiles, every cell lies between the ambient level and any bound on the
    lights, and a light inside the grid lights its own cell. *)
Lemma build_spec lm world cam lights :
  is_u8 (LightMap.ambient lm) ->
  exists lm' world',
    LightMap.build fsin lm world cam lights = Some (lm', world') /\
    LightMap.wf lm' /\ LightMap.ambient lm' = LightMap.ambient lm /\
    same_tiles fsin world world' /\
    (forall M, LightMap.ambient lm <= M ->
       Forall (fun ls => to_u8 (LightSource.intensity ls) <= M) lights ->
       Forall (fun v => LightMap.ambient lm <= v <= M) (LightMap.L lm')) /\
    (forall ls, ls ∈ lights ->
       let x := to_i32 ((light_tile (World.tile_px world) ls).1 - LightMap.ox lm') in
       let y := to_i32 ((light_tile (World.tile_px world) ls).2 - LightMap.oy lm') in
       0 <= x < LightMap.w lm' -> 0 <= y < LightMap.h lm' ->
       exists c, vget (LightMap.L lm') (y * LightMap.w lm' + x) = Some c /\
                 to_u8 (LightSource.intensity ls) <= c).
Proof.
  intros Hamb. unfold LightMap.build.
  destruct (LightMap.visible_bounds _ cam) as [[[tx0 tx1] ty0] ty1].
  set (w := to_i32 (to_i32 (tx1 - tx0) + 1)). set (h := to_i32 (to_i32 (ty1 - ty0) + 1)).
  pose proof (to_i32_range (to_i32 (tx1 - tx0) + 1)) as Hw.
  pose proof (to_i32_range (to_i32 (ty1 - ty0) + 1)) as Hh.
  fold w in Hw. fold h in Hh. unfold is_i32 in Hw, Hh.
  destruct (Z.leb_spec w 0) as [Hw0|Hw0]; [|destruct (Z.leb_spec h 0) as [Hh0|Hh0]];
    cbn [orb].
  1,2: eexists _, _; split; [done|]; cbn [LightMap.L LightMap.w LightMap.h LightMap.ambient];
       split; [unfold LightMap.wf, vlen; simpl; lia|]; split; [done|];
       split; [apply same_tiles_refl|]; split; [intros; apply Forall_nil_2|];
       intros; lia.
  rewrite (to_usize_id w), (to_usize_id h) by lia.
  rewrite (to_usize_id (w * h)) by nia.
  set (amb := LightMap.ambient lm) in *.
  set (L0 := replicate (Z.to_nat (w * h)) amb).
  assert (forall M, amb <= M <= 255 -> light_inv w h amb M L0 L0 []) as Hinv0.
  { intros M HM. split; [|apply Forall_replicate; lia|apply Forall_nil_2|apply grid_le_refl].
    split; [lia|]. split; [lia|]. split.
    - unfold vlen, L0. rewrite length_replicate. nia.
    - apply Forall_replicate. lia. }
  assert (Forall (fun ls => to_u8 (LightSource.intensity ls) <= 255) lights) as Hall255.
  { apply Forall_forall. intros ls _. pose proof (to_u8_range (LightSource.intensity ls)). lia. }
  assert (amb <= 255) as Hamb255 by (unfold is_u8 in Hamb; lia).
  pose proof (fun M HM Hall => seed_lights_inv (World.tile_px world) w h tx0 ty0 amb M L0
                lights L0 [] Hall (Hinv0 M HM)) as Hinv1.
  pose proof (fun ls => seed_lights_raises (World.tile_px world) w h tx0 ty0 amb 255 L0
                lights ls L0 [] Hall255 (Hinv0 255 ltac:(lia))) as Hraise.
  destruct (LightMap.seed_lights _ w h tx0 ty0 lights (L0, [])) as [L1 q].
  cbn [fst snd] in Hinv1, Hraise.
  pose proof (inv_grid _ _ _ _ _ _ _ (Hinv1 255 ltac:(lia) Hall255)) as Hok1.
  destruct (propagate_total fsin (S (length q + Z.to_nat (LightMap.headroom L1)))
              w h tx0 ty0 world L1 q Hok1) as (L2 & world' & Hrun & Hok2).
  { pose proof (headroom_nonneg L1 ltac:(apply Hok1)). lia. }
  cbv zeta. rewrite Hrun. cbn [mbind option_bind].
  eexists _, _. split; [done|].
  cbn [LightMap.L LightMap.w LightMap.h LightMap.ambient LightMap.ox LightMap.oy].
  split; [destruct Hok2 as (? & ? & ? & _); by split; [|split]|].
  split; [done|]. split; [by eapply propagate_same_tiles|]. split.
  - intros M HM Hall.
    assert (M <= 255 \/ 255 < M) as [HM'|HM'] by lia.
    + eapply inv_cells, propagate_inv; [| |apply Hinv1; [lia|done]|exact Hrun];
        unfold is_u8 in Hamb; lia.
    + eapply Forall_impl.
      * eapply inv_cells, (propagate_inv amb 255);
          [| |apply (Hinv1 255); [lia|done]|exact Hrun]; unfold is_u8 in Hamb; lia.
      * cbn beta. lia.
  - intros ls Hin Hx Hy.
    destruct (Hraise ls Hin Hx Hy) as (c & Hc & Hle).
    pose proof (propagate_inv amb 255 L1 _ w h tx0 ty0 world L1 q L2 world'
                  ltac:(unfold is_u8 in Hamb; lia) ltac:(lia)
                  (light_inv_rebase _ _ _ _ _ _ _ (Hinv1 255 ltac:(lia) Hall255)) Hrun) as Hfin.
    destruct (inv_le _ _ _ _ _ _ _ Hfin _ _ Hc) as (c' & Hc2 & Hle').
    exists c'. split; [done|lia].
Qed.

(** Where the camera's region does not wrap, the grid [build] returns
    covers it: its origin is the top-left tile and it has one column and
    one row per tile. *)
Lemma build_geometry lm world cam lights lm' world' tx0 tx1 ty0 ty1 :
  LightMap.visible_bounds (World.tile_px world) cam = (tx0, tx1, ty0, ty1) ->
  tx0 <= tx1 -> tx1 - tx0 < 2147483647 -> ty0 <= ty1 -> ty1 - ty0 < 2147483647 ->
  LightMap.build fsin lm world cam lights = Some (lm', world') ->
  LightMap.ox lm' = tx0 /\ LightMap.oy lm' = ty0 /\
  LightMap.w lm' = tx1 - tx0 + 1 /\ LightMap.h lm' = ty1 - ty0 + 1.
Proof.
  intros Hvb Hx Hxw Hy Hyh. unfold LightMap.build. rewrite Hvb.
  rewrite (to_i32_id (tx1 - tx0)), (to_i32_id (ty1 - ty0)) by (unfold is_i32; lia).
  rewrite (to_i32_id (tx1 - tx0 + 1)), (to_i32_id (ty1 - ty0 + 1)) by (unfold is_i32; lia).
  destruct (Z.leb_spec (tx1 - tx0 + 1) 0); [lia|].
  destruct (Z.leb_spec (ty1 - ty0 + 1) 0); [lia|]. cbn [orb].
  destruct (LightMap.seed_lights _ _ _ _ _ _ _) as [L1 q]. cbv zeta.
  destruct (LightMap.propagate _ _ _ _ _ _ _ _ _) as [[L2 w2]|]; [|done].
  cbn [mbind option_bind]. by intros [= <- <-].
Qed.

(** X14: for a camera whose visible region of tiles (four tiles of margin
    included) lies between [INT_MIN + 33] and [INT_MAX - 4], so that no
    tile coordinate overflows, rebuilding the light map succeeds: the grid
    covers exactly that region with one cell per tile, keeps the ambient
    level, and although the rebuild may create chunks it never changes
    what any tile of the world reads. *)
Theorem X14_build_preserves_world (lm : LightMap.t) (world : World.t)
  (cam : Camera2D) (lights : list LightSource.t) (tx0 tx1 ty0 ty1 : Z) :
  is_u8 (LightMap.ambient lm) ->
  LightMap.visible_bounds (World.tile_px world) cam = (tx0, tx1, ty0, ty1) ->
  in_world tx0 -> tx0 <= tx1 <= 2147483643 -> tx1 - tx0 < 2147483647 ->
  in_world ty0 -> ty0 <= ty1 <= 2147483643 -> ty1 - ty0 < 2147483647 ->
  exists lm' world',
    LightMap.build fsin lm world cam lights = Some (lm', world') /\
    LightMap.wf lm' /\ LightMap.ambient lm' = LightMap.ambient lm /\
    (LightMap.ox lm' = tx0 /\ LightMap.oy lm' = ty0 /\
     LightMap.w lm' = tx1 - tx0 + 1 /\ LightMap.h lm' = ty1 - ty0 + 1) /\
    World.tile_px world' = World.tile_px world /\
    forall x y, in_world x -> in_world y ->
      (World.get fsin world' x y).1 = (World.get fsin world x y).1.
Proof.
  intros Hamb Hvb _ Hx Hxw _ Hy Hyh.
  destruct (build_spec lm world cam lights Hamb)
    as (lm' & world' & Hb & Hwf & Ha & [Hpx Hsame] & _).
  exists lm', world'. split; [done|]. split; [done|]. split; [done|].
  split; [|done].
  apply (build_geometry lm world cam lights lm' world' tx0 tx1 ty0 ty1); try done; lia.
Qed.

(** X15: after a rebuild every sample of the light map lies between the
    ambient level and the brightest light: no tile is darker than ambient
    and none brighter than the strongest source. *)
Theorem X15_light_levels_bounded (lm : LightMap.t) (world : World.t)
  (cam : Camera2D) (lights : list LightSource.t) (M : Z) :
  is_u8 (LightMap.ambient lm) -> LightMap.ambient lm <= M ->
  Forall (fun ls => 0 <= LightSource.intensity ls <= M) lights ->
  exists lm' world',
    LightMap.build fsin lm world cam lights = Some (lm', world') /\
    forall tx ty, exists v,
      LightMap.sample_tile lm' tx ty = Some v /\ LightMap.ambient lm <= v <= M.
Proof.
  intros Hamb HM Hall.
  destruct (build_spec lm world cam lights Hamb)
    as (lm' & world' & Hb & Hwf & Ha & _ & Hcells & _).
  exists lm', world'. split; [done|]. intros tx ty.
  unfold LightMap.sample_tile. rewrite Ha.
  destruct (_ || _) eqn:Hout; [exists (LightMap.ambient lm); split; [done|lia]|].
  apply orb_false_elim in Hout as [Hout Hy2]. apply orb_false_elim in Hout as [Hout Hx2].
  apply orb_false_elim in Hout as [Hx1 Hy1].
  apply Z.ltb_ge in Hx1, Hy1. apply Z.leb_gt in Hx2, Hy2.
  destruct Hwf as (Hw & Hh & Hlen).
  rewrite cell_index_val by lia.
  destruct (vget_is_Some (LightMap.L lm')
              (to_i32 (ty - LightMap.oy lm') * LightMap.w lm' + to_i32 (tx - LightMap.ox lm')))
    as [v Hv]; [rewrite Hlen; nia|].
  exists v. split; [done|].
  assert (Forall (fun v => LightMap.ambient lm <= v <= M) (LightMap.L lm')) as Hbnd.
  { apply Hcells; [done|]. eapply Forall_impl; [exact Hall|]. cbn beta.
    intros ls Hls. unfold is_u8 in Hamb. unfold to_u8.
    destruct (Z.le_gt_cases 256 (LightSource.intensity ls)).
    - pose proof (Z.mod_pos_bound (LightSource.intensity ls) 256 ltac:(lia)). lia.
    - rewrite Z.mod_small; lia. }
  rewrite Forall_forall in Hbnd. apply Hbnd.
  unfold vget in Hv. destruct (_ <? _); [done|]. by eapply list_elem_of_lookup_2.
Qed.

(** X16: after a rebuild, the tile a light stands on (when it falls inside
    the rebuilt grid) samples at least as bright as that light. *)
Theorem X16_light_reaches_own_tile (lm : LightMap.t) (world : World.t)
  (cam : Camera2D) (lights : list LightSource.t) (ls : LightSource.t) :
  is_u8 (LightMap.ambient lm) -> is_u8 (LightSource.intensity ls) ->
  ls ∈ lights ->
  exists lm' world',
    LightMap.build fsin lm world cam lights = Some (lm', world') /\
    let tx := (light_tile (World.tile_px world) ls).1 in
    let ty := (light_tile (World.tile_px world) ls).2 in
    (0 <= to_i32 (tx - LightMap.ox lm') < LightMap.w lm' ->
     0 <= to_i32 (ty - LightMap.oy lm') < LightMap.h lm' ->
     exists v, LightMap.sample_tile lm' tx ty = Some v /\
               LightSource.intensity ls <= v).
Proof.
  intros Hamb Hi Hin.
  destruct (build_spec lm world cam lights Hamb)
    as (lm' & world' & Hb & Hwf & Ha & _ & _ & Hsrc).
  exists lm', world'. split; [done|]. intros tx ty Hx Hy.
  destruct (Hsrc ls Hin Hx Hy) as (c & Hc & Hle).
  exists c. unfold LightMap.sample_tile. fold tx ty.
  destruct (Z.ltb_spec (to_i32 (tx - LightMap.ox lm')) 0),
           (Z.ltb_spec (to_i32 (ty - LightMap.oy lm')) 0),
           (Z.leb_spec (LightMap.w lm') (to_i32 (tx - LightMap.ox lm'))),
           (Z.leb_spec (LightMap.h lm') (to_i32 (ty - LightMap.oy lm'))); try lia.
  cbn [orb]. destruct Hwf as (Hw & Hh & Hlen).
  rewrite cell_index_val by lia. split; [done|].
  unfold to_u8 in Hle. unfold is_u8 in Hi. rewrite Z.mod_small in Hle; lia.
Qed.

End BuildKeeps.

(** The light-map properties at work on the lighting scenario. *)
Lemma X14_build_preserves_world_witness :
  exists lm' world',
    LightMap.build sin_zero scenario_map floor_world scenario_cam scenario_lights
    = Some (lm', world') /\
    LightMap.wf lm' /\ LightMap.ambient lm' = LightMap.ambient scenario_map /\
    (LightMap.ox lm' = -17 /\ LightMap.oy lm' = -2 /\
     LightMap.w lm' = 16 - -17 + 1 /\ LightMap.h lm' = 21 - -2 + 1) /\
    World.tile_px world' = World.tile_px floor_world /\
    forall x y, in_world x -> in_world y ->
      (World.get sin_zero world' x y).1 = (World.get sin_zero floor_world x y).1.
Proof.
  apply (X14_build_preserves_world sin_zero scenario_map floor_world scenario_cam
           scenario_lights (-17) 16 (-2) 21); unfold in_world; try lia.
  - unfold is_u8. simpl. lia.
  - vm_compute. reflexivity.
Defined.

Lemma X15_light_levels_bounded_witness :
  exists lm' world',
    LightMap.build sin_zero scenario_map floor_world scenario_cam scenario_lights
    = Some (lm', world') /\
    forall tx ty, exists v,
      LightMap.sample_tile lm' tx ty = Some v /\
      LightMap.ambient scenario_map <= v <= 255.
Proof.
  apply (X15_light_levels_bounded sin_zero scenario_map floor_world scenario_cam
           scenario_lights 255).
  - unfold is_u8. simpl. lia.
  - simpl. lia.
  - repeat constructor; simpl; lia.
Defined.

Lemma X16_light_reaches_own_tile_witness :
  exists lm' world',
    LightMap.build sin_zero scenario_map floor_world scenario_cam scenario_lights
    = Some (lm', world') /\
    let tx := (light_tile (World.tile_px floor_world)
                 (LightSource.mk (V2 (f32_of_int 16) (f32_of_int 304)) 10 255)).1 in
    let ty := (light_tile (World.tile_px floor_world)
                 (LightSource.mk (V2 (f32_of_int 16) (f32_of_int 304)) 10 255)).2 in
    (0 <= to_i32 (tx - LightMap.ox lm') < LightMap.w lm' ->
     0 <= to_i32 (ty - LightMap.oy lm') < LightMap.h lm' ->
     exists v, LightMap.sample_tile lm' tx ty = Some v /\ 255 <= v).
Proof.
  apply (X16_light_reaches_own_tile sin_zero scenario_map floor_world scenario_cam
           scenario_lights (LightSource.mk (V2 (f32_of_int 16) (f32_of_int 304)) 10 255)).
  - unfold is_u8. simpl. lia.
  - unfold is_u8. simpl. lia.
  - constructor.
Defined.

(** ** Physics: what a step keeps *)

Lemma same_rows_refl {T} (p : Pool.t T) : same_rows p p.
Proof. by split. Qed.

Lemma same_rows_trans {T} (p1 p2 p3 : Pool.t T) :
  same_rows p1 p2 -> same_rows p2 p3 -> same_rows p1 p3.
Proof. intros (? & ? & ?) (? & ? & ?). split; [|split]; congruence. Qed.

Lemma same_rows_store {T} (p : Pool.t T) e x : same_rows p (store p e x).
Proof.
  unfold store. destruct (Pool.slot p e); [|apply same_rows_refl].
  split; [done|]. split; [done|]. simpl. apply vlen_vset.
Qed.

Lemma same_rows_has {T} (p p' : Pool.t T) e :
  same_rows p p' -> Pool.has p' e = Pool.has p e.
Proof. intros (Hd & Hs & _). unfold Pool.has. by rewrite Hd, Hs. Qed.

Lemma same_rows_wf {T} (p p' : Pool.t T) : same_rows p p' -> pool_wf p -> pool_wf p'.
Proof.
  intros (Hd & Hs & Hl) [Hv Hsl Hde Hsp]. split; rewrite ?Hd, ?Hs, ?Hl; done.
Qed.

Lemma same_shape_refl ecs : same_shape ecs ecs.
Proof. split; try done; apply same_rows_refl. Qed.

Lemma same_shape_trans a b c : same_shape a b -> same_shape b c -> same_shape a c.
Proof.
  intros [] []. split; try congruence; by eapply same_rows_trans.
Qed.

Lemma store_body_shape ecs e b : same_shape ecs (store_body ecs e b).
Proof. split; simpl; try done; apply same_rows_store. Qed.

Lemma same_shape_ready ecs ecs' :
  same_shape ecs ecs' -> physics_ready ecs -> physics_ready ecs'.
Proof.
  intros [Hr _ Hv Hc _ _ _] [Hg Hwf Hov Hoc]. split.
  - by rewrite Hr.
  - by eapply same_rows_wf.
  - unfold owners_in. destruct Hv as (-> & _). by rewrite Hr.
  - unfold owners_in. destruct Hc as (-> & _). by rewrite Hr.
Qed.

Lemma elem_of_scan_tiles min_tx max_tx min_ty max_ty tx ty :
  (tx, ty) ∈ scan_tiles min_tx max_tx min_ty max_ty ->
  min_tx <= tx <= max_tx /\ min_ty <= ty <= max_ty.
Proof.
  unfold scan_tiles. intros (y & Hin & Hy)%list_elem_of_bind.
  apply list_elem_of_bind in Hin as (x & Hin & Hx).
  apply list_elem_of_singleton in Hin. injection Hin as -> ->.
  apply elem_of_seqZ in Hx, Hy. lia.
Qed.

Lemma capped_zero v : capped (set_vel_y v F0).
Proof. reflexivity. Qed.

Lemma capped_gravity dt v : capped (apply_gravity dt v).
Proof.
  unfold capped, apply_gravity, std_min. cbn [set_vel_y CVel.v vy].
  destruct (flt (f32_of_int 3000) (fadd _ _)) eqn:Hlt; [reflexivity|exact Hlt].
Qed.

Lemma Forall_vset {A} (P : A -> Prop) l i x :
  Forall P l -> P x -> Forall P (vset l i x).
Proof. intros Hl Hx. unfold vset. case_match; [done|]. by apply Forall_insert. Qed.

Lemma Forall_vget {A} (P : A -> Prop) l i x :
  Forall P l -> vget l i = Some x -> P x.
Proof.
  intros Hl Hx. unfold vget in Hx. destruct (_ <? _); [done|].
  by eapply (Forall_lookup_1 _ _ _ _ Hl).
Qed.

Lemma Forall_store {T} (P : T -> Prop) (p : Pool.t T) e x :
  Forall P (Pool.dense_val p) -> P x -> Forall P (Pool.dense_val (store p e x)).
Proof.
  intros Hl Hx. unfold store. destruct (Pool.slot p e); [|done].
  by apply Forall_vset.
Qed.

Lemma Forall_get {T} (P : T -> Prop) (p : Pool.t T) e x :
  Forall P (Pool.dense_val p) -> Pool.get p e = Some x -> P x.
Proof.
  intros Hl Hx. unfold Pool.get in Hx.
  destruct (Pool.slot p e) as [di|]; [|done]. by eapply Forall_vget.
Qed.

Section Steps.
Context (fsin : f32 -> f32) (dt : f32).

Lemma push_out_x_keeps tp tx b : keeps_vertical b (push_out_x tp tx b).
Proof.
  unfold keeps_vertical, push_out_x. cbn [body_t body_v body_c].
  repeat case_match; done.
Qed.

Lemma push_out_y_keeps tp ty b : keeps_horizontal b (push_out_y tp ty b).
Proof.
  unfold keeps_horizontal, push_out_y.
  repeat case_match; simplify_eq; done.
Qed.

Lemma keeps_vertical_trans a b c :
  keeps_vertical a b -> keeps_vertical b c -> keeps_vertical a c.
Proof.
  intros (? & ? & ? & ? & ?) (? & ? & ? & ? & ?).
  unfold keeps_vertical. repeat split; congruence.
Qed.

Lemma keeps_horizontal_trans a b c :
  keeps_horizontal a b -> keeps_horizontal b c -> keeps_horizontal a c.
Proof.
  intros (? & ? & ? & ? & ?) (? & ? & ? & ? & ?).
  unfold keeps_horizontal. repeat split; congruence.
Qed.

Lemma scan_step_x_spec tp b world tx ty :
  is_i32 tx -> is_i32 ty -> capped (body_v b) ->
  keeps_vertical b (scan_step_x fsin tp (b, world) (tx, ty)).1 /\
  capped (body_v (scan_step_x fsin tp (b, world) (tx, ty)).1) /\
  same_tiles fsin world (scan_step_x fsin tp (b, world) (tx, ty)).2.
Proof.
  intros Hx Hy Hcap. unfold scan_step_x.
  pose proof (get_same_tiles fsin world tx ty Hx Hy) as Hs.
  destruct (World.get fsin world tx ty) as [tile world1]. cbn [snd] in Hs.
  destruct (overlapping tp b tile tx ty); cbn [fst snd].
  - pose proof (push_out_x_keeps tp tx b) as Hk. split; [done|]. split; [|done].
    unfold capped in *. destruct Hk as (_ & _ & _ & -> & _). done.
  - split; [|done]. unfold keeps_vertical. done.
Qed.

Lemma scan_step_y_spec tp b world tx ty :
  is_i32 tx -> is_i32 ty -> capped (body_v b) ->
  keeps_horizontal b (scan_step_y fsin tp (b, world) (tx, ty)).1 /\
  capped (body_v (scan_step_y fsin tp (b, world) (tx, ty)).1) /\
  same_tiles fsin world (scan_step_y fsin tp (b, world) (tx, ty)).2.
Proof.
  intros Hx Hy Hcap. unfold scan_step_y.
  pose proof (get_same_tiles fsin world tx ty Hx Hy) as Hs.
  destruct (World.get fsin world tx ty) as [tile world1]. cbn [snd] in Hs.
  destruct (overlapping tp b tile tx ty); cbn [fst snd].
  - split; [apply push_out_y_keeps|]. split; [|done].
    unfold push_out_y. repeat case_match; simplify_eq; apply capped_zero.
  - split; [|done]. unfold keeps_horizontal. done.
Qed.

Lemma scan_x_keeps tp tiles : forall st,
  keeps_vertical st.1 (fold_left (scan_step_x fsin tp) tiles st).1.
Proof.
  induction tiles as [|[tx ty] tiles IH]; intros [b world].
  - cbn. unfold keeps_vertical. done.
  - cbn [fold_left]. eapply keeps_vertical_trans; [|apply IH].
    unfold scan_step_x. destruct (World.get fsin world tx ty) as [tile world1].
    destruct (overlapping tp b tile tx ty); cbn [fst].
    + apply push_out_x_keeps.
    + unfold keeps_vertical. done.
Qed.

Lemma scan_y_keeps tp tiles : forall st,
  keeps_horizontal st.1 (fold_left (scan_step_y fsin tp) tiles st).1.
Proof.
  induction tiles as [|[tx ty] tiles IH]; intros [b world].
  - cbn. unfold keeps_horizontal. done.
  - cbn [fold_left]. eapply keeps_horizontal_trans; [|apply IH].
    unfold scan_step_y. destruct (World.get fsin world tx ty) as [tile world1].
    destruct (overlapping tp b tile tx ty); cbn [fst].
    + apply push_out_y_keeps.
    + unfold keeps_horizontal. done.
Qed.

Lemma scan_x_spec tp tiles : forall st,
  Forall (fun txy => is_i32 txy.1 /\ is_i32 txy.2) tiles ->
  capped (body_v st.1) ->
  keeps_vertical st.1 (fold_left (scan_step_x fsin tp) tiles st).1 /\
  capped (body_v (fold_left (scan_step_x fsin tp) tiles st).1) /\
  same_tiles fsin st.2 (fold_left (scan_step_x fsin tp) tiles st).2.
Proof.
  induction tiles as [|[tx ty] tiles IH]; intros [b world] Hall Hcap.
  - cbn. split; [done|]. split; [done|]. apply same_tiles_refl.
  - apply Forall_cons in Hall as [[Hx Hy] Hall]. cbn [fold_left].
    cbn [fst snd] in Hx, Hy, Hcap.
    destruct (scan_step_x_spec tp b world tx ty Hx Hy Hcap) as (Hk & Hc & Hs).
    destruct (IH _ Hall Hc) as (Hk' & Hc' & Hs').
    split; [by eapply keeps_vertical_trans|]. split; [done|].
    by eapply same_tiles_trans.
Qed.

Lemma scan_y_spec tp tiles : forall st,
  Forall (fun txy => is_i32 txy.1 /\ is_i32 txy.2) tiles ->
  capped (body_v st.1) ->
  keeps_horizontal st.1 (fold_left (scan_step_y fsin tp) tiles st).1 /\
  capped (body_v (fold_left (scan_step_y fsin tp) tiles st).1) /\
  same_tiles fsin st.2 (fold_left (scan_step_y fsin tp) tiles st).2.
Proof.
  induction tiles as [|[tx ty] tiles IH]; intros [b world] Hall Hcap.
  - cbn. split; [done|]. split; [done|]. apply same_tiles_refl.
  - apply Forall_cons in Hall as [[Hx Hy] Hall]. cbn [fold_left].
    cbn [fst snd] in Hx, Hy, Hcap.
    destruct (scan_step_y_spec tp b world tx ty Hx Hy Hcap) as (Hk & Hc & Hs).
    destruct (IH _ Hall Hc) as (Hk' & Hc' & Hs').
    split; [by eapply keeps_horizontal_trans|]. split; [done|].
    by eapply same_tiles_trans.
Qed.

Lemma scan_tiles_i32 tp b :
  let '(min_tx, max_tx, min_ty, max_ty) := scan_bounds tp b in
  Forall (fun txy => is_i32 txy.1 /\ is_i32 txy.2)
         (scan_tiles min_tx max_tx min_ty max_ty).
Proof.
  unfold scan_bounds. apply Forall_forall. intros [tx ty] Hin%elem_of_scan_tiles.
  cbn [fst snd].
  pose proof (to_i32_range (floor_div_tile (fsub (vx (CTransform.pos (body_t b)))
    (vx (CCollider.half (body_c b)))) tp - 1)).
  pose proof (to_i32_range (floor_div_tile (fadd (vx (CTransform.pos (body_t b)))
    (vx (CCollider.half (body_c b)))) tp + 1)).
  pose proof (to_i32_range (floor_div_tile (fsub (vy (CTransform.pos (body_t b)))
    (vy (CCollider.half (body_c b)))) tp - 1)).
  pose proof (to_i32_range (floor_div_tile (fadd (vy (CTransform.pos (body_t b)))
    (vy (CCollider.half (body_c b)))) tp + 1)).
  unfold is_i32 in *. lia.
Qed.

(** One axis resolution keeps the shape of the ECS, the tiles of the world
    and the cap on the fall speed. *)
Lemma resolve_axis_x_spec ecs world e :
  Forall capped (Pool.dense_val (ECS.vel ecs)) ->
  same_shape ecs (resolve_axis_x fsin ecs world e dt).1 /\
  same_tiles fsin world (resolve_axis_x fsin ecs world e dt).2 /\
  Forall capped (Pool.dense_val (ECS.vel (resolve_axis_x fsin ecs world e dt).1)).
Proof.
  intros Hcap. unfold resolve_axis_x.
  destruct (Pool.get (ECS.tr ecs) e) as [t|] eqn:Ht;
    [|split; [apply same_shape_refl|split; [apply same_tiles_refl|done]]].
  destruct (Pool.get (ECS.vel ecs) e) as [v|] eqn:Hv;
    [|split; [apply same_shape_refl|split; [apply same_tiles_refl|done]]].
  destruct (Pool.get (ECS.col ecs) e) as [c|] eqn:Hc;
    [|split; [apply same_shape_refl|split; [apply same_tiles_refl|done]]].
  set (b0 := mkBody _ v c).
  pose proof (scan_tiles_i32 (World.tile_px world) b0) as Hall.
  destruct (scan_bounds _ b0) as [[[min_tx max_tx] min_ty] max_ty].
  destruct (scan_x_spec (World.tile_px world) _ (b0, world) Hall) as (_ & Hc' & Hs').
  { cbn [fst body_v b0]. by eapply Forall_get. }
  destruct (fold_left _ _ _) as [b w']. cbn [fst snd] in *.
  split; [apply store_body_shape|]. split; [done|].
  by apply Forall_store.
Qed.

Lemma resolve_axis_y_spec ecs world e :
  Forall capped (Pool.dense_val (ECS.vel ecs)) ->
  same_shape ecs (resolve_axis_y fsin ecs world e dt).1 /\
  same_tiles fsin world (resolve_axis_y fsin ecs world e dt).2 /\
  Forall capped (Pool.dense_val (ECS.vel (resolve_axis_y fsin ecs world e dt).1)).
Proof.
  intros Hcap. unfold resolve_axis_y.
  destruct (Pool.get (ECS.tr ecs) e) as [t|] eqn:Ht;
    [|split; [apply same_shape_refl|split; [apply same_tiles_refl|done]]].
  destruct (Pool.get (ECS.vel ecs) e) as [v|] eqn:Hv;
    [|split; [apply same_shape_refl|split; [apply same_tiles_refl|done]]].
  destruct (Pool.get (ECS.col ecs) e) as [c|] eqn:Hc;
    [|split; [apply same_shape_refl|split; [apply same_tiles_refl|done]]].
  set (b0 := mkBody _ v _).
  pose proof (scan_tiles_i32 (World.tile_px world) b0) as Hall.
  destruct (scan_bounds _ b0) as [[[min_tx max_tx] min_ty] max_ty].
  destruct (scan_y_spec (World.tile_px world) _ (b0, world) Hall) as (_ & Hc' & Hs').
  { cbn [fst body_v b0]. by eapply Forall_get. }
  destruct (fold_left _ _ _) as [b w']. cbn [fst snd] in *.
  split; [apply store_body_shape|]. split; [done|].
  by apply Forall_store.
Qed.

(** The body of the resolution loop returns at every row of the collider
    pool, and keeps what one axis resolution keeps. *)
Lemma resolve_at_spec ecs world i :
  owners_in (ECS.col ecs) (ECS.reg ecs) ->
  0 <= i < Pool.size (ECS.col ecs) ->
  Forall capped (Pool.dense_val (ECS.vel ecs)) ->
  exists st, resolve_at fsin dt (ecs, world) i = Some st /\
    same_shape ecs st.1 /\ same_tiles fsin world st.2 /\
    Forall capped (Pool.dense_val (ECS.vel st.1)).
Proof.
  intros Hown Hi Hcap. unfold resolve_at.
  destruct (vget_is_Some (Pool.dense_idx (ECS.col ecs)) i) as [idx Hrow]; [done|].
  pose proof (Hown _ _ Hrow) as Hr.
  destruct (vget_is_Some (Registry.gen (ECS.reg ecs)) idx) as [g Hg]; [done|].
  unfold Pool.entity_at. rewrite Hrow. cbn [mbind option_bind]. rewrite Hg.
  cbn [mbind option_bind].
  destruct (negb (Registry.alive _ _));
    [eexists; split; [done|]; split; [apply same_shape_refl|];
     split; [apply same_tiles_refl|done]|].
  destruct (_ || _);
    [eexists; split; [done|]; split; [apply same_shape_refl|];
     split; [apply same_tiles_refl|done]|].
  destruct (resolve_axis_x_spec ecs world (make_ent idx g) Hcap) as (Hs1 & Ht1 & Hc1).
  destruct (resolve_axis_x fsin ecs world (make_ent idx g) dt) as [ecs1 w1].
  cbn [fst snd] in *.
  destruct (resolve_axis_y_spec ecs1 w1 (make_ent idx g) Hc1) as (Hs2 & Ht2 & Hc2).
  eexists. split; [done|]. split; [by eapply same_shape_trans|].
  split; [by eapply same_tiles_trans|done].
Qed.

Lemma resolve_loop_spec rows : forall ecs world,
  owners_in (ECS.col ecs) (ECS.reg ecs) ->
  (forall i, i ∈ rows -> 0 <= i < Pool.size (ECS.col ecs)) ->
  Forall capped (Pool.dense_val (ECS.vel ecs)) ->
  exists st, foldlM_opt (resolve_at fsin dt) rows (ecs, world) = Some st /\
    same_shape ecs st.1 /\ same_tiles fsin world st.2 /\
    Forall capped (Pool.dense_val (ECS.vel st.1)).
Proof.
  induction rows as [|i rows IH]; intros ecs world Hown Hin Hcap.
  - eexists. split; [done|]. split; [apply same_shape_refl|].
    split; [apply same_tiles_refl|done].
  - destruct (resolve_at_spec ecs world i Hown) as ([ecs1 w1] & Hstep & Hs1 & Ht1 & Hc1);
      [apply Hin; by left|done|].
    cbn [foldlM_opt]. rewrite Hstep. cbn [mbind option_bind]. cbn [fst snd] in *.
    destruct (IH ecs1 w1) as (st & Hrun & Hs2 & Ht2 & Hc2).
    + unfold owners_in. destruct (shape_col _ _ Hs1) as (-> & _).
      rewrite (shape_reg _ _ Hs1). exact Hown.
    + intros j Hj. unfold Pool.size. destruct (shape_col _ _ Hs1) as (-> & _).
      apply Hin. by right.
    + done.
    + exists st. split; [done|]. split; [by eapply same_shape_trans|].
      split; [by eapply same_tiles_trans|done].
Qed.

(** One step of the physics system on an ECS it can run on: it returns,
    the ECS can be stepped again, no component was added or removed, the
    world reads the same tiles, and no fall speed is above the cap. *)
Lemma sys_physics_spec ecs world :
  physics_ready ecs ->
  exists ecs' world',
    sys_physics fsin ecs world dt = Some (ecs', world') /\
    physics_ready ecs' /\ same_shape ecs ecs' /\ same_tiles fsin world world' /\
    Forall capped (Pool.dense_val (ECS.vel ecs')).
Proof.
  intros Hready. unfold sys_physics.
  destruct (gravity_loop dt (seqZ 0 (Pool.size (ECS.vel ecs))) ecs Hready)
    as (vals & Hgrav & Hlen & Hvals).
  { apply NoDup_seqZ. } { intros i Hi%elem_of_seqZ. lia. }
  rewrite Hgrav. cbn [mbind option_bind].
  set (vel1 := Pool.mk (Pool.dense_idx (ECS.vel ecs)) vals (Pool.sparse (ECS.vel ecs))).
  set (ecs1 := with_vel ecs vel1).
  assert (same_shape ecs ecs1) as Hs1.
  { split; try done; try apply same_rows_refl. }
  assert (Forall capped (Pool.dense_val (ECS.vel ecs1))) as Hcap1.
  { apply Forall_lookup_2. intros n v Hn. cbn [ecs1 with_vel ECS.vel vel1 Pool.dense_val] in Hn.
    pose proof (Hvals (Z.of_nat n)) as Hd. unfold vget at 1 in Hd.
    destruct (Z.ltb_spec (Z.of_nat n) 0); [lia|]. rewrite Nat2Z.id, Hn in Hd.
    rewrite decide_True in Hd.
    - destruct (vget (Pool.dense_val (ECS.vel ecs)) (Z.of_nat n)) as [v0|]; [|done].
      injection Hd as ->. apply capped_gravity.
    - apply elem_of_seqZ. apply lookup_lt_Some in Hn.
      unfold Pool.size. rewrite <- (wf_vals _ (ready_vel _ Hready)), <- Hlen.
      unfold vlen. lia. }
  destruct (resolve_loop_spec (seqZ 0 (Pool.size (ECS.col ecs))) ecs1 world)
    as ([ecs2 w2] & Hrun & Hs2 & Ht2 & Hc2).
  { apply (ready_col_owners _ Hready). }
  { intros i Hi%elem_of_seqZ. cbn. lia. }
  { done. }
  exists ecs2, w2. cbn [fst snd] in *.
  pose proof (same_shape_trans _ _ _ Hs1 Hs2) as Hs.
  split; [exact Hrun|]. split; [by eapply same_shape_ready|]. done.
Qed.

Lemma run_ticks_spec n : forall ecs world,
  physics_ready ecs ->
  exists ecs' world',
    run_ticks fsin n dt (ecs, world) = Some (ecs', world') /\
    physics_ready ecs' /\ same_shape ecs ecs' /\ same_tiles fsin world world'.
Proof.
  induction n as [|n IH]; intros ecs world Hready.
  - exists ecs, world. split; [done|]. split; [done|].
    split; [apply same_shape_refl|apply same_tiles_refl].
  - destruct (sys_physics_spec ecs world Hready) as (ecs1 & w1 & Hstep & Hr1 & Hs1 & Ht1 & _).
    destruct (IH ecs1 w1 Hr1) as (ecs2 & w2 & Hrun & Hr2 & Hs2 & Ht2).
    exists ecs2, w2. cbn [run_ticks fst snd]. rewrite Hstep. cbn [mbind option_bind].
    split; [done|]. split; [done|].
    split; [by eapply same_shape_trans|by eapply same_tiles_trans].
Qed.

(** X17: the physics system never fails and never adds or removes
    anything: on an ECS it can run on, any number of steps returns, the
    result can be stepped again, the registry, the membership and row
    order of every pool and the Player, Sprite and Light pools are as
    before, and every tile of the world from [INT_MIN + 33] up reads as
    before. *)
Theorem X17_physics_never_fails (n : nat) (ecs : ECS.t) (world : World.t) :
  physics_ready ecs ->
  exists ecs' world',
    run_ticks fsin n dt (ecs, world) = Some (ecs', world') /\
    physics_ready ecs' /\ same_shape ecs ecs' /\ same_tiles fsin world world'.
Proof. apply run_ticks_spec. Qed.

(** X18: terminal velocity: after a step of the physics system no
    Velocity component has [v.y] above 3000, whatever it was before. *)
Theorem X18_fall_speed_capped (ecs : ECS.t) (world : World.t) :
  physics_ready ecs ->
  exists ecs' world',
    sys_physics fsin ecs world dt = Some (ecs', world') /\
    forall e v, Pool.get (ECS.vel ecs') e = Some v ->
                flt (f32_of_int 3000) (vy (CVel.v v)) = false.
Proof.
  intros Hready.
  destruct (sys_physics_spec ecs world Hready) as (ecs' & w' & Hstep & _ & _ & _ & Hcap).
  exists ecs', w'. split; [done|]. intros e v Hv. by eapply (Forall_get capped).
Qed.

(** X19: the two axes are resolved separately: for an entity with
    Transform, Velocity and Collider, [resolve_axis_x] leaves the vertical
    position and speed and the whole collider (so [on_ground]) as they
    were, and [resolve_axis_y] leaves the horizontal position and speed and
    the half extents as they were; neither touches rotation or scale. *)
Theorem X19_axes_resolved_separately (ecs : ECS.t) (world : World.t) (e : Entity)
  (t : CTransform.t) (v : CVel.t) (c : CCollider.t) :
  Pool.get (ECS.tr ecs) e = Some t -> Pool.get (ECS.vel ecs) e = Some v ->
  Pool.get (ECS.col ecs) e = Some c ->
  (exists b, Pool.get (ECS.tr (resolve_axis_x fsin ecs world e dt).1) e = Some (body_t b) /\
             Pool.get (ECS.vel (resolve_axis_x fsin ecs world e dt).1) e = Some (body_v b) /\
             Pool.get (ECS.col (resolve_axis_x fsin ecs world e dt).1) e = Some (body_c b) /\
             keeps_vertical (mkBody t v c) b) /\
  (exists b, Pool.get (ECS.tr (resolve_axis_y fsin ecs world e dt).1) e = Some (body_t b) /\
             Pool.get (ECS.vel (resolve_axis_y fsin ecs world e dt).1) e = Some (body_v b) /\
             Pool.get (ECS.col (resolve_axis_y fsin ecs world e dt).1) e = Some (body_c b) /\
             keeps_horizontal (mkBody t v c) b).
Proof.
  intros Ht Hv Hc. split.
  - unfold resolve_axis_x. rewrite Ht, Hv, Hc.
    set (b0 := mkBody _ v c).
    destruct (scan_bounds _ b0) as [[[min_tx max_tx] min_ty] max_ty].
    pose proof (scan_x_keeps (World.tile_px world)
                  (scan_tiles min_tx max_tx min_ty max_ty) (b0, world)) as Hk.
    destruct (fold_left _ _ _) as [b w']. cbn [fst snd] in *.
    exists b. unfold store_body. cbn [ECS.tr ECS.vel ECS.col].
    rewrite !get_store_same by (by eexists).
    split; [done|]. split; [done|]. split; [done|].
    eapply keeps_vertical_trans; [|exact Hk]. unfold keeps_vertical. by destruct t.
  - unfold resolve_axis_y. rewrite Ht, Hv, Hc.
    set (b0 := mkBody _ v _).
    destruct (scan_bounds _ b0) as [[[min_tx max_tx] min_ty] max_ty].
    pose proof (scan_y_keeps (World.tile_px world)
                  (scan_tiles min_tx max_tx min_ty max_ty) (b0, world)) as Hk.
    destruct (fold_left _ _ _) as [b w']. cbn [fst snd] in *.
    exists b. unfold store_body. cbn [ECS.tr ECS.vel ECS.col].
    rewrite !get_store_same by (by eexists).
    split; [done|]. split; [done|]. split; [done|].
    eapply keeps_horizontal_trans; [|exact Hk]. unfold keeps_horizontal. by destruct t, c.
Qed.

(** X20: an axis resolution is local to its entity: every entity of
    another slot keeps its Transform, Velocity and Collider, and the
    registry, the collider rows and the Player, Sprite and Light pools are
    untouched. *)
Theorem X20_resolve_is_local (ecs : ECS.t) (world : World.t) (e e' : Entity) :
  ent_idx e' <> ent_idx e ->
  frame e' ecs (resolve_axis_x fsin ecs world e dt).1 /\
  frame e' ecs (resolve_axis_y fsin ecs world e dt).1.
Proof.
  intros Hne. split.
  - unfold resolve_axis_x. repeat case_match; try apply frame_refl.
    cbn [fst]. by apply store_body_frame.
  - unfold resolve_axis_y. repeat case_match; try apply frame_refl.
    cbn [fst]. by apply store_body_frame.
Qed.

End Steps.

(** The physics properties at work on the demo entities. *)
Lemma landing_ready : physics_ready landing_ecs.
Proof.
  assert (forall T (x : T), owners_in (Pool.add Pool.empty demo_player x) demo_reg) as Hown.
  { intros T x i idx Hrow. pose proof (vget_Some_lt _ _ _ Hrow) as Hr.
    change (vlen _) with 1 in Hr. assert (i = 0) as -> by lia.
    vm_compute in Hrow. injection Hrow as <-. change (vlen _) with 1. lia. }
  split.
  - repeat constructor; unfold is_u16; lia.
  - apply wf_add, wf_empty.
  - apply Hown.
  - apply Hown.
Qed.

Lemma X17_physics_never_fails_witness :
  exists ecs' world',
    run_ticks sin_zero 3 tick (landing_ecs, floor_world) = Some (ecs', world') /\
    physics_ready ecs' /\ same_shape landing_ecs ecs' /\
    same_tiles sin_zero floor_world world'.
Proof.
  apply (X17_physics_never_fails sin_zero tick 3 landing_ecs floor_world).
  apply landing_ready.
Defined.

Lemma X18_fall_speed_capped_witness :
  exists ecs' world',
    sys_physics sin_zero lone_vel_ecs World.init tick = Some (ecs', world') /\
    forall e v, Pool.get (ECS.vel ecs') e = Some v ->
                flt (f32_of_int 3000) (vy (CVel.v v)) = false.
Proof.
  apply (X18_fall_speed_capped sin_zero tick lone_vel_ecs World.init).
  apply lone_vel_ready.
Defined.

Lemma X19_axes_resolved_separately_witness :
  exists b,
    Pool.get (ECS.tr (resolve_axis_x sin_zero player_ecs floor_world demo_player tick).1)
             demo_player = Some (body_t b) /\
    Pool.get (ECS.vel (resolve_axis_x sin_zero player_ecs floor_world demo_player tick).1)
             demo_player = Some (body_v b) /\
    Pool.get (ECS.col (resolve_axis_x sin_zero player_ecs floor_world demo_player tick).1)
             demo_player = Some (body_c b) /\
    keeps_vertical
      (mkBody (CTransform.mk (V2 F0 (f32_of_int 200)) F0 (V2 F1 F1))
              (CVel.mk (V2 F0 F0))
              (CCollider.mk (V2 (f32_of_int 14) (f32_of_int 20)) false)) b.
Proof.
  apply (X19_axes_resolved_separately sin_zero tick player_ecs floor_world demo_player
           (CTransform.mk (V2 F0 (f32_of_int 200)) F0 (V2 F1 F1))
           (CVel.mk (V2 F0 F0))
           (CCollider.mk (V2 (f32_of_int 14) (f32_of_int 20)) false)
           eq_refl eq_refl eq_refl).
Defined.

Lemma X20_resolve_is_local_witness :
  frame (make_ent 1 1) player_ecs
        (resolve_axis_x sin_zero player_ecs floor_world demo_player tick).1 /\
  frame (make_ent 1 1) player_ecs
        (resolve_axis_y sin_zero player_ecs floor_world demo_player tick).1.
Proof.
  apply (X20_resolve_is_local sin_zero tick player_ecs floor_world demo_player
           (make_ent 1 1)).
  vm_compute. lia.
Defined.

(** ** Colours *)

Lemma lor_disjoint k hi lo :
  0 <= k -> 0 <= lo < 2 ^ k -> Z.lor (Z.shiftl hi k) lo = hi * 2 ^ k + lo.
Proof.
  intros Hk Hlo.
  assert (Z.land (Z.shiftl hi k) lo = 0) as Hland.
  { apply Z.bits_inj'. intros n Hn. rewrite Z.land_spec, Z.bits_0.
    destruct (Z.ltb_spec n k).
    - by rewrite Z.shiftl_spec_low.
    - destruct (Z.eq_dec lo 0) as [->|Hne]; [by rewrite Z.bits_0, andb_false_r|].
      rewrite (Z.bits_above_log2 lo n); [apply andb_false_r|lia|].
      apply Z.lt_le_trans with k; [|done]. apply Z.log2_lt_pow2; lia. }
  rewrite <- Z.lxor_lor by done. rewrite <- Z.add_nocarry_lxor by done.
  by rewrite Z.shiftl_mul_pow2.
Qed.

Lemma land_255 x : Z.land x 255 = x mod 256.
Proof. change 255 with (Z.ones 8). by rewrite Z.land_ones. Qed.

Lemma RGBA_val r g b a :
  Color.RGBA r g b a
  = (a mod 256) * 16777216 + (r mod 256) * 65536 + (g mod 256) * 256 + b mod 256.
Proof.
  unfold Color.RGBA. rewrite !land_255.
  pose proof (Z.mod_pos_bound a 256 ltac:(lia)).
  pose proof (Z.mod_pos_bound r 256 ltac:(lia)).
  pose proof (Z.mod_pos_bound g 256 ltac:(lia)).
  pose proof (Z.mod_pos_bound b 256 ltac:(lia)).
  set (a' := a mod 256) in *. set (r' := r mod 256) in *.
  set (g' := g mod 256) in *. set (b' := b mod 256) in *.
  unfold to_u32. rewrite !Z.shiftl_mul_pow2 by lia.
  rewrite !Z.mod_small by lia.
  rewrite <- (Z.shiftl_mul_pow2 a' 24) by lia.
  rewrite (lor_disjoint 24) by lia.
  replace (a' * 2 ^ 24 + r' * 2 ^ 16) with ((a' * 256 + r') * 2 ^ 16) by lia.
  rewrite <- (Z.shiftl_mul_pow2 _ 16) by lia.
  rewrite (lor_disjoint 16) by lia.
  replace ((a' * 256 + r') * 2 ^ 16 + g' * 2 ^ 8)
    with (((a' * 256 + r') * 256 + g') * 2 ^ 8) by lia.
  rewrite <- (Z.shiftl_mul_pow2 _ 8) by lia.
  rewrite (lor_disjoint 8) by lia. lia.
Qed.

Lemma channels_val c :
  Color.A c = (c / 16777216) mod 256 /\ Color.R c = (c / 65536) mod 256 /\
  Color.G c = (c / 256) mod 256 /\ Color.B c = c mod 256.
Proof.
  unfold Color.A, Color.R, Color.G, Color.B. rewrite !land_255.
  rewrite !Z.shiftr_div_pow2 by lia. change (2 ^ 0) with 1. rewrite Z.div_1_r. done.
Qed.

Lemma channel_range c :
  0 <= Color.A c < 256 /\ 0 <= Color.R c < 256 /\
  0 <= Color.G c < 256 /\ 0 <= Color.B c < 256.
Proof.
  destruct (channels_val c) as (-> & -> & -> & ->).
  repeat split; apply Z.mod_pos_bound; lia.
Qed.

Lemma channels_RGBA r g b a :
  Color.A (Color.RGBA r g b a) = a mod 256 /\ Color.R (Color.RGBA r g b a) = r mod 256 /\
  Color.G (Color.RGBA r g b a) = g mod 256 /\ Color.B (Color.RGBA r g b a) = b mod 256.
Proof.
  destruct (channels_val (Color.RGBA r g b a)) as (-> & -> & -> & ->).
  rewrite RGBA_val.
  pose proof (Z.mod_pos_bound a 256 ltac:(lia)).
  pose proof (Z.mod_pos_bound r 256 ltac:(lia)).
  pose proof (Z.mod_pos_bound g 256 ltac:(lia)).
  pose proof (Z.mod_pos_bound b 256 ltac:(lia)).
  set (a' := a mod 256) in *. set (r' := r mod 256) in *.
  set (g' := g mod 256) in *. set (b' := b mod 256) in *.
  repeat split; Z.div_mod_to_equations; lia.
Qed.

Lemma RGBA_u32 r g b a : is_u32 (Color.RGBA r g b a).
Proof.
  rewrite RGBA_val. unfold is_u32.
  pose proof (Z.mod_pos_bound a 256 ltac:(lia)).
  pose proof (Z.mod_pos_bound r 256 ltac:(lia)).
  pose proof (Z.mod_pos_bound g 256 ltac:(lia)).
  pose proof (Z.mod_pos_bound b 256 ltac:(lia)). lia.
Qed.

Lemma RGBA_channels c :
  is_u32 c -> Color.RGBA (Color.R c) (Color.G c) (Color.B c) (Color.A c) = c.
Proof.
  unfold is_u32. intros Hc. rewrite RGBA_val.
  destruct (channels_val c) as (-> & -> & -> & ->).
  rewrite !Z.mod_mod by lia. Z.div_mod_to_equations. lia.
Qed.

(** X21: a colour packs its four channels without loss: each channel of
    [RGBA r g b a] is the low byte of the argument given for it, the packed
    colour is a [u32], and every [u32] colour is rebuilt from its own four
    channels. *)
Theorem X21_colour_round_trip (r g b a c : Z) :
  is_u32 c ->
  Color.R (Color.RGBA r g b a) = r mod 256 /\ Color.G (Color.RGBA r g b a) = g mod 256 /\
  Color.B (Color.RGBA r g b a) = b mod 256 /\ Color.A (Color.RGBA r g b a) = a mod 256 /\
  is_u32 (Color.RGBA r g b a) /\
  Color.RGBA (Color.R c) (Color.G c) (Color.B c) (Color.A c) = c.
Proof.
  intros Hc. destruct (channels_RGBA r g b a) as (Ha & Hr & Hg & Hb).
  repeat split; try done; try apply RGBA_u32. by apply RGBA_channels.
Qed.

Lemma X21_colour_round_trip_witness :
  Color.R (Color.RGBA 300 2 3 4) = 300 mod 256 /\
  Color.G (Color.RGBA 300 2 3 4) = 2 mod 256 /\
  Color.B (Color.RGBA 300 2 3 4) = 3 mod 256 /\
  Color.A (Color.RGBA 300 2 3 4) = 4 mod 256 /\
  is_u32 (Color.RGBA 300 2 3 4) /\
  Color.RGBA (Color.R 4278255360) (Color.G 4278255360) (Color.B 4278255360)
             (Color.A 4278255360) = 4278255360.
Proof.
  apply (X21_colour_round_trip 300 2 3 4 4278255360). unfold is_u32. lia.
Defined.

Lemma mix_val s d sa :
  0 <= s < 256 -> 0 <= d < 256 -> 0 < sa < 255 ->
  Color.mix s d sa (to_u32 (255 - sa)) = (s * sa + d * (255 - sa)) / 255.
Proof.
  intros Hs Hd Ha. unfold Color.mix, to_u32.
  rewrite (Z.mod_small (255 - sa)) by lia.
  rewrite (Z.mod_small (s * sa)) by nia.
  rewrite (Z.mod_small (d * (255 - sa))) by nia.
  rewrite Z.mod_small by nia. done.
Qed.

Lemma mix_between s d sa :
  0 <= s < 256 -> 0 <= d < 256 -> 0 < sa < 255 ->
  Z.min s d <= Color.mix s d sa (to_u32 (255 - sa)) <= Z.max s d.
Proof.
  intros Hs Hd Ha. rewrite mix_val by done. split.
  - apply Z.div_le_lower_bound; [lia|]. nia.
  - apply Z.div_le_upper_bound; [lia|]. nia.
Qed.

(** X22: [blend_over] composites [src] over [dst]: an opaque source
    replaces the destination, a fully transparent one leaves it, and in
    between the result is opaque and each of its colour channels lies
    between the channels of source and destination. *)
Theorem X22_blend_over_between (dst src : Z) :
  is_u32 dst -> is_u32 src ->
  is_u32 (Color.blend_over dst src) /\
  (Color.A src = 255 -> Color.blend_over dst src = src) /\
  (Color.A src = 0 -> Color.blend_over dst src = dst) /\
  (0 < Color.A src < 255 ->
   Color.A (Color.blend_over dst src) = 255 /\
   Z.min (Color.R src) (Color.R dst) <= Color.R (Color.blend_over dst src)
     <= Z.max (Color.R src) (Color.R dst) /\
   Z.min (Color.G src) (Color.G dst) <= Color.G (Color.blend_over dst src)
     <= Z.max (Color.G src) (Color.G dst) /\
   Z.min (Color.B src) (Color.B dst) <= Color.B (Color.blend_over dst src)
     <= Z.max (Color.B src) (Color.B dst)).
Proof.
  intros Hd Hs. unfold Color.blend_over.
  pose proof (channel_range src) as (Ha & Hr & Hg & Hb).
  pose proof (channel_range dst) as (Ha' & Hr' & Hg' & Hb').
  destruct (Z.eqb_spec (Color.A src) 255) as [H255|H255];
    [split; [done|]; split; [done|]; split; intros; lia|].
  destruct (Z.eqb_spec (Color.A src) 0) as [H0|H0];
    [split; [done|]; split; [intros; lia|]; split; [done|]; intros; lia|].
  split; [apply RGBA_u32|]. split; [done|]. split; [done|]. intros Hmid.
  destruct (channels_RGBA
              (Color.mix (Color.R src) (Color.R dst) (Color.A src) (to_u32 (255 - Color.A src)))
              (Color.mix (Color.G src) (Color.G dst) (Color.A src) (to_u32 (255 - Color.A src)))
              (Color.mix (Color.B src) (Color.B dst) (Color.A src) (to_u32 (255 - Color.A src)))
              255) as (-> & -> & -> & ->).
  pose proof (mix_between (Color.R src) (Color.R dst) (Color.A src) Hr Hr' Hmid).
  pose proof (mix_between (Color.G src) (Color.G dst) (Color.A src) Hg Hg' Hmid).
  pose proof (mix_between (Color.B src) (Color.B dst) (Color.A src) Hb Hb' Hmid).
  rewrite !Z.mod_small by lia. split; [done|]. done.
Qed.

Lemma X22_blend_over_between_witness :
  is_u32 (Color.blend_over 4278190335 2164195328).
Proof.
  apply (X22_blend_over_between 4278190335 2164195328); unfold is_u32; lia.
Defined.

Lemma scale_val x y : 0 <= x < 256 -> 0 <= y < 256 -> to_u32 (x * y) / 255 = x * y / 255.
Proof. intros Hx Hy. unfold to_u32. rewrite Z.mod_small by nia. done. Qed.

Lemma scale_le x y : 0 <= x < 256 -> 0 <= y < 256 -> 0 <= x * y / 255 <= x.
Proof.
  intros Hx Hy. split; [apply Z.div_pos; nia|].
  apply Z.div_le_upper_bound; [lia|]. nia.
Qed.

(** X23: tinting: the white tint leaves a colour as it is, tinting is
    commutative, and no channel of the result is above the channel of the
    colour tinted. *)
Theorem X23_tint_never_brightens (c tint : Z) :
  is_u32 c ->
  Color.mul_color c Color.white = c /\
  Color.mul_color c tint = Color.mul_color tint c /\
  Color.R (Color.mul_color c tint) <= Color.R c /\
  Color.G (Color.mul_color c tint) <= Color.G c /\
  Color.B (Color.mul_color c tint) <= Color.B c /\
  Color.A (Color.mul_color c tint) <= Color.A c.
Proof.
  intros Hc.
  pose proof (channel_range c) as (Ha & Hr & Hg & Hb).
  pose proof (channel_range tint) as (Ha' & Hr' & Hg' & Hb').
  split; [|split].
  - unfold Color.mul_color.
    change (Color.R Color.white) with 255. change (Color.G Color.white) with 255.
    change (Color.B Color.white) with 255. change (Color.A Color.white) with 255.
    rewrite !scale_val by lia. rewrite !Z.div_mul by lia. by apply RGBA_channels.
  - unfold Color.mul_color.
    by rewrite (Z.mul_comm (Color.R c)), (Z.mul_comm (Color.G c)),
               (Z.mul_comm (Color.B c)), (Z.mul_comm (Color.A c)).
  - unfold Color.mul_color.
    destruct (channels_RGBA (to_u32 (Color.R c * Color.R tint) / 255)
                (to_u32 (Color.G c * Color.G tint) / 255)
                (to_u32 (Color.B c * Color.B tint) / 255)
                (to_u32 (Color.A c * Color.A tint) / 255)) as (-> & -> & -> & ->).
    rewrite !scale_val by lia.
    pose proof (scale_le _ _ Hr Hr'). pose proof (scale_le _ _ Hg Hg').
    pose proof (scale_le _ _ Hb Hb'). pose proof (scale_le _ _ Ha Ha').
    rewrite !Z.mod_small by lia. lia.
Qed.

Lemma X23_tint_never_brightens_witness :
  Color.mul_color 4286611584 Color.white = 4286611584.
Proof.
  apply (X23_tint_never_brightens 4286611584 Color.white). unfold is_u32. lia.
Defined.

(** ** Texel reads *)

Lemma clampi_range x a b : a <= b -> a <= clampi x a b <= b.
Proof.
  intros Hab. unfold clampi.
  destruct (Z.ltb_spec x a); [lia|]. destruct (Z.ltb_spec b x); lia.
Qed.

(** X24: [texel_clamp] never reads outside the image: on an image that
    holds [w*h] pixels it returns, for any coordinates at all, the pixel at
    the coordinates clamped into the image; coordinates inside the image
    read their own pixel. *)
Theorem X24_texel_clamp_in_bounds (img : Image.t) (x y : Z) :
  Image.wf img ->
  let cx := Z.max 0 (Z.min x (Image.w img - 1)) in
  let cy := Z.max 0 (Z.min y (Image.h img - 1)) in
  texel_clamp img x y = vget (Image.px img) (cy * Image.w img + cx) /\
  is_Some (texel_clamp img x y) /\
  (0 <= x < Image.w img -> 0 <= y < Image.h img -> cx = x /\ cy = y).
Proof.
  intros (Hw & Hh & Hlen) cx cy.
  assert (texel_clamp img x y = vget (Image.px img) (cy * Image.w img + cx)) as Heq.
  { unfold texel_clamp. rewrite !to_i32_id by (unfold is_i32; lia).
    assert (clampi x 0 (Image.w img - 1) = cx) as ->
      by (unfold clampi, cx; destruct (Z.ltb_spec x 0);
          [lia|destruct (Z.ltb_spec (Image.w img - 1) x); lia]).
    assert (clampi y 0 (Image.h img - 1) = cy) as ->
      by (unfold clampi, cy; destruct (Z.ltb_spec y 0);
          [lia|destruct (Z.ltb_spec (Image.h img - 1) y); lia]).
    rewrite (to_usize_id cy), (to_usize_id (Image.w img)), (to_usize_id cx) by lia.
    rewrite (to_usize_id (cy * Image.w img)) by nia.
    rewrite to_usize_id by nia. done. }
  split; [done|]. split; [|lia].
  rewrite Heq. destruct (vget_is_Some (Image.px img) (cy * Image.w img + cx)) as [v ->];
    [rewrite Hlen; nia|]. by eexists.
Qed.

Lemma X24_texel_clamp_in_bounds_witness :
  texel_clamp (Image.mk 2 2 [10; 20; 30; 40]) 7 (-3) = Some 20.
Proof.
  destruct (X24_texel_clamp_in_bounds (Image.mk 2 2 [10; 20; 30; 40]) 7 (-3)) as [H _].
  - unfold Image.wf, vlen. simpl. lia.
  - exact H.
Defined.

(** ** The xorshift generator *)

Lemma log2_u32 a : is_u32 a -> Z.log2 a < 32.
Proof.
  unfold is_u32. intros Ha.
  destruct (Z.eq_dec a 0) as [->|?]; [done|]. apply Z.log2_lt_pow2; lia.
Qed.

Lemma lxor_u32 a b : is_u32 a -> is_u32 b -> is_u32 (Z.lxor a b).
Proof.
  intros Ha Hb. pose proof (log2_u32 a Ha). pose proof (log2_u32 b Hb).
  unfold is_u32 in *.
  assert (0 <= Z.lxor a b) as Hnn by (apply Z.lxor_nonneg; lia).
  split; [done|].
  destruct (Z.eq_dec (Z.lxor a b) 0) as [->|Hne]; [lia|].
  change 4294967296 with (2 ^ 32). apply Z.log2_lt_pow2; [lia|].
  eapply Z.le_lt_trans; [apply Z.log2_lxor; lia|lia].
Qed.

(** [x ^= x << k] keeps a non-zero [u32] non-zero, for the two shifts
    the generator uses: [x = (x << k) mod 2^32] makes [2^32] divide
    [x * (2^k - 1)], and [2^k - 1] is odd. *)
Lemma xor_shl_nonzero x k :
  k = 13 \/ k = 5 -> is_u32 x -> x <> 0 ->
  is_u32 (Z.lxor x (to_u32 (Z.shiftl x k))) /\ Z.lxor x (to_u32 (Z.shiftl x k)) <> 0.
Proof.
  intros Hk Hx Hne.
  assert (is_u32 (to_u32 (Z.shiftl x k))) as Hs
    by (unfold is_u32, to_u32; apply Z.mod_pos_bound; lia).
  split; [by apply lxor_u32|].
  intros Heq%Z.lxor_eq. unfold to_u32 in Heq. unfold is_u32 in Hx.
  rewrite Z.shiftl_mul_pow2 in Heq by lia.
  assert ((4294967296 | (2 ^ k - 1) * x)) as Hdiv.
  { exists (x * 2 ^ k / 4294967296).
    pose proof (Z.div_mod (x * 2 ^ k) 4294967296 ltac:(lia)). lia. }
  apply Z.gauss in Hdiv.
  - destruct Hdiv as [q Hq]. lia.
  - destruct Hk as [-> | ->]; reflexivity.
Qed.

(** [x ^= x >> k] keeps a non-zero [u32] non-zero. *)
Lemma xor_shr_nonzero x k :
  0 < k -> is_u32 x -> x <> 0 ->
  is_u32 (Z.lxor x (Z.shiftr x k)) /\ Z.lxor x (Z.shiftr x k) <> 0.
Proof.
  unfold is_u32. intros Hk Hx Hne.
  assert (0 <= Z.shiftr x k < x) as Hs.
  { rewrite Z.shiftr_div_pow2 by lia. split; [apply Z.div_pos; lia|].
    apply Z.div_lt; [lia|]. apply Z.pow_gt_1; lia. }
  split; [apply lxor_u32; unfold is_u32; lia|].
  intros Heq%Z.lxor_eq. lia.
Qed.

Lemma rng_u32_nonzero s :
  is_u32 s -> s <> 0 -> is_u32 (RNG.rng_u32 s).2 /\ (RNG.rng_u32 s).2 <> 0.
Proof.
  intros Hs Hne. unfold RNG.rng_u32. cbn [snd].
  destruct (xor_shl_nonzero s 13 ltac:(by left) Hs Hne) as [H1 N1].
  destruct (xor_shr_nonzero _ 17 ltac:(lia) H1 N1) as [H2 N2].
  exact (xor_shl_nonzero _ 5 ltac:(by right) H2 N2).
Qed.

Lemma draws_nonzero n : forall s,
  is_u32 s -> s <> 0 -> is_u32 (RNG.draws n s) /\ RNG.draws n s <> 0.
Proof.
  induction n as [|n IH]; intros s Hs Hne; [done|].
  cbn [RNG.draws]. destruct (rng_u32_nonzero s Hs Hne). by apply IH.
Qed.

(** X25: the generator never gets stuck: zero is a fixed point of
    [rng_u32], a seed of zero is replaced, and from any seed the state is a
    non-zero [u32] after every number of draws; the value returned is the
    new state. *)
Theorem X25_rng_state_never_zero (seed : Z) (n : nat) :
  is_u32 seed ->
  0 < RNG.draws n (RNG.rng_seed seed) < 4294967296 /\
  (RNG.rng_u32 (RNG.draws n (RNG.rng_seed seed))).1
  = RNG.draws (S n) (RNG.rng_seed seed) /\
  RNG.rng_u32 0 = (0, 0).
Proof.
  intros Hs.
  assert (is_u32 (RNG.rng_seed seed) /\ RNG.rng_seed seed <> 0) as [Hu Hne].
  { unfold RNG.rng_seed, is_u32 in *. destruct (Z.eqb_spec seed 0); lia. }
  destruct (draws_nonzero n _ Hu Hne) as [Hr Hn']. unfold is_u32 in Hr.
  split; [lia|]. split; [|done].
  generalize (RNG.rng_seed seed). clear. induction n as [|n IH]; intros s; [done|].
  cbn [RNG.draws] in *. apply IH.
Qed.

Lemma X25_rng_state_never_zero_witness :
  0 < RNG.draws 2 (RNG.rng_seed 0) < 4294967296.
Proof.
  apply (X25_rng_state_never_zero 0 2). unfold is_u32. lia.
Defined.

(** ** Canvas: what the primitives write *)

Section CanvasLoops.

(** What a pixel becomes when [c] is drawn over it. *)
Local Abbreviation over c := (fun old : Z => Color.blend_over old c).

Lemma write_Some buf row xx v :
  0 <= row + xx < vlen buf -> Canvas.write buf row xx v = Some (vset buf (row + xx) v).
Proof.
  intros Hi. unfold Canvas.write.
  destruct (Z.leb_spec 0 (row + xx)), (Z.ltb_spec (row + xx) (vlen buf)); try lia. done.
Qed.

(** A loop that rewrites the cells [row + x], for the [x] of a list without
    repetition, applies [g] once to each of them and leaves the rest. *)
Lemma row_loop (f : list Z -> Z -> option (list Z)) (g : Z -> Z) row xs :
  (forall buf xx old, vget buf (row + xx) = Some old ->
                      f buf xx = Some (vset buf (row + xx) (g old))) ->
  forall buf, NoDup xs -> (forall x, x ∈ xs -> 0 <= row + x < vlen buf) ->
  exists buf', foldlM_opt f xs buf = Some buf' /\ vlen buf' = vlen buf /\
    forall i, vget buf' i = if decide (i - row ∈ xs) then g <$> vget buf i
                            else vget buf i.
Proof.
  intros Hf. induction xs as [|x xs IH]; intros buf Hnd Hin.
  - exists buf. split; [done|]. split; [done|]. intros i.
    case_decide as Hd; [by apply elem_of_nil in Hd|done].
  - apply NoDup_cons in Hnd as [Hx Hnd].
    destruct (vget_is_Some buf (row + x)) as [old Hold]; [apply Hin; by left|].
    cbn [foldlM_opt]. rewrite (Hf _ _ _ Hold). cbn [mbind option_bind].
    destruct (IH (vset buf (row + x) (g old)) Hnd) as (buf' & Hrun & Hlen & Hat).
    { intros x' Hx'. rewrite vlen_vset. apply Hin. by right. }
    exists buf'. split; [done|]. rewrite vlen_vset in Hlen. split; [done|].
    intros i. rewrite Hat. destruct (decide (i = row + x)) as [->|Hne].
    + replace (row + x - row) with x by lia.
      rewrite decide_False by done. rewrite decide_True by (by left).
      rewrite vget_vset_eq by (by apply vget_Some_lt in Hold). by rewrite Hold.
    + rewrite vget_vset_ne by done.
      destruct (decide (i - row ∈ xs)) as [Hd|Hd].
      * by rewrite decide_True by (by right).
      * rewrite decide_False; [done|]. intros [?|?]%elem_of_cons; [lia|done].
Qed.

Lemma fill_row_spec c row xs buf :
  NoDup xs -> (forall x, x ∈ xs -> 0 <= row + x < vlen buf) ->
  exists buf', Canvas.fill_row (Color.A c) c row xs buf = Some buf' /\
    vlen buf' = vlen buf /\
    forall i, vget buf' i = if decide (i - row ∈ xs) then over c <$> vget buf i
                            else vget buf i.
Proof.
  intros Hnd Hin. unfold Canvas.fill_row.
  destruct (Z.eqb_spec (Color.A c) 255) as [Ha|Ha].
  - apply (row_loop _ (over c)); [|done|done].
    intros b xx old Hold. unfold Color.blend_over. rewrite Ha. cbn [Z.eqb Pos.eqb].
    apply write_Some. by apply vget_Some_lt in Hold.
  - apply (row_loop _ (over c)); [|done|done].
    intros b xx old Hold. unfold Canvas.blend. rewrite Hold. cbn [mbind option_bind].
    apply write_Some. by apply vget_Some_lt in Hold.
Qed.

Lemma rows_loop c st w h xs ys : forall buf,
  0 <= w <= st -> h * st <= vlen buf -> h * st < 2147483648 ->
  NoDup xs -> (forall x, x ∈ xs -> 0 <= x < w) ->
  NoDup ys -> (forall y, y ∈ ys -> 0 <= y < h) ->
  exists buf',
    foldlM_opt (fun buf yy => Canvas.fill_row (Color.A c) c (to_i32 (yy * st)) xs buf)
               ys buf = Some buf' /\
    vlen buf' = vlen buf /\
    forall i, vget buf' i = if decide (in_rows st xs ys i) then over c <$> vget buf i
                            else vget buf i.
Proof.
  induction ys as [|y ys IH]; intros buf Hw Hlen Hsmall Hndx Hxs Hndy Hys.
  - exists buf. split; [done|]. split; [done|]. intros i.
    case_decide as Hd; [by apply Exists_nil in Hd|done].
  - apply NoDup_cons in Hndy as [Hy Hndy].
    assert (0 <= y < h) as Hyr by (apply Hys; by left).
    assert (to_i32 (y * st) = y * st) as Hrow by (apply to_i32_id; unfold is_i32; nia).
    destruct (fill_row_spec c (y * st) xs buf Hndx) as (buf1 & Hrun1 & Hlen1 & Hat1).
    { intros x Hx%Hxs. nia. }
    cbn [foldlM_opt]. rewrite Hrow, Hrun1. cbn [mbind option_bind].
    destruct (IH buf1) as (buf' & Hrun & Hlen' & Hat); try done.
    { by rewrite Hlen1. } { intros y' Hy'. apply Hys. by right. }
    exists buf'. split; [done|]. split; [congruence|].
    intros i. rewrite Hat, Hat1. unfold in_rows.
    destruct (decide (i - y * st ∈ xs)) as [Hd|Hd].
    + rewrite (decide_True (P := Exists _ (y :: ys))) by (by left).
      rewrite decide_False; [done|].
      intros (y' & Hy' & Hd')%Exists_exists.
      apply Hxs in Hd, Hd'. assert (y' = y) as -> by nia. done.
    + destruct (decide (Exists (fun yy => i - yy * st ∈ xs) ys)) as [He|He].
      * by rewrite decide_True by (by right).
      * rewrite decide_False; [done|]. by intros [?|?]%Exists_cons.
Qed.

Lemma in_rows_at st w xs ys px py :
  0 <= w <= st -> (forall x, x ∈ xs -> 0 <= x < w) -> 0 <= px < st ->
  in_rows st xs ys (py * st + px) <-> px ∈ xs /\ py ∈ ys.
Proof.
  intros Hw Hxs Hpx. unfold in_rows. rewrite Exists_exists. split.
  - intros (y & Hy & Hin). pose proof (Hxs _ Hin) as Hr.
    assert (y = py) as -> by nia.
    replace (py * st + px - py * st) with px in Hin by lia. done.
  - intros [Hx Hy]. exists py. split; [done|].
    by replace (py * st + px - py * st) with px by lia.
Qed.

(** The rows and columns [rect_fill] visits, once the rectangle is clipped. *)
Lemma rect_fill_spec cv x y W H c :
  Canvas.fits cv -> Canvas.clip_ok cv ->
  exists buf xs ys,
    Canvas.rect_fill cv x y W H c
    = Some (Canvas.mk buf (Canvas.w cv) (Canvas.h cv) (Canvas.stride cv) (Canvas.clip cv)) /\
    vlen buf = vlen (Canvas.pix cv) /\
    (forall px, px ∈ xs -> rx0 (Canvas.clip cv) <= px <= rx1 (Canvas.clip cv)) /\
    (forall py, py ∈ ys -> ry0 (Canvas.clip cv) <= py <= ry1 (Canvas.clip cv)) /\
    (0 < W -> 0 < H -> is_i32 x -> is_i32 y ->
     x + W < 2147483648 -> y + H < 2147483648 ->
     forall px py, px ∈ xs /\ py ∈ ys <->
                   (x <= px < x + W /\ y <= py < y + H) /\ Canvas.in_clip cv px py) /\
    forall i, vget buf i
              = if decide (in_rows (Canvas.stride cv) xs ys i)
                then over c <$> vget (Canvas.pix cv) i else vget (Canvas.pix cv) i.
Proof.
  intros (Hw & Hh & Hlen & Hsmall) (Hcx0 & Hcx1 & Hcy0 & Hcy1).
  assert (forall i, vget (Canvas.pix cv) i
            = if decide (in_rows (Canvas.stride cv) [] [] i)
              then over c <$> vget (Canvas.pix cv) i else vget (Canvas.pix cv) i) as Hnone.
  { intros i. case_decide as Hd; [by apply Exists_nil in Hd|done]. }
  assert (forall W' H', (W' =? 0) || (H' =? 0) = true ->
            ~ (0 < W' /\ 0 < H')) as Hzero.
  { intros W' H' [?%Z.eqb_eq|?%Z.eqb_eq]%orb_true_iff; lia. }
  unfold Canvas.rect_fill.
  destruct ((W =? 0) || (H =? 0)) eqn:HWH.
  { exists (Canvas.pix cv), [], []. split; [by destruct cv|]. split; [done|].
    split; [by intros ? ?%elem_of_nil|]. split; [by intros ? ?%elem_of_nil|].
    split; [|done]. intros. exfalso. apply (Hzero _ _ HWH). lia. }
  set (xe := to_i32 (to_i32 (x + W) - 1)). set (ye := to_i32 (to_i32 (y + H) - 1)).
  assert (exists xa xb, (if xe <? x then (xe, x) else (x, xe)) = (xa, xb) /\
            (0 < W -> is_i32 x -> x + W < 2147483648 -> xa = x /\ xb = x + W - 1))
    as (xa & xb & -> & Hxab).
  { destruct (Z.ltb_spec xe x) as [Hlt|Hge]; eexists _, _; (split; [done|]);
      intros HW Hx Hsum; unfold is_i32 in Hx;
      assert (xe = x + W - 1) as Hxe
        by (unfold xe; rewrite (to_i32_id (x + W)) by (unfold is_i32; lia);
            apply to_i32_id; unfold is_i32; lia); lia. }
  assert (exists ya yb, (if ye <? y then (ye, y) else (y, ye)) = (ya, yb) /\
            (0 < H -> is_i32 y -> y + H < 2147483648 -> ya = y /\ yb = y + H - 1))
    as (ya & yb & -> & Hyab).
  { destruct (Z.ltb_spec ye y) as [Hlt|Hge]; eexists _, _; (split; [done|]);
      intros HH Hy Hsum; unfold is_i32 in Hy;
      assert (ye = y + H - 1) as Hye
        by (unfold ye; rewrite (to_i32_id (y + H)) by (unfold is_i32; lia);
            apply to_i32_id; unfold is_i32; lia); lia. }
  set (x0 := Z.max xa (rx0 (Canvas.clip cv))). set (x1 := Z.min xb (rx1 (Canvas.clip cv))).
  set (y0 := Z.max ya (ry0 (Canvas.clip cv))). set (y1 := Z.min yb (ry1 (Canvas.clip cv))).
  destruct ((x1 <? x0) || (y1 <? y0)) eqn:Hempty.
  { exists (Canvas.pix cv), [], []. split; [by destruct cv|]. split; [done|].
    split; [by intros ? ?%elem_of_nil|]. split; [by intros ? ?%elem_of_nil|].
    split; [|done]. intros HW HH Hx Hy Hsx Hsy px py.
    destruct (Hxab HW Hx Hsx) as [-> ->]. destruct (Hyab HH Hy Hsy) as [-> ->].
    split; [by intros [?%elem_of_nil _]|]. intros [[Hpx Hpy] [Hcx Hcy]].
    apply orb_true_iff in Hempty as [?%Z.ltb_lt|?%Z.ltb_lt]; lia. }
  apply orb_false_elim in Hempty as [Hx01%Z.ltb_ge Hy01%Z.ltb_ge].
  destruct (rows_loop c (Canvas.stride cv) (Canvas.w cv) (Canvas.h cv)
              (seqZ x0 (x1 - x0 + 1)) (seqZ y0 (y1 - y0 + 1)) (Canvas.pix cv))
    as (buf & Hrun & Hlen' & Hat); try done; try apply NoDup_seqZ.
  { intros px Hpx%elem_of_seqZ. lia. }
  { intros py Hpy%elem_of_seqZ. lia. }
  rewrite Hrun. cbn [mbind option_bind].
  exists buf, (seqZ x0 (x1 - x0 + 1)), (seqZ y0 (y1 - y0 + 1)).
  split; [done|]. split; [done|].
  split; [intros px Hpx%elem_of_seqZ; lia|].
  split; [intros py Hpy%elem_of_seqZ; lia|].
  split; [|done]. intros HW HH Hx Hy Hsx Hsy px py.
  destruct (Hxab HW Hx Hsx) as [Hxa Hxb]. destruct (Hyab HH Hy Hsy) as [Hya Hyb].
  unfold Canvas.in_clip. rewrite !elem_of_seqZ. lia.
Qed.

(** A canvas [cv'] that differs from [cv] in pixels inside the clip
    rectangle only. *)
Lemma rect_fill_safe cv x y W H c :
  Canvas.fits cv -> Canvas.clip_ok cv ->
  exists cv', Canvas.rect_fill cv x y W H c = Some cv' /\ changed_in_clip cv cv'.
Proof.
  intros Hfits Hclip.
  destruct (rect_fill_spec cv x y W H c Hfits Hclip)
    as (buf & xs & ys & Hrun & Hlen & Hxs & Hys & _ & Hat).
  eexists. split; [exact Hrun|]. split; [done|]. split; [done|]. intros i Hne.
  cbn [Canvas.pix] in Hne. rewrite Hat in Hne. case_decide as Hin; [|done].
  apply Exists_exists in Hin as (py & Hpy & Hpx).
  exists (i - py * Canvas.stride cv), py. split; [|lia].
  split; [by apply Hxs|by apply Hys].
Qed.

Lemma changed_in_clip_trans a b c :
  changed_in_clip a b -> changed_in_clip b c -> changed_in_clip a c.
Proof.
  intros (Hg1 & Hl1 & Hc1) (Hg2 & Hl2 & Hc2).
  assert (Canvas.clip b = Canvas.clip a /\ Canvas.stride b = Canvas.stride a) as [Hcl Hst].
  { destruct Hg1 as (? & ? & ? & ?). done. }
  split; [|split; [congruence|]].
  - destruct Hg1 as (? & ? & ? & ?), Hg2 as (? & ? & ? & ?). repeat split; congruence.
  - intros i Hne. destruct (decide (vget (Canvas.pix b) i = vget (Canvas.pix a) i)) as [He|He].
    + rewrite <- He in Hne. destruct (Hc2 i Hne) as (px & py & Hin & ->).
      exists px, py. unfold Canvas.in_clip in *. by rewrite Hcl, Hst in *.
    + by apply Hc1.
Qed.

Lemma changed_in_clip_ok a b :
  changed_in_clip a b -> Canvas.fits a -> Canvas.clip_ok a ->
  Canvas.fits b /\ Canvas.clip_ok b.
Proof.
  intros ((Hw & Hh & Hs & Hc) & Hl & _) Hf Hk.
  unfold Canvas.fits, Canvas.clip_ok in *. by rewrite Hw, Hh, Hs, Hc, Hl.
Qed.

(** X26: [rect_fill] and [rect_outline] are memory safe and respect the
    clip rectangle: on a canvas whose rows lie inside its buffer and whose
    clip rectangle lies inside the canvas, for any arguments at all they
    return, keep the geometry and the buffer size, and every buffer cell
    whose content changed is a pixel inside the clip rectangle. *)
Theorem X26_rect_fill_stays_in_clip (cv : Canvas.t) (x y W H th c : Z) :
  Canvas.fits cv -> Canvas.clip_ok cv ->
  (exists cv', Canvas.rect_fill cv x y W H c = Some cv' /\ changed_in_clip cv cv') /\
  (exists cv', Canvas.rect_outline cv x y W H th c = Some cv' /\ changed_in_clip cv cv').
Proof.
  intros Hfits Hclip. split; [by apply rect_fill_safe|].
  unfold Canvas.rect_outline. destruct (th <=? 0).
  { exists cv. split; [done|]. split; [done|]. split; [done|]. by intros i []. }
  destruct (rect_fill_safe cv x y W th c Hfits Hclip) as (cv1 & -> & H1).
  destruct (changed_in_clip_ok _ _ H1 Hfits Hclip) as [Hf1 Hk1].
  cbn [mbind option_bind].
  destruct (rect_fill_safe cv1 x (to_i32 (to_i32 (y + H) - th)) W th c Hf1 Hk1)
    as (cv2 & -> & H2).
  destruct (changed_in_clip_ok _ _ H2 Hf1 Hk1) as [Hf2 Hk2].
  cbn [mbind option_bind].
  destruct (rect_fill_safe cv2 x y th H c Hf2 Hk2) as (cv3 & -> & H3).
  destruct (changed_in_clip_ok _ _ H3 Hf2 Hk2) as [Hf3 Hk3].
  cbn [mbind option_bind].
  destruct (rect_fill_safe cv3 (to_i32 (to_i32 (x + W) - th)) y th H c Hf3 Hk3)
    as (cv4 & -> & H4).
  exists cv4. split; [done|].
  eapply changed_in_clip_trans; [|exact H4].
  eapply changed_in_clip_trans; [|exact H3].
  by eapply changed_in_clip_trans.
Qed.

(** X27: [rect_fill] paints the clipped rectangle and nothing else: for a
    rectangle of positive size whose corners are [int] values, a pixel
    inside both the rectangle and the clip rectangle becomes the colour
    blended over what it was, and every other position of a row keeps its
    content. *)
Theorem X27_rect_fill_paints_rectangle (cv : Canvas.t) (x y W H c : Z) :
  Canvas.fits cv -> Canvas.clip_ok cv ->
  0 < W -> 0 < H -> is_i32 x -> is_i32 y -> x + W < 2147483648 -> y + H < 2147483648 ->
  exists cv',
    Canvas.rect_fill cv x y W H c = Some cv' /\
    forall px py, 0 <= px < Canvas.stride cv ->
      Canvas.at_xy cv' px py
      = if decide ((x <= px < x + W /\ y <= py < y + H) /\ Canvas.in_clip cv px py)
        then (fun old => Color.blend_over old c) <$> Canvas.at_xy cv px py
        else Canvas.at_xy cv px py.
Proof.
  intros Hfits Hclip HW HH Hx Hy Hsx Hsy.
  destruct (rect_fill_spec cv x y W H c Hfits Hclip)
    as (buf & xs & ys & Hrun & Hlen & Hxs & Hys & Hin & Hat).
  eexists. split; [exact Hrun|]. intros px py Hpx.
  unfold Canvas.at_xy. cbn [Canvas.pix Canvas.stride]. rewrite Hat.
  destruct Hfits as (Hw & _). destruct Hclip as (Hc0 & Hc1 & _).
  assert (in_rows (Canvas.stride cv) xs ys (py * Canvas.stride cv + px)
          <-> (x <= px < x + W /\ y <= py < y + H) /\ Canvas.in_clip cv px py) as Hiff.
  { rewrite <- (Hin HW HH Hx Hy Hsx Hsy).
    apply (in_rows_at _ (Canvas.w cv)); [done| |done].
    intros x' Hx'%Hxs. lia. }
  destruct (decide (in_rows _ _ _ _)) as [Hd|Hd].
  - by rewrite decide_True by (by apply Hiff).
  - by rewrite decide_False by (by rewrite <- Hiff).
Qed.

End CanvasLoops.

Lemma in_int_true z : is_i32 z -> in_int z = true.
Proof.
  unfold is_i32, in_int. intros Hz.
  destruct (Z.leb_spec (-2147483648) z), (Z.ltb_spec z 2147483648); lia || done.
Qed.

(** X28: the clip rectangle never leaves the canvas: after [clip_reset],
    and after [clip_set] with [int] arguments whose corners [x+W-1] and
    [y+H-1] do not overflow, it lies inside the canvas; [clip_set] keeps
    the pixels and the geometry and makes the clip rectangle exactly the
    part of the rectangle asked for that lies inside the canvas. *)
Theorem X28_clip_stays_in_canvas (cv : Canvas.t) (x y W H : Z) :
  0 <= Canvas.w cv < 2147483648 -> 0 <= Canvas.h cv < 2147483648 ->
  is_i32 x -> is_i32 y -> is_i32 W -> is_i32 H ->
  is_i32 (x + W) -> is_i32 (x + W - 1) -> is_i32 (y + H) -> is_i32 (y + H - 1) ->
  Canvas.clip_ok (Canvas.clip_reset cv) /\
  exists cv',
    Canvas.clip_set cv x y W H = Some cv' /\ Canvas.clip_ok cv' /\
    (Canvas.pix cv' = Canvas.pix cv /\ Canvas.w cv' = Canvas.w cv /\
     Canvas.h cv' = Canvas.h cv /\ Canvas.stride cv' = Canvas.stride cv) /\
    forall px py, Canvas.in_clip cv' px py <->
                  (x <= px < x + W /\ y <= py < y + H) /\
                  (0 <= px < Canvas.w cv /\ 0 <= py < Canvas.h cv).
Proof.
  intros Hw Hh _ _ _ _ Hxw Hxw1 Hyh Hyh1. split.
  - assert (to_i32 (Canvas.w cv - 1) = Canvas.w cv - 1) as Hw1
      by (apply to_i32_id; unfold is_i32; lia).
    assert (to_i32 (Canvas.h cv - 1) = Canvas.h cv - 1) as Hh1
      by (apply to_i32_id; unfold is_i32; lia).
    unfold Canvas.clip_ok, Canvas.clip_reset.
    cbn [Canvas.clip Canvas.w Canvas.h rx0 rx1 ry0 ry1]. lia.
  - unfold Canvas.clip_set.
    rewrite (in_int_true _ Hxw), (in_int_true _ Hxw1), (in_int_true _ Hyh),
            (in_int_true _ Hyh1).
    rewrite (in_int_true (Canvas.w cv - 1)), (in_int_true (Canvas.h cv - 1))
      by (unfold is_i32; lia).
    cbn [andb]. eexists. split; [done|].
    unfold Canvas.clip_ok, Canvas.in_clip.
    cbn [Canvas.clip Canvas.pix Canvas.w Canvas.h Canvas.stride rx0 rx1 ry0 ry1].
    split; [lia|]. split; [done|]. intros px py. lia.
Qed.

(** The canvas properties at work on a 3 by 2 canvas with a stride of 4. *)
Lemma X26_rect_fill_stays_in_clip_witness :
  exists cv',
    Canvas.rect_fill (Canvas.set [1; 2; 3; 0; 4; 5; 6; 0] 3 2 4) (-5) 1 7 9 4278190335
    = Some cv' /\
    changed_in_clip (Canvas.set [1; 2; 3; 0; 4; 5; 6; 0] 3 2 4) cv'.
Proof.
  apply (X26_rect_fill_stays_in_clip (Canvas.set [1; 2; 3; 0; 4; 5; 6; 0] 3 2 4)
           (-5) 1 7 9 1 4278190335).
  - unfold Canvas.fits, vlen. simpl. lia.
  - vm_compute. repeat split; discriminate.
Defined.

Lemma X27_rect_fill_paints_rectangle_witness :
  exists cv',
    Canvas.rect_fill (Canvas.set [1; 2; 3; 0; 4; 5; 6; 0] 3 2 4) (-5) 1 7 9 4278190335
    = Some cv' /\
    forall px py, 0 <= px < 4 ->
      Canvas.at_xy cv' px py
      = if decide ((-5 <= px < -5 + 7 /\ 1 <= py < 1 + 9) /\
                   Canvas.in_clip (Canvas.set [1; 2; 3; 0; 4; 5; 6; 0] 3 2 4) px py)
        then (fun old => Color.blend_over old 4278190335)
               <$> Canvas.at_xy (Canvas.set [1; 2; 3; 0; 4; 5; 6; 0] 3 2 4) px py
        else Canvas.at_xy (Canvas.set [1; 2; 3; 0; 4; 5; 6; 0] 3 2 4) px py.
Proof.
  apply (X27_rect_fill_paints_rectangle (Canvas.set [1; 2; 3; 0; 4; 5; 6; 0] 3 2 4)
           (-5) 1 7 9 4278190335); try lia.
  - unfold Canvas.fits, vlen. simpl. lia.
  - vm_compute. repeat split; discriminate.
  - unfold is_i32. lia.
  - unfold is_i32. lia.
Defined.

Lemma X28_clip_stays_in_canvas_witness :
  Canvas.clip_ok (Canvas.clip_reset (Canvas.set [1; 2; 3; 0; 4; 5; 6; 0] 3 2 4)) /\
  exists cv',
    Canvas.clip_set (Canvas.set [1; 2; 3; 0; 4; 5; 6; 0] 3 2 4) (-5) 1 7 9 = Some cv' /\
    Canvas.clip_ok cv' /\
    (Canvas.pix cv' = [1; 2; 3; 0; 4; 5; 6; 0] /\ Canvas.w cv' = 3 /\
     Canvas.h cv' = 2 /\ Canvas.stride cv' = 4) /\
    forall px py, Canvas.in_clip cv' px py <->
                  (-5 <= px < -5 + 7 /\ 1 <= py < 1 + 9) /\
                  (0 <= px < 3 /\ 0 <= py < 2).
Proof.
  apply (X28_clip_stays_in_canvas (Canvas.set [1; 2; 3; 0; 4; 5; 6; 0] 3 2 4) (-5) 1 7 9);
    unfold is_i32; simpl; lia.
Defined.

(** ** Gathering the lights *)

Section Gather.
Context (ecs : ECS.t).
Hypothesis Hgen : Forall is_u16 (Registry.gen (ECS.reg ecs)).
Hypothesis Hwf : pool_wf (ECS.light ecs).
Hypothesis Hown : owners_in (ECS.light ecs) (ECS.reg ecs).

(** What row [i] of the Light pool adds to the output. *)
Lemma gather_at_row out i :
  0 <= i < Pool.size (ECS.light ecs) ->
  exists e l, vget (Pool.dense_idx (ECS.light ecs)) i = Some (ent_idx e) /\
    Pool.get (ECS.light ecs) e = Some l /\
    gather_at ecs out i
    = Some (match Pool.get (ECS.tr ecs) e with
            | Some t => out ++ [light_of t l]
            | None => out
            end).
Proof.
  intros Hi.
  destruct (vget_is_Some (Pool.dense_idx (ECS.light ecs)) i) as [idx Hrow]; [done|].
  pose proof (wf_owner_range _ _ _ Hwf Hrow) as Hr.
  pose proof (wf_sparse_len _ Hwf) as Hs.
  destruct (entity_at_alive (ECS.light ecs) (ECS.reg ecs) i idx Hrow) as (e & He & Hidx & Hal);
    [unfold is_u16; lia|apply (Hown _ _ Hrow)|done|].
  destruct (vget_is_Some (Pool.dense_val (ECS.light ecs)) i) as [l Hl];
    [rewrite (wf_vals _ Hwf); done|].
  assert (Pool.get (ECS.light ecs) e = Some l) as Hget.
  { apply wf_get_row; [done|]. exists i. by rewrite Hidx. }
  exists e, l. rewrite Hidx. split; [done|]. split; [done|].
  unfold gather_at. rewrite He. cbn [mbind option_bind]. rewrite Hal, Hget. cbn [negb].
  by destruct (Pool.get (ECS.tr ecs) e).
Qed.

Lemma gather_loop rows : forall out,
  (forall i, i ∈ rows -> 0 <= i < Pool.size (ECS.light ecs)) ->
  exists out',
    foldlM_opt (gather_at ecs) rows out = Some out' /\
    (length out' <= length out + length rows)%nat /\
    forall ls, ls ∈ out' <->
      ls ∈ out \/
      exists i e t l, i ∈ rows /\
        vget (Pool.dense_idx (ECS.light ecs)) i = Some (ent_idx e) /\
        Pool.get (ECS.tr ecs) e = Some t /\ Pool.get (ECS.light ecs) e = Some l /\
        ls = light_of t l.
Proof.
  induction rows as [|i rows IH]; intros out Hin.
  - exists out. split; [done|]. split; [simpl; lia|]. intros ls. split; [by left|].
    intros [?|(i & ? & ? & ? & Hi & _)]; [done|]. by apply elem_of_nil in Hi.
  - destruct (gather_at_row out i) as (e & l & Hrow & Hl & Hstep); [apply Hin; by left|].
    cbn [foldlM_opt]. rewrite Hstep. cbn [mbind option_bind].
    destruct (IH (match Pool.get (ECS.tr ecs) e with
                  | Some t => out ++ [light_of t l] | None => out end))
      as (out' & Hrun & Hlen & Hmem).
    { intros j Hj. apply Hin. by right. }
    exists out'. split; [done|]. split.
    { destruct (Pool.get (ECS.tr ecs) e); rewrite ?length_app in Hlen; simpl in *; lia. }
    intros ls. rewrite Hmem. split.
    + intros [Hls|(j & e' & t & l' & Hj & ?)].
      * destruct (Pool.get (ECS.tr ecs) e) as [t|] eqn:Ht; [|by left].
        apply elem_of_app in Hls as [?|Hs%list_elem_of_singleton]; [by left|].
        subst ls. right. exists i, e, t, l. split; [by left|done].
      * right. exists j, e', t, l'. split; [by right|done].
    + intros [Hls|(j & e' & t & l' & [->|Hj]%elem_of_cons & Hrow' & Ht & Hl' & ->)].
      * left. destruct (Pool.get (ECS.tr ecs) e); [|done]. apply elem_of_app. by left.
      * left. assert (ent_idx e' = ent_idx e) as Heq by congruence.
        rewrite (get_idx_only _ _ _ Heq) in Ht. rewrite (get_idx_only _ _ _ Heq) in Hl'.
        rewrite Ht. apply elem_of_app. right. apply list_elem_of_singleton. congruence.
      * right. by exists j, e', t, l'.
Qed.

End Gather.

(** X29: [gather_lights] collects exactly the lights of the entities that
    have both a Transform and a Light: on an ECS whose Light pool is
    consistent and whose rows belong to slots of the registry it returns,
    with at most one light per row, and a light is in the output exactly
    when some entity has a Transform and a Light with that position,
    radius and intensity. *)
Theorem X29_gather_lights_exact (ecs : ECS.t) :
  Forall is_u16 (Registry.gen (ECS.reg ecs)) -> pool_wf (ECS.light ecs) ->
  owners_in (ECS.light ecs) (ECS.reg ecs) ->
  exists out,
    gather_lights ecs = Some out /\
    Z.of_nat (length out) <= Pool.size (ECS.light ecs) /\
    forall ls, ls ∈ out <->
      exists e t l, Pool.get (ECS.tr ecs) e = Some t /\
                    Pool.get (ECS.light ecs) e = Some l /\ ls = light_of t l.
Proof.
  intros Hgen Hwf Hown. unfold gather_lights.
  destruct (gather_loop ecs Hgen Hwf Hown (seqZ 0 (Pool.size (ECS.light ecs))) [])
    as (out & Hrun & Hlen & Hmem).
  { intros i Hi%elem_of_seqZ. lia. }
  exists out. split; [done|]. split.
  { rewrite length_seqZ in Hlen. simpl in Hlen. unfold Pool.size, vlen in *. lia. }
  intros ls. rewrite Hmem. split.
  - intros [Hnil|(i & e & t & l & _ & _ & Ht & Hl & ->)]; [by apply elem_of_nil in Hnil|].
    by exists e, t, l.
  - intros (e & t & l & Ht & Hl & ->). right.
    pose proof Hl as (d & Hrow & Hval)%wf_get_row; [|done].
    exists d, e, t, l. split; [|done]. apply elem_of_seqZ.
    apply vget_Some_lt in Hrow. unfold Pool.size. lia.
Qed.

Lemma X29_gather_lights_exact_witness :
  exists out,
    gather_lights lit_ecs = Some out /\
    Z.of_nat (length out) <= Pool.size (ECS.light lit_ecs) /\
    forall ls, ls ∈ out <->
      exists e t l, Pool.get (ECS.tr lit_ecs) e = Some t /\
                    Pool.get (ECS.light lit_ecs) e = Some l /\ ls = light_of t l.
Proof.
  apply (X29_gather_lights_exact lit_ecs).
  - repeat constructor; unfold is_u16; lia.
  - apply wf_add, wf_empty.
  - intros i idx Hrow. pose proof (vget_Some_lt _ _ _ Hrow) as Hlt.
    change (vlen (Pool.dense_idx (ECS.light lit_ecs))) with 1 in Hlt.
    assert (i = 0) as -> by lia. vm_compute in Hrow. injection Hrow as <-.
    change (vlen (Registry.gen (ECS.reg lit_ecs))) with 1. lia.
Defined.

(** ** The player system *)

Lemma player_frame_refl ecs : player_frame ecs ecs.
Proof.
  split; try done; try apply same_rows_refl. intros e c' Hc. by exists c'.
Qed.

Lemma player_frame_trans a b c :
  player_frame a b -> player_frame b c -> player_frame a c.
Proof.
  intros [] []. split; try congruence; try (by eapply same_rows_trans).
  - intros e He. destruct (pf_others0 e He) as [H1 H2].
    destruct (pf_others1 e) as [H3 H4]; [congruence|]. split; congruence.
  - intros e c' Hc'. destruct (pf_ground1 e c' Hc') as (c1 & Hc1 & Hh1 & Hg1).
    destruct (pf_ground0 e c1 Hc1) as (c0 & Hc0 & Hh0 & Hg0).
    exists c0. split; [done|]. split; [congruence|]. auto.
Qed.

Section PlayerSteps.
Context (fexp : f32 -> f32) (inp : Input.t) (dt : f32).

Lemma player_at_spec ecs i :
  owners_in (ECS.player ecs) (ECS.reg ecs) ->
  0 <= i < Pool.size (ECS.player ecs) ->
  exists ecs', player_at fexp inp dt ecs i = Some ecs' /\ player_frame ecs ecs'.
Proof.
  intros Hown Hi. unfold player_at.
  destruct (vget_is_Some (Pool.dense_idx (ECS.player ecs)) i) as [idx Hrow]; [done|].
  pose proof (Hown _ _ Hrow) as Hr.
  destruct (vget_is_Some (Registry.gen (ECS.reg ecs)) idx) as [g Hg]; [done|].
  unfold Pool.entity_at. rewrite Hrow. cbn [mbind option_bind]. rewrite Hg.
  cbn [mbind option_bind]. set (e := make_ent idx g).
  destruct (negb (Registry.alive _ _)); [eexists; split; [done|apply player_frame_refl]|].
  destruct (Pool.get (ECS.player ecs) e) as [pl|] eqn:Hpl;
    [|eexists; split; [done|apply player_frame_refl]].
  destruct (Pool.get (ECS.vel ecs) e) as [v|] eqn:Hv;
    [|eexists; split; [done|apply player_frame_refl]].
  destruct (Pool.get (ECS.col ecs) e) as [c|] eqn:Hc;
    [|eexists; split; [done|apply player_frame_refl]].
  cbv zeta.
  set (v1 := set_vel_x v _).
  assert (exists v2 c2,
            (if Input.down (Input.key_pressed inp) VK_SPACE && CCollider.on_ground c
             then (set_vel_y v1 (fneg (CPlayer.jump_speed pl)), set_on_ground c false)
             else (v1, c)) = (v2, c2) /\
            CCollider.half c2 = CCollider.half c /\
            (CCollider.on_ground c2 = true -> CCollider.on_ground c = true))
    as (v2 & c2 & -> & Hh & Hgr).
  { destruct (_ && _); eexists _, _; (split; [done|]); split; done. }
  eexists. split; [done|]. split; cbn [ECS.reg ECS.tr ECS.vel ECS.col ECS.player
                                        ECS.spr ECS.light]; try done;
    try apply same_rows_store.
  - intros e' He'.
    assert (ent_idx e' <> ent_idx e) as Hne.
    { intros Heq. rewrite (get_idx_only _ _ _ Heq) in He'. congruence. }
    by rewrite !get_store_other by done.
  - intros e' c' Hc'.
    destruct (decide (ent_idx e' = ent_idx e)) as [Heq|Hne].
    + rewrite (get_idx_only _ _ _ Heq) in Hc'.
      rewrite get_store_same in Hc' by (by eexists). injection Hc' as <-.
      exists c. by rewrite (get_idx_only _ _ _ Heq).
    + rewrite get_store_other in Hc' by done. by exists c'.
Qed.

Lemma player_loop rows : forall ecs,
  owners_in (ECS.player ecs) (ECS.reg ecs) ->
  (forall i, i ∈ rows -> 0 <= i < Pool.size (ECS.player ecs)) ->
  exists ecs', foldlM_opt (player_at fexp inp dt) rows ecs = Some ecs' /\
               player_frame ecs ecs'.
Proof.
  induction rows as [|i rows IH]; intros ecs Hown Hin.
  - exists ecs. split; [done|apply player_frame_refl].
  - destruct (player_at_spec ecs i Hown) as (ecs1 & Hstep & Hf1); [apply Hin; by left|].
    cbn [foldlM_opt]. rewrite Hstep. cbn [mbind option_bind].
    destruct (IH ecs1) as (ecs' & Hrun & Hf2).
    + by rewrite (pf_player _ _ Hf1), (pf_reg _ _ Hf1).
    + intros j Hj. rewrite (pf_player _ _ Hf1). apply Hin. by right.
    + exists ecs'. split; [done|]. by eapply player_frame_trans.
Qed.

(** X30: the player system only steers: when the rows of the Player pool
    belong to slots of the registry it returns, and it leaves the
    registry, every Transform, the Player, Sprite and Light pools and the
    rows of the Velocity and Collider pools as they were; an entity
    without a Player component keeps its Velocity and Collider; no
    collider changes its half extents, and no [on_ground] flag is
    raised. *)
Theorem X30_player_system_only_steers (ecs : ECS.t) :
  owners_in (ECS.player ecs) (ECS.reg ecs) ->
  exists ecs', sys_player fexp ecs inp dt = Some ecs' /\ player_frame ecs ecs'.
Proof.
  intros Hown. apply player_loop; [done|]. intros i Hi%elem_of_seqZ. lia.
Qed.

End PlayerSteps.

(** The player system at work on the standing player, with [std::exp]
    replaced by the constant 0 so that the smoothing factor is 1: the
    player takes the target speed of 320 to the right and jumps, which
    clears [on_ground]. *)
Example hero_runs_and_jumps :
  (ecs' ← sys_player (fun _ => F0) hero_ecs keys_right_jump tick;
   v ← Pool.get (ECS.vel ecs') demo_player;
   c ← Pool.get (ECS.col ecs') demo_player;
   Some (vx (CVel.v v), vy (CVel.v v), CCollider.on_ground c))
  = Some (f32_of_int 320, f32_of_int (-520), false).
Proof. vm_compute. reflexivity. Qed.

Lemma X30_player_system_only_steers_witness :
  exists ecs',
    sys_player (fun _ => F0) hero_ecs keys_right_jump tick = Some ecs' /\
    player_frame hero_ecs ecs'.
Proof.
  apply (X30_player_system_only_steers (fun _ => F0) keys_right_jump tick hero_ecs).
  intros i idx Hrow. pose proof (vget_Some_lt _ _ _ Hrow) as Hr.
  change (vlen _) with 1 in Hr. assert (i = 0) as -> by lia.
  vm_compute in Hrow. injection Hrow as <-.
  change (vlen (Registry.gen (ECS.reg hero_ecs))) with 1. lia.
Defined.
